(** * Request authentication and replay protection: a shallow embedding

    This development embeds the modules [ConfigCache] (local and remote
    backends), [NonceController] and [HttpAuthenticationMiddleware] of the
    project template and proves properties of them.

    Conventions.
    - A JavaScript string that comes from Node's HTTP layer (header names
      and values, the method, the URL) is a [string]; one character stands
      for one code unit in the range 0..255, since that layer decodes the
      bytes of the wire as Latin-1.  A string in general is a list of
      16-bit code units: the parameters of the query, which [URL]
      percent-decodes to any code point, and the strings of the
      properties about the composite key of the nonce controller.
    - A number is an IEEE 754 double.  A finite one is the rational number
      it stands for, and an operation on doubles is the exact operation
      followed by [Double.fl], the rounding to the nearest double.
      [Date.now()], the time value of a [Date] and the whole numbers of
      milliseconds that [Math.round] returns are integers, which the
      language adds without error below 2^53.  [Math.round] rounds half
      up.  NaN, the infinities and the sign of zero are not modelled.
    - A [throw] is a result [Err e]; an [async] function is its body. *)

From Stdlib Require Import ZArith QArith Qround Qabs Qpower Lia Lqa Ascii String List.
From stdpp Require Import base option list gmap strings fin_maps pretty sorting.
Import ListNotations.

Local Open Scope string_scope.
Local Open Scope Z_scope.

(** ** Results of fallible code *)

(** The failure paths of the request verifier: one constructor for each
    [throw new AuthError(code, message)] of the source, named after its
    message.  The two sites that re-read the nonce header share a message and
    a constructor. *)
Inductive Failure : Type :=
| AuthorizationNotFound          (* Authorization header cannot be found. *)
| CannotSplitAuthorization       (* Unable to split authorizationType and authorizationCredentials *)
| UnsupportedAuthorizationType   (* Unsupported authorization type ... *)
| InvalidCredentialsFormat       (* Invalid authorization credentials format at ... *)
| CredentialKeyTooShort          (* Authorization credential key too short. *)
| DuplicateCredentialKey         (* Duplicate authorization credential key found ... *)
| UnexpectedCredentialKeys       (* Missing or unexpected credential keys. *)
| DuplicateSignedHeader          (* Duplicate header key found in SignedHeaders. *)
| InvalidHeaderKey               (* Invalid HTTP header key ... *)
| CompulsoryHeaderNotSigned      (* Compulsory header ... not signed. *)
| DuplicateHttpHeader            (* Duplicate HTTP header ... found. *)
| SignedHeaderNotFound           (* ... signed header key not found in HTTP header. *)
| SignedHeadersNotFormatted      (* SignedHeaders field ... is not properly formatted. *)
| NonceNotFound                  (* Compulsory header x-fomopay-nonce cannot be found. *)
| NonceInvalid                   (* Requested x-fomopay-nonce has an invalid length ... *)
| ContentSha256NotFound          (* Compulsory header x-fomopay-content-sha256 cannot be found. *)
| PayloadHashMismatch            (* Requested x-fomopay-content-sha256 does not match payload hash. *)
| DateNotFound                   (* Compulsory header x-fomopay-date cannot be found. *)
| DateInvalid                    (* Requested x-fomopay-date contains an invalid value. *)
| DateFormatBasic                (* Invalid x-fomopay-date ... format. (line 357) *)
| DateFormatFull                 (* Invalid x-fomopay-date ... format. (line 364) *)
| MerchantNotRegistered          (* Merchant ... is not registered. *)
| MerchantKeyInvalid             (* Merchant ... does not have a valid merchant public key registered. *)
| SignatureInvalid               (* Unable to verify signature. *)
| TimestampOutOfRange            (* Timestamp out of range (300 seconds). *)
| NonceRejected                  (* Invalid or duplicate nonce. *)
| JsonUnparsable.                (* Unable to parse JSON payload. *)

(** Modelled from the spec: the class [AuthError] of [CommonUtils], which is
    not among the sources, is an exception that carries the code and the
    message given to its constructor. *)
Inductive Thrown : Type :=
| AuthError (code : Z) (message : Failure)   (* [throw new AuthError(code, message)] *)
| OtherError.                                (* any other exception: [Error], [TypeError], ... *)

Inductive Res (A : Type) : Type :=
| Ok (a : A)
| Err (e : Thrown).
Arguments Ok {A} a.
Arguments Err {A} e.

Definition res_bind {A B} (r : Res A) (k : A -> Res B) : Res B :=
  match r with
  | Ok a => k a
  | Err e => Err e
  end.

(** ** Characters and strings *)

Module Js.

Definition code (a : ascii) : Z := Z.of_N (N_of_ascii a).
Definition chr (z : Z) : ascii := ascii_of_N (Z.to_N z).

Definition between (lo hi c : Z) : bool := (lo <=? c) && (c <=? hi).

Definition isDigit (c : Z) : bool := between 48 57 c.
Definition isUpper (c : Z) : bool := between 65 90 c.
Definition isLower (c : Z) : bool := between 97 122 c.
Definition isAlnum (c : Z) : bool := isDigit c || isUpper c || isLower c.

Fixpoint mem (c : Z) (l : list Z) : bool :=
  match l with
  | [] => false
  | x :: r => (c =? x) || mem c r
  end.

Fixpoint all (p : Z -> bool) (s : string) : bool :=
  match s with
  | EmptyString => true
  | String a r => p (code a) && all p r
  end.

Fixpoint smap (f : ascii -> ascii) (s : string) : string :=
  match s with
  | EmptyString => EmptyString
  | String a r => String (f a) (smap f r)
  end.

Definition slength (s : string) : Z := Z.of_nat (String.length s).

(** [String.prototype.toLowerCase] on code units below 256: the ASCII
    capitals and the Latin-1 capitals U+00C0..U+00DE except U+00D7. *)
Definition lowerChar (a : ascii) : ascii :=
  let c := code a in
  if isUpper c then chr (c + 32)
  else if between 192 222 c && negb (c =? 215) then chr (c + 32)
  else a.
Definition toLowerCase (s : string) : string := smap lowerChar s.

(** [String.prototype.toUpperCase] restricted to strings whose capitals
    stay below 256 (U+00B5, U+00DF and U+00FF leave the range and are kept
    as they are: the method of a request is ASCII). *)
Definition upperChar (a : ascii) : ascii :=
  let c := code a in
  if isLower c then chr (c - 32)
  else if between 224 254 c && negb (c =? 247) then chr (c - 32)
  else a.
Definition toUpperCase (s : string) : string := smap upperChar s.

(** White space and line terminators, as [\s] and [trim] see them, among
    the code units below 256. *)
Definition isSpace (c : Z) : bool := mem c [9; 10; 11; 12; 13; 32; 160].
Definition isLineTerminator (c : Z) : bool := mem c [10; 13].

Fixpoint trimStart (s : string) : string :=
  match s with
  | EmptyString => EmptyString
  | String a r => if isSpace (code a) then trimStart r else s
  end.

Fixpoint trimEnd (s : string) : string :=
  match s with
  | EmptyString => EmptyString
  | String a r =>
      match trimEnd r with
      | EmptyString => if isSpace (code a) then EmptyString else String a EmptyString
      | r' => String a r'
      end
  end.

Definition trim (s : string) : string := trimEnd (trimStart s).

Definition eqb (a b : string) : bool := bool_decide (a = b).

Fixpoint startsWith (s p : string) : bool :=
  match p, s with
  | EmptyString, _ => true
  | String b p', String a s' => bool_decide (a = b) && startsWith s' p'
  | String _ _, EmptyString => false
  end.

Fixpoint join (sep : string) (l : list string) : string :=
  match l with
  | [] => ""
  | [x] => x
  | x :: r => x +:+ sep +:+ join sep r
  end.

(** [s.split(sep)] for a separator of one character. *)
Fixpoint split (sep : ascii) (s : string) : list string :=
  match s with
  | EmptyString => [""]
  | String a r =>
      if bool_decide (a = sep) then "" :: split sep r
      else match split sep r with
           | [] => [String a ""]
           | x :: l => String a x :: l
           end
  end.

(** [s.split(/C(.+)$/, 2)] where [C] matches one character satisfying
    [sepc]: the string is cut at the first such character that is followed
    by at least one character and by no line terminator up to the end.
    [Some (s1, s2)] is the array [[s1, s2]], [None] the array [[s]]. *)
Fixpoint splitRest (sepc : Z -> bool) (s : string) : option (string * string) :=
  match s with
  | EmptyString => None
  | String a r =>
      if sepc (code a) && negb (bool_decide (r = "")) && all (fun c => negb (isLineTerminator c)) r
      then Some ("", r)
      else match splitRest sepc r with
           | Some (x, y) => Some (String a x, y)
           | None => None
           end
  end.

(** *** [encodeURIComponent] *)

Definition uriUnreserved (c : Z) : bool :=
  isAlnum c || mem c [45; 95; 46; 33; 126; 42; 39; 40; 41].   (* - _ . ! ~ * ' ( ) *)

Definition hexDigit (d : Z) : ascii :=
  if d <? 10 then chr (48 + d) else chr (55 + d).

Definition percent (octet : Z) : string :=
  String "%" (String (hexDigit (octet / 16)) (String (hexDigit (octet mod 16)) "")).

(** The UTF-8 octets of a code point. *)
Definition utf8 (cp : Z) : list Z :=
  if cp <? 128 then [cp]
  else if cp <? 2048 then [192 + cp / 64; 128 + cp mod 64]
  else if cp <? 65536 then [224 + cp / 4096; 128 + (cp / 64) mod 64; 128 + cp mod 64]
  else [240 + cp / 262144; 128 + (cp / 4096) mod 64; 128 + (cp / 64) mod 64; 128 + cp mod 64].

Definition encodeChar (a : ascii) : string :=
  if uriUnreserved (code a) then String a ""
  else fold_right (fun o acc => percent o +:+ acc) "" (utf8 (code a)).

(** [Buffer.from(str)]: the octets of the UTF-8 encoding. *)
Fixpoint Buffer_from (s : string) : string :=
  match s with
  | EmptyString => EmptyString
  | String a r => fold_right (fun o acc => String (chr o) acc) (Buffer_from r) (utf8 (code a))
  end.

Fixpoint encodeURIComponent (s : string) : string :=
  match s with
  | EmptyString => EmptyString
  | String a r => encodeChar a +:+ encodeURIComponent r
  end.

(** Reading an escape back. *)
Definition hexValue (a : ascii) : option Z :=
  let c := code a in
  if isDigit c then Some (c - 48)
  else if between 65 70 c then Some (c - 55)
  else None.

Definition unescape (s : string) : option (Z * string) :=
  match s with
  | String "%" (String h (String l r)) =>
      hi ← hexValue h; lo ← hexValue l; Some (16 * hi + lo, r)
  | _ => None
  end.

(** *** [encodeURIComponent] on arbitrary strings

    A string of the language in general is a sequence of 16-bit code units.
    [encodeURIComponent] reads it one code point at a time, a surrogate pair
    being one code point, and throws a [URIError] ([None]) on a surrogate
    that is not part of a pair. *)
Definition isHighSurrogate (c : Z) : bool := between 55296 56319 c.
Definition isLowSurrogate (c : Z) : bool := between 56320 57343 c.

Definition encodePoint (cp : Z) : string :=
  if uriUnreserved cp then String (chr cp) ""
  else fold_right (fun o acc => percent o +:+ acc) "" (utf8 cp).

Fixpoint encodeUnits (s : list Z) : option string :=
  match s with
  | [] => Some ""
  | c :: r =>
      if isLowSurrogate c then None
      else if isHighSurrogate c then
        match r with
        | d :: r' =>
            if isLowSurrogate d then
              String.append (encodePoint (65536 + (c - 55296) * 1024 + (d - 56320)))
                <$> encodeUnits r'
            else None
        | [] => None
        end
      else if between 0 65535 c then String.append (encodePoint c) <$> encodeUnits r
      else None
  end.


Definition units (s : string) : list Z := map code (list_ascii_of_string s).


(** A decoder for the first character of an encoded string, used to show
    that the encoding can be read back. *)
Definition decodeHead (s : string) : option (ascii * string) :=
  match s with
  | EmptyString => None
  | String c r =>
      if uriUnreserved (code c) then Some (c, r)
      else
        '(o, r1) ← unescape s;
        if o <? 128 then Some (chr o, r1)
        else if between 192 195 o then
          '(o2, r2) ← unescape r1;
          if between 128 191 o2 then Some (chr ((o - 192) * 64 + (o2 - 128)), r2) else None
        else None
  end.

End Js.

(** *** Objects used as maps

    A plain object [{}] whose keys are arbitrary strings is a finite map of
    its own properties.  Assigning to the key [__proto__] does not create an
    own property (it sets, or fails to set, the prototype), so the map is
    unchanged. *)

Module Obj.
Section Obj.
Context {V : Type}.

(** Modelled from the spec: [CommonUtils.objectHasKey], which is not among
    the sources, tells whether the object has the key as a property of its
    own; the verifier detects duplicate keys with it and the cache looks an
    entry up with it. *)
Definition objectHasKey (o : gmap string V) (k : string) : bool :=
  bool_decide (is_Some (o !! k)).

Definition assign (k : string) (v : V) (o : gmap string V) : gmap string V :=
  if bool_decide (k = "__proto__") then o else <[k:=v]> o.

End Obj.
End Obj.

(** ** Numbers

    [Double.fl x] is the double nearest to the real number [x], the even
    one of the two when [x] is half way: what an arithmetic operation
    returns when its exact result is [x].  The doubles around [x] are the
    multiples of [2 ^ ulpExp x]: 53 significant bits, and never less than
    [2 ^ -1074]. *)

Module Double.

Definition pow2 (k : Z) : Q := (2 ^ k)%Q.

(** The integer part of the binary logarithm of [|x|], for [x] other than
    zero. *)
Definition ilog2 (x : Q) : Z :=
  let k := Z.log2 (Z.abs (Qnum x)) - Z.log2 (Zpos (Qden x)) in
  if Qle_bool (pow2 k) (Qabs x) then k else k - 1.

Definition ulpExp (x : Q) : Z := Z.max (ilog2 x - 52) (-1074).

Definition roundEven (x : Q) : Z :=
  let f := Qfloor x in
  match (x - inject_Z f ?= 1 # 2)%Q with
  | Lt => f
  | Gt => f + 1
  | Eq => if Z.even f then f else f + 1
  end.

Definition fl (x : Q) : Q :=
  if Qeq_bool x 0 then 0%Q
  else (inject_Z (roundEven (x / pow2 (ulpExp x))) * pow2 (ulpExp x))%Q.

(** The rationals that are doubles. *)
Definition representable (x : Q) : Prop := (fl x == x)%Q.

(** [n] is the integer nearest to [x], the even one of the two when [x] is
    half way. *)
Definition nearestEven (x : Q) (n : Z) : Prop :=
  (inject_Z n - (1 # 2) <= x)%Q /\ (x <= inject_Z n + (1 # 2))%Q
  /\ ((x == inject_Z n - (1 # 2) \/ x == inject_Z n + (1 # 2))%Q -> Z.even n = true).

End Double.
Arguments Double.fl : simpl never.
Arguments Double.pow2 : simpl never.

(** [Math.round]: the integer nearest to a double, the greater one of the
    two when the double is half way. *)
Definition Math_round (x : Q) : Z := Qfloor (x + (1 # 2))%Q.

(** ** ConfigCache: the contract (ConfigCache/index.ts) *)

Record IConfigCacheAddOptions : Type := { ttl : Q; absolute : bool }.

(** What a call reads from the outside world: the clock, and whether the
    external store answers (the remote backend only). *)
Record Env : Type := { now : Z; storeAnswers : bool }.

(** [value] is an [option]: [None] is [undefined], which the type
    [Exclude<T, undefined>] forbids and [set] checks at run time.  [get]
    returns [None] for [undefined]. *)
Class IConfigCache (V C : Type) : Type := {
  cache_set : Env -> string -> option V -> option IConfigCacheAddOptions -> C -> Res C;
  cache_get : Env -> string -> C -> option V;
  cache_del : Env -> string -> C -> C
}.

(** ** ConfigCache, local backend (ConfigCache/Local.ts) *)

Module Local.
Section Local.
Context {V : Type}.

Record Item : Type := { exp : Z; value : V }.

(** [wakeAt] is the instant at which the background waiter
    ([timer.delay(this.interval())]) is due. *)
Record ConfigCache : Type := {
  optTtlMs : Z;
  dataData : gmap string Item;
  wakeAt : Z
}.

Definition purge (t : Z) (d : gmap string Item) : gmap string Item :=
  filter (fun kv => t < exp kv.2) d.

Definition interval (t : Z) (d : gmap string Item) : Z :=
  map_fold (fun _ it acc => Z.min (Z.max (exp it - t + 1000) 0) acc) 2147483647 d.

Definition create (t : Z) (ttl0 : Q) : ConfigCache :=
  {| optTtlMs := Math_round (Double.fl (ttl0 * 1000));
     dataData := ∅;
     wakeAt := t + interval t ∅ |}.

(** The body of the background loop once the delay has elapsed:
    [this.purge()], then the next [timer.delay(this.interval())]. *)
Definition wake (t : Z) (c : ConfigCache) : ConfigCache :=
  if wakeAt c <=? t then
    let d := purge t (dataData c) in
    {| optTtlMs := optTtlMs c; dataData := d; wakeAt := t + interval t d |}
  else c.

Definition set (e : Env) (key : string) (v : option V)
    (options : option IConfigCacheAddOptions) (c : ConfigCache) : Res ConfigCache :=
  match v with
  | None => Err OtherError
  | Some val =>
      let exp0 := optTtlMs c + now e in
      let exp1 :=
        match options with
        | None => exp0
        | Some o =>
            if absolute o then Math_round (Double.fl (ttl o * 1000))
            else Math_round (Double.fl (ttl o * 1000)) + now e
        end in
      let d := Obj.assign key {| value := val; exp := exp1 |} (dataData c) in
      (* [this.dataTimer.cancel()]: the waiter restarts with a new interval *)
      Ok {| optTtlMs := optTtlMs c; dataData := d; wakeAt := now e + interval (now e) d |}
  end.

Definition get (key : string) (c : ConfigCache) : option V :=
  if negb (Obj.objectHasKey (dataData c) key) then None
  else value <$> dataData c !! key.

Definition del (key : string) (c : ConfigCache) : ConfigCache :=
  {| optTtlMs := optTtlMs c; dataData := delete key (dataData c); wakeAt := wakeAt c |}.

#[global] Instance impl : IConfigCache V ConfigCache := {
  cache_set := set;
  cache_get := fun _ => get;
  cache_del := fun _ => del
}.

End Local.
Arguments Item : clear implicits.
Arguments ConfigCache : clear implicits.
End Local.

(** ** The external expiring key/value store

    Modelled external collaborator (Redis): [SETEX key seconds value] needs
    a positive integer number of seconds and makes the key expire
    [seconds] later; [GET] answers nil for a missing key and for a key whose
    expiration instant has passed.  Every command fails when the store does
    not answer. *)

Module Redis.

Record Entry : Type := { payload : string; expireAt : Z }.

Definition setex (e : Env) (key : string) (seconds : Q) (v : string)
    (st : gmap string Entry) : option (gmap string Entry) :=
  if storeAnswers e && Qeq_bool (inject_Z (Qfloor seconds)) seconds && (0 <? Qfloor seconds)
  then Some (<[key := {| payload := v; expireAt := now e + 1000 * Qfloor seconds |}]> st)
  else None.

(** [None]: the command failed; [Some None]: nil. *)
Definition get (e : Env) (key : string) (st : gmap string Entry) : option (option string) :=
  if storeAnswers e then
    Some (match st !! key with
          | Some en => if now e <=? expireAt en then Some (payload en) else None
          | None => None
          end)
  else None.

Definition del (e : Env) (key : string) (st : gmap string Entry) : option (gmap string Entry) :=
  if storeAnswers e then Some (delete key st) else None.

End Redis.

(** ** ConfigCache, remote backend (ConfigCache/Remote.ts) *)

Module Remote.
Section Remote.
Context {V : Type}.
(** [v8.serialize(value).toString("base64")] and its inverse, which throws
    ([None]) on text it cannot read. *)
Variable serialize : V -> string.
Variable deserialize : string -> option V.

(** [optRedisClient] stands for the store that the client talks to. *)
Record ConfigCache : Type := {
  optTtl : Q;
  optRedisClient : gmap string Redis.Entry;
  optProjectScopePrefix : string
}.

Definition create (ttl0 : Q) (client : gmap string Redis.Entry) (project scope : string) : ConfigCache :=
  {| optTtl := ttl0;
     optRedisClient := client;
     optProjectScopePrefix :=
       Js.join "/" ["ConfigCache"; Js.encodeURIComponent project; Js.encodeURIComponent scope; ""] |}.

Definition generateKey (c : ConfigCache) (key : string) : string :=
  optProjectScopePrefix c +:+ Js.encodeURIComponent key.

Definition with_client (c : ConfigCache) (st : gmap string Redis.Entry) : ConfigCache :=
  {| optTtl := optTtl c; optRedisClient := st; optProjectScopePrefix := optProjectScopePrefix c |}.

Definition set (e : Env) (key : string) (v : option V)
    (options : option IConfigCacheAddOptions) (c : ConfigCache) : Res ConfigCache :=
  match v with
  | None => Err OtherError
  | Some val =>
      let exp :=
        match options with
        | None => optTtl c
        | Some o =>
            if absolute o
            then inject_Z (Math_round
                             (Double.fl (ttl o - Double.fl (inject_Z (now e) / 1000))))
            else inject_Z (Math_round (ttl o))
        end in
      if Qle_bool exp 0 then Ok c
      else
        match Redis.setex e (generateKey c key) exp (serialize val) (optRedisClient c) with
        | Some st => Ok (with_client c st)
        | None => Ok c          (* caught: [console.warn] *)
        end
  end.

Definition get (e : Env) (key : string) (c : ConfigCache) : option V :=
  match Redis.get e (generateKey c key) (optRedisClient c) with
  | Some (Some response) => deserialize response
  | Some None => None
  | None => None                (* caught: [console.warn] *)
  end.

Definition del (e : Env) (key : string) (c : ConfigCache) : ConfigCache :=
  match Redis.del e (generateKey c key) (optRedisClient c) with
  | Some st => with_client c st
  | None => c
  end.

Definition impl : IConfigCache V ConfigCache := {|
  cache_set := set;
  cache_get := get;
  cache_del := del
|}.

End Remote.
Arguments ConfigCache : clear implicits.
End Remote.

(** ** NonceController (NonceController.ts) *)

Inductive Null : Type := null.

Module NonceController.
Section NonceController.
Context {C : Type} `{IConfigCache Null C}.

Definition token (service nonce : string) : string :=
  Js.encodeURIComponent service +:+ "/" +:+ Js.encodeURIComponent nonce.

(** The result and the cache after the call. *)
Definition add (e : Env) (service nonce : string) (idempotent : bool) (configCache : C)
    : Res bool * C :=
  let token := token service nonce in
  let store (_ : unit) :=
    match cache_set e token (Some null) None configCache with
    | Ok c' => (Ok true, c')
    | Err err => (Err err, configCache)
    end in
  if negb idempotent then
    let exists_ := bool_decide (is_Some (cache_get e token configCache)) in
    if exists_ then (Ok false, configCache) else store tt
  else store tt.

End NonceController.
End NonceController.

(** ** Dates *)

Module Date.

Definition msPerDay : Z := 86400000.

(** Year, month (1..12) and day of the month of a day number counted from
    1970-01-01, in the proleptic Gregorian calendar. *)
Definition civil (days : Z) : Z * Z * Z :=
  let z := days + 719468 in
  let era := z / 146097 in
  let doe := z - era * 146097 in
  let yoe := (doe - doe / 1460 + doe / 36524 - doe / 146096) / 365 in
  let doy := doe - (365 * yoe + yoe / 4 - yoe / 100) in
  let mp := (5 * doy + 2) / 153 in
  let d := doy - (153 * mp + 2) / 5 + 1 in
  let m := if mp <? 10 then mp + 3 else mp - 9 in
  let y := yoe + era * 400 + (if m <=? 2 then 1 else 0) in
  (y, m, d).

Definition getUTCFullYear (t : Z) : Z := (civil (t / msPerDay)).1.1.
Definition getUTCMonth (t : Z) : Z := (civil (t / msPerDay)).1.2 - 1.
Definition getUTCDate (t : Z) : Z := (civil (t / msPerDay)).2.
Definition getUTCHours (t : Z) : Z := (t mod msPerDay) / 3600000.
Definition getUTCMinutes (t : Z) : Z := (t mod 3600000) / 60000.
Definition getUTCSeconds (t : Z) : Z := (t mod 60000) / 1000.
Definition getUTCMilliseconds (t : Z) : Z := t mod 1000.

(** A number converted to a string. *)
Definition toString (n : Z) : string := pretty n.

Fixpoint zeros (n : nat) : string :=
  match n with
  | O => ""
  | S k => String "0" (zeros k)
  end.

Definition padStart (width : nat) (s : string) : string :=
  zeros (width - String.length s) +:+ s.

(** The native [Date.prototype.toISOString] of a valid date: a year of four
    digits, or a sign and six digits outside 0..9999. *)
Definition toISOString (t : Z) : string :=
  let y := getUTCFullYear t in
  let year :=
    if (0 <=? y) && (y <=? 9999) then padStart 4 (toString y)
    else (if y <? 0 then "-" else "+") +:+ padStart 6 (toString (Z.abs y)) in
  year +:+ "-" +:+ padStart 2 (toString (getUTCMonth t + 1)) +:+
  "-" +:+ padStart 2 (toString (getUTCDate t)) +:+
  "T" +:+ padStart 2 (toString (getUTCHours t)) +:+
  ":" +:+ padStart 2 (toString (getUTCMinutes t)) +:+
  ":" +:+ padStart 2 (toString (getUTCSeconds t)) +:+
  "." +:+ padStart 3 (toString (getUTCMilliseconds t)) +:+ "Z".

End Date.

(** ** Arrays and ordered objects *)

Module Arr.
Section Arr.
Context {A : Type}.

(** [Array.prototype.sort(cmp)]: a stable sort; [cmp a b <= 0] keeps [a]
    before [b]. *)
Fixpoint insert (cmp : A -> A -> Z) (x : A) (l : list A) : list A :=
  match l with
  | [] => [x]
  | y :: r => if cmp x y <=? 0 then x :: y :: r else y :: insert cmp x r
  end.

Definition sort (cmp : A -> A -> Z) (l : list A) : list A :=
  fold_right (insert cmp) [] l.

End Arr.
End Arr.

(** An object whose enumeration order matters: its own properties in
    creation order.  [entries] lists the keys that are array indices first,
    in increasing order, as [Object.entries] does. *)
Module OrdObj.
Section OrdObj.
Context {V : Type}.

Fixpoint assign (k : string) (v : V) (o : list (string * V)) : list (string * V) :=
  match o with
  | [] => if bool_decide (k = "__proto__") then [] else [(k, v)]
  | (k', v') :: r => if bool_decide (k' = k) then (k, v) :: r else (k', v') :: assign k v r
  end.

Fixpoint decimal (acc : Z) (s : string) : Z :=
  match s with
  | EmptyString => acc
  | String a r => decimal (10 * acc + (Js.code a - 48)) r
  end.

Definition isArrayIndex (k : string) : bool :=
  negb (bool_decide (k = "")) && Js.all Js.isDigit k &&
  (bool_decide (k = "0") || negb (Js.startsWith k "0")) &&
  (String.length k <=? 10)%nat && (decimal 0 k <? 4294967295).

Definition entries (o : list (string * V)) : list (string * V) :=
  Arr.sort (fun a b => decimal 0 a.1 - decimal 0 b.1) (List.filter (fun kv => isArrayIndex kv.1) o)
  ++ List.filter (fun kv => negb (isArrayIndex kv.1)) o.

End OrdObj.
End OrdObj.

(** ** SHA-256 (FIPS 180-4), on strings of octets *)

Module Sha256.

Definition w32 (x : Z) : Z := x mod 4294967296.
Definition rotr (n x : Z) : Z := w32 (Z.lor (Z.shiftr x n) (Z.shiftl x (32 - n))).

(** The constants are the first 32 bits of the fractional parts of the cube
    roots (round constants) and of the square roots (initial hash value) of
    the first primes. *)
Definition isPrime (n : Z) : bool :=
  forallb (fun d => negb (n mod d =? 0)) (seqZ 2 (n - 2)).

Definition primes (count : nat) : list Z :=
  take count (List.filter isPrime (seqZ 2 310)).

Fixpoint cubeRoot (bits : nat) (n r : Z) : Z :=
  match bits with
  | O => r
  | S k =>
      let c := r + 2 ^ Z.of_nat k in
      if c * c * c <=? n then cubeRoot k n c else cubeRoot k n r
  end.

Definition K : list Z :=
  Eval vm_compute in map (fun p => w32 (cubeRoot 40 (p * 2 ^ 96) 0)) (primes 64).

Definition H0 : list Z :=
  Eval vm_compute in map (fun p => w32 (Z.sqrt (p * 2 ^ 64))) (primes 8).

Definition bytes (s : string) : list Z :=
  map Js.code (list_ascii_of_string s).

Fixpoint bigEndian (n : nat) (x : Z) : list Z :=
  match n with
  | O => []
  | S k => bigEndian k (x / 256) ++ [x mod 256]
  end.

Definition padded (m : list Z) : list Z :=
  let len := Z.of_nat (length m) in
  m ++ [128] ++ repeat 0 (Z.to_nat ((55 - len) mod 64)) ++ bigEndian 8 (8 * len).

Fixpoint words (n : nat) (l : list Z) : list Z :=
  match n, l with
  | S k, a :: b :: c :: d :: r => (((a * 256 + b) * 256 + c) * 256 + d) :: words k r
  | _, _ => []
  end.

(** The message schedule, most recent word first. *)
Fixpoint schedule (n : nat) (w : list Z) : list Z :=
  match n with
  | O => w
  | S k =>
      match w with
      | w2' :: w2 :: _ :: _ :: _ :: _ :: w7 :: _ :: _ :: _ :: _ :: _ :: _ :: _ :: w15 :: w16 :: _ =>
          let s0 := Z.lxor (Z.lxor (rotr 7 w15) (rotr 18 w15)) (Z.shiftr w15 3) in
          let s1 := Z.lxor (Z.lxor (rotr 17 w2) (rotr 19 w2)) (Z.shiftr w2 10) in
          schedule k (w32 (w16 + s0 + w7 + s1) :: w)
      | _ => w
      end
  end.

Definition round (st : list Z) (kw : Z * Z) : list Z :=
  match st with
  | [a; b; c; d; e; f; g; h] =>
      let S1 := Z.lxor (Z.lxor (rotr 6 e) (rotr 11 e)) (rotr 25 e) in
      let ch := Z.lxor (Z.land e f) (Z.land (Z.lxor e 4294967295) g) in
      let t1 := w32 (h + S1 + ch + fst kw + snd kw) in
      let S0 := Z.lxor (Z.lxor (rotr 2 a) (rotr 13 a)) (rotr 22 a) in
      let maj := Z.lxor (Z.lxor (Z.land a b) (Z.land a c)) (Z.land b c) in
      let t2 := w32 (S0 + maj) in
      [w32 (t1 + t2); a; b; c; w32 (d + t1); e; f; g]
  | _ => st
  end.

Definition compress (h : list Z) (block : list Z) : list Z :=
  let w := rev (schedule 48 (rev (words 16 block))) in
  map (fun p => w32 (fst p + snd p)) (combine h (fold_left round (combine K w) h)).

Fixpoint blocks (n : nat) (h : list Z) (m : list Z) : list Z :=
  match n with
  | O => h
  | S k => blocks k (compress h (firstn 64 m)) (skipn 64 m)
  end.

Definition hexLower (d : Z) : ascii :=
  Js.chr (if d <? 10 then 48 + d else 87 + d).

Definition hex (octets : list Z) : string :=
  fold_right (fun o acc => String (hexLower (o / 16)) (String (hexLower (o mod 16)) acc)) "" octets.

(** [crypto.createHash("SHA256").update(data).digest("hex")] *)
Definition digest_hex (data : string) : string :=
  let m := padded (bytes data) in
  hex (concat (map (bigEndian 4) (blocks (length m / 64) H0 m))).

End Sha256.

(** ** The request verifier (HttpAuthentication.ts) *)

#[export] Instance Res_ret : MRet Res := fun _ a => Ok a.
#[export] Instance Res_bind : MBind Res := fun _ _ k r => res_bind r k.

Module HttpAuthentication.

Definition CONST_AUTHORIZATION_TYPE : string := "FOMOPAY1-RSA-SHA256".

Definition LF : string := String (Js.chr 10) "".

(** [CONST_HTTP_HEADER_KEY_REGEX.test] *)
Definition headerKeyChar (c : Z) : bool :=
  Js.mem c [33; 42; 43; 45; 46; 124; 126] || Js.between 35 39 c || Js.between 48 57 c
  || Js.between 65 90 c || Js.between 94 122 c.

Definition CONST_HTTP_HEADER_KEY_REGEX (s : string) : bool :=
  negb (bool_decide (s = "")) && Js.all headerKeyChar s.

(** [/^[0-9A-Za-z]{16,256}$/.test] *)
Definition nonceRegex (s : string) : bool :=
  Js.all Js.isAlnum s && (16 <=? Js.slength s) && (Js.slength s <=? 256).

(** [CONST_ISO8601_REGEX.exec]: [None] is [null]; [Some b] is a match, and
    [b] tells whether group 7, the fraction of a second, took part. *)
Fixpoint spanDigits (s : string) : string * string :=
  match s with
  | EmptyString => ("", "")
  | String a r =>
      if Js.isDigit (Js.code a) then let '(d, t) := spanDigits r in (String a d, t)
      else ("", s)
  end.

Definition twoDigits (s : string) : option (Z * string) :=
  match s with
  | String a (String b r) =>
      if Js.isDigit (Js.code a) && Js.isDigit (Js.code b)
      then Some (10 * (Js.code a - 48) + (Js.code b - 48), r) else None
  | _ => None
  end.

Definition expect (c : ascii) (s : string) : option string :=
  match s with
  | String a r => if bool_decide (a = c) then Some r else None
  | EmptyString => None
  end.

Definition field (lo hi : Z) (sep : ascii) (s : string) : option string :=
  s1 ← expect sep s;
  '(n, s2) ← twoDigits s1;
  if (lo <=? n) && (n <=? hi) then Some s2 else None.

Definition isoTail (s : string) : option bool :=
  match s with
  | String "." r =>
      let '(d, t) := spanDigits r in
      if negb (bool_decide (d = "")) && (bool_decide (t = "") || bool_decide (t = "Z"))
      then Some true else None
  | _ => if bool_decide (s = "") || bool_decide (s = "Z") then Some false else None
  end.

Definition CONST_ISO8601_REGEX (s : string) : option bool :=
  let s0 := match s with String "-" r => r | _ => s end in
  let '(year, s1) := spanDigits s0 in
  if ((String.length year =? 4)%nat
      || ((4 <? String.length year)%nat && negb (Js.startsWith year "0")))
  then
    s2 ← field 1 12 "-" s1;
    s3 ← field 1 31 "-" s2;
    s4 ← field 0 23 "T" s3;
    s5 ← field 0 59 ":" s4;
    s6 ← field 0 59 ":" s5;
    isoTail s6
  else None.

Definition toString16 (c : Z) : string :=
  let hex d := if d <? 10 then Js.chr (48 + d) else Js.chr (87 + d) in
  if c <? 16 then String (hex c) "" else String (hex (c / 16)) (String (hex (c mod 16)) "").

Fixpoint replaceReserved (s : string) : string :=
  match s with
  | EmptyString => EmptyString
  | String a r =>
      (if Js.mem (Js.code a) [33; 39; 40; 41; 42] then "%" +:+ toString16 (Js.code a)
       else String a "") +:+ replaceReserved r
  end.

(** [None]: the [URIError] of [encodeURIComponent]. *)
Definition fixedEncodeURIComponent (str : list Z) : option string :=
  replaceReserved <$> Js.encodeUnits str.

Definition pad (number : Z) : string :=
  if number <? 10 then "0" +:+ Date.toString number else Date.toString number.

Definition getIso8601Time (date : Z) : string :=
  Date.toString (Date.getUTCFullYear date) +:+ "-" +:+ pad (Date.getUTCMonth date + 1) +:+
  "-" +:+ pad (Date.getUTCDate date) +:+ "T" +:+ pad (Date.getUTCHours date) +:+
  ":" +:+ pad (Date.getUTCMinutes date) +:+ ":" +:+ pad (Date.getUTCSeconds date) +:+ "Z".


(** *** Requests, collaborators and effects *)

Record HttpHandlerReq : Type := {
  headers : gmap string string;     (* [req.headers]: the entries that are strings *)
  rawHeaders : list string;         (* [req.rawHeaders]: name, value, name, value, ... *)
  fullUrl : string;
  method : string;
  body : option string              (* the bytes of [req.body] when it is a Buffer *)
}.

Record ParsedUrl : Type := {
  pathname : string;
  searchParams : list (list Z * list Z)   (* the entries, as 16-bit code units *)
}.

Record Merchant : Type := { publicKey : option string }.   (* [None]: not a string *)

(** Calls to the collaborators and to the response, in the order in which
    the middleware makes them. *)
Inductive Event : Type :=
| MerchantConfigGet (merchant : string)
| VerifySignature (publicKey stringToSign signature : string)
| NonceControllerAdd (service nonce : string) (idempotent : bool)
| JsonParse
| Next
| NextError
| Status401.

Section Middleware.
Context {C : Type} `{IConfigCache Null C}.
Variable Json : Type.

(** The platform and the collaborators: [new URL] ([None]: it throws),
    [String.prototype.localeCompare], [new Date(string)] ([None]: an
    invalid date), [merchantConfig.get] ([None]: it throws; [Some None]:
    [null]), RSA-SHA256 verification ([None]: it throws) and [JSON.parse]
    of the decoded body ([None]: it throws). *)
Variable URL_parse : string -> option ParsedUrl.
Variable localeCompare : string -> string -> Z.
Variable Date_parse : string -> option Z.
Variable merchantConfig_get : string -> option (option Merchant).
Variable rsa_verify : string -> string -> string -> option bool.
Variable JSON_parse : string -> option Json.

Record HttpAuthenticationPayload : Type := {
  pl_merchant : string;
  pl_json : option Json;
  pl_headers : list (string * string)
}.

(** The cache behind the nonce controller, the data attached to the request
    ([req.data], with the [immutable] flag of each entry) and the calls made
    so far. *)
Record World : Type := {
  configCache : C;
  dataStorage : gmap string (HttpAuthenticationPayload * bool);
  trace : list Event
}.

Definition emit (ev : Event) (w : World) : World :=
  {| configCache := configCache w; dataStorage := dataStorage w; trace := trace w ++ [ev] |}.

(** Modelled from the spec: [CommonUtils.assertString], which is not among
    the sources, returns its argument when it is a string and throws
    otherwise; [v] is the argument when it is a string, and [e] the
    exception that the caller throws in place of the one it catches. *)
Definition assertString (v : option string) (e : Thrown) : Res string :=
  match v with
  | Some s => Ok s
  | None => Err e
  end.

(** [if (!ok) { throw e; }] *)
Definition guard (ok : bool) (e : Thrown) : Res unit :=
  if ok then Ok tt else Err e.

(** Lines 107-146: the header is cut into the type and the credentials. *)
Definition parseAuthorization (req : HttpHandlerReq) : Res string :=
  authorization ← assertString (headers req !! "authorization") (AuthError 0x0001 AuthorizationNotFound);
  match Js.splitRest Js.isSpace authorization with
  | None => Err (AuthError 0x0003 CannotSplitAuthorization)
  | Some (authorizationTypeRaw, authorizationCredentialsRaw) =>
      let authorizationType := Js.trim authorizationTypeRaw in
      let authorizationCredentials := Js.trim authorizationCredentialsRaw in
      _ ← guard (bool_decide (authorizationType = CONST_AUTHORIZATION_TYPE)) (AuthError 0x0004 UnsupportedAuthorizationType);
      Ok authorizationCredentials
  end.

(** Lines 148-189: the credential fields. *)
Definition addCredentialField (p : Res (gmap string string)) (fld : string)
    : Res (gmap string string) :=
  p ← p;
  match Js.splitRest (fun c => c =? 61) fld with
  | None => Err (AuthError 0x0005 InvalidCredentialsFormat)
  | Some (key, value) =>
      _ ← guard (0 <? Js.slength key) (AuthError 0x0006 CredentialKeyTooShort);
      _ ← guard (negb (Obj.objectHasKey p key)) (AuthError 0x0007 DuplicateCredentialKey);
      Ok (Obj.assign key value p)
  end.

(** Modelled from the spec: [CommonUtils.setEqual], which is not among the
    sources, tells whether two sets have the same elements. *)
Definition setEqual (a b : gset string) : bool := bool_decide (a = b).

(** The last [match] reads the three fields, which the comparison of the
    key sets has shown to be there. *)
Definition parseCredentialFields (authorizationCredentials : string)
    : Res (string * string * string) :=
  fields ← fold_left addCredentialField (Js.split "," authorizationCredentials) (Ok ∅);
  _ ← guard (setEqual {["Credential"; "SignedHeaders"; "Signature"]} (dom fields))
        (AuthError 0x0008 UnexpectedCredentialKeys);
  match fields !! "Credential", fields !! "SignedHeaders", fields !! "Signature" with
  | Some c, Some h, Some s => Ok (c, h, s)
  | _, _, _ => Err OtherError
  end.

(** Lines 221-250: one turn of the loop over the raw headers.  The state is
    the working copy [signedHeadersSet] and the object [headersRaw]. *)
Definition compulsory (key : string) : bool :=
  bool_decide (key = "host") || bool_decide (key = "content-type")
  || Js.startsWith key "x-fomopay-".

Definition collectHeader (signedHeadersFull : gset string)
    (st : gset string * list (string * string)) (name value : string)
    : Res (gset string * list (string * string)) :=
  let '(signedHeadersSet, headersRaw) := st in
  let key := Js.toLowerCase name in
  _ ← guard (CONST_HTTP_HEADER_KEY_REGEX key) (AuthError 0x0010 InvalidHeaderKey);
  if negb (bool_decide (key ∈ signedHeadersFull)) then
    if compulsory key then Err (AuthError 0x0010 CompulsoryHeaderNotSigned) else Ok st
  else
    _ ← guard (bool_decide (key ∈ signedHeadersSet)) (AuthError 0x0010 DuplicateHttpHeader);
    Ok (signedHeadersSet ∖ {[key]}, OrdObj.assign key (Js.trim value) headersRaw).

Fixpoint collectHeaders (signedHeadersFull : gset string)
    (st : gset string * list (string * string)) (raw : list string)
    : Res (gset string * list (string * string)) :=
  match raw with
  | name :: value :: rest =>
      st' ← collectHeader signedHeadersFull st name value;
      collectHeaders signedHeadersFull st' rest
  | _ => Ok st
  end.

(** Lines 347-369: the date header. *)
Definition checkDate (xFomopayDate : string) : Res Z :=
  match Date_parse xFomopayDate with
  | None => Err (AuthError 0x0014 DateInvalid)
  | Some dateInst =>
      match CONST_ISO8601_REGEX xFomopayDate with
      | Some true =>
          _ ← guard (bool_decide (Date.toISOString dateInst = xFomopayDate)) (AuthError 0x0016 DateFormatFull);
          Ok dateInst
      | _ =>
          _ ← guard (bool_decide (getIso8601Time dateInst = xFomopayDate)) (AuthError 0x0015 DateFormatBasic);
          Ok dateInst
      end
  end.

(** Lines 371-417.  [None]: [encodeURIComponent] throws on a parameter. *)
Definition encodeEntry (kv : list Z * list Z) : option (string * string) :=
  key ← fixedEncodeURIComponent kv.1;
  value ← fixedEncodeURIComponent kv.2;
  Some (key, value).

Definition canonicalQueryString (queryRaw : list (list Z * list Z)) : option string :=
  entries ← mapM encodeEntry queryRaw;
  Some (Js.join "&"
          (map (fun v => v.1 +:+ "=" +:+ v.2)
             (Arr.sort (fun a b =>
                          let keyCompare := localeCompare a.1 b.1 in
                          if negb (keyCompare =? 0) then keyCompare
                          else localeCompare a.2 b.2)
                entries))).

Definition canonicalRequest (req : HttpHandlerReq) (url : ParsedUrl)
    (canonicalQueryString : string)
    (headersSorted : list (string * string)) (signedHeaders hashedPayload : string) : string :=
  Js.toUpperCase (method req) +:+ LF +:+ pathname url +:+ LF +:+ canonicalQueryString +:+ LF +:+ Js.join "" (map (fun kv => kv.1 +:+ ":" +:+ kv.2 +:+ LF) headersSorted) +:+ LF +:+ signedHeaders +:+ LF +:+ hashedPayload.

(** What lines 103-417 compute for the rest of the middleware. *)
Record Validated : Type := {
  v_credential : string;
  v_signature : string;
  v_headersRaw : list (string * string);
  v_nonce : string;
  v_dateInst : Z;
  v_reqBody : string;
  v_stringToSign : string
}.

Definition validate (req : HttpHandlerReq) : Res Validated :=
  authorizationCredentials ← parseAuthorization req;
  '(credential, authorizationCredentialSignedHeaders, signature) ←
     parseCredentialFields authorizationCredentials;
  let signedHeadersRaw := Js.split ";" authorizationCredentialSignedHeaders in
  let signedHeadersSet : gset string := list_to_set signedHeadersRaw in
  let signedHeadersFull := signedHeadersSet in
  _ ← guard (bool_decide (length signedHeadersRaw = size signedHeadersSet)) (AuthError 0x0009 DuplicateSignedHeader);
  match URL_parse (fullUrl req) with
  | None => Err OtherError
  | Some fullUrl =>
      _ ← guard (Nat.even (length (rawHeaders req))) OtherError;
      '(signedHeadersSet, headersRaw) ←
         collectHeaders signedHeadersFull (signedHeadersSet, []) (rawHeaders req);
      _ ← guard (bool_decide (size signedHeadersSet = 0%nat)) (AuthError 0x0011 SignedHeaderNotFound);
      let headersSorted :=
        Arr.sort (fun a b => localeCompare a.1 b.1) (OrdObj.entries headersRaw) in
      let signedHeaders := Js.join ";" (map fst headersSorted) in
      _ ← guard (bool_decide (signedHeaders = authorizationCredentialSignedHeaders)) (AuthError 0x0012 SignedHeadersNotFormatted);
      xFomopayNonce ← assertString (headers req !! "x-fomopay-nonce") (AuthError 0x0013 NonceNotFound);
      _ ← guard (nonceRegex xFomopayNonce) (AuthError 0x0014 NonceInvalid);
      xFomopayContentSha256 ← assertString (headers req !! "x-fomopay-content-sha256")
                                 (AuthError 0x0015 ContentSha256NotFound);
      let reqBody := default "" (body req) in
      let hashedPayload := Js.toLowerCase (Sha256.digest_hex reqBody) in
      _ ← guard (bool_decide (xFomopayContentSha256 = hashedPayload))
            (AuthError 0x0016 PayloadHashMismatch);
      xFomopayNonce ← assertString (headers req !! "x-fomopay-nonce") (AuthError 0x0013 NonceNotFound);
      xFomopayDate ← assertString (headers req !! "x-fomopay-date") (AuthError 0x0013 DateNotFound);
      dateInst ← checkDate xFomopayDate;
      canonicalQueryString ←
        match canonicalQueryString (searchParams fullUrl) with
        | Some query => Ok query
        | None => Err OtherError          (* a [URIError] *)
        end;
      let hashedCanonicalRequest :=
        Js.toLowerCase
          (Sha256.digest_hex
             (Js.Buffer_from
                (canonicalRequest req fullUrl canonicalQueryString headersSorted signedHeaders
                   hashedPayload))) in
      let stringToSign :=
        CONST_AUTHORIZATION_TYPE +:+ LF +:+ xFomopayDate +:+ LF +:+ xFomopayNonce +:+ LF +:+ hashedCanonicalRequest in
      Ok {| v_credential := credential; v_signature := signature; v_headersRaw := headersRaw;
            v_nonce := xFomopayNonce; v_dateInst := dateInst; v_reqBody := reqBody;
            v_stringToSign := stringToSign |}
  end.

(** *** The stateful part: lines 419-502 *)

Definition M (A : Type) : Type := World -> Res A * World.

#[local] Instance M_ret : MRet M := fun _ a w => (Ok a, w).
#[local] Instance M_bind : MBind M := fun _ _ k m w =>
  match m w with
  | (Ok a, w') => k a w'
  | (Err e, w') => (Err e, w')
  end.

Definition lift {A} (r : Res A) : M A := fun w => (r, w).
Definition throw {A} (e : Thrown) : M A := lift (Err e).
Definition call (ev : Event) : M unit := fun w => (Ok tt, emit ev w).

(** [try { ... } catch (e) { throw new AuthError(...) }] *)
Definition catchAll {A} (m : M A) (e : Thrown) : M A := fun w =>
  match m w with
  | (Ok a, w') => (Ok a, w')
  | (Err _, w') => (Err e, w')
  end.

Definition idempotentVerb (method : string) : bool :=
  bool_decide (method = "GET") || bool_decide (method = "HEAD").

Definition nonceControllerAdd (e : Env) (service nonce : string) (idempotent : bool) : M bool :=
  fun w =>
    let w1 := emit (NonceControllerAdd service nonce idempotent) w in
    let '(r, c) := NonceController.add e service nonce idempotent (configCache w1) in
    (r, {| configCache := c; dataStorage := dataStorage w1; trace := trace w1 |}).

(** Modelled from the spec: [CommonUtils.assert(condition, ...)], which is
    not among the sources, throws an [Error] when the condition is false. *)
Definition assert (condition : bool) : M unit :=
  if condition then mret tt else throw OtherError.

(** [req.data.set(key, value)] of [HttpRequestData], with the default
    [{ immutable: true }]. *)
Definition dataSet (key : string) (value : HttpAuthenticationPayload) : M unit := fun w =>
  match dataStorage w !! key with
  | Some (_, true) => (Err OtherError, w)
  | _ =>
      (Ok tt, {| configCache := configCache w;
                 dataStorage := Obj.assign key (value, true) (dataStorage w);
                 trace := trace w |})
  end.

Definition authenticate (e : Env) (req : HttpHandlerReq) : M unit :=
  v ← lift (validate req);
  _ ← call (MerchantConfigGet (v_credential v));
  cMerchant ← match merchantConfig_get (v_credential v) with
              | None => throw OtherError
              | Some cMerchant => mret cMerchant
              end;
  cMerchant ← match cMerchant with
              | None => throw (AuthError 0x0017 MerchantNotRegistered)
              | Some cMerchant => mret cMerchant
              end;
  publicKey ← lift (assertString (publicKey cMerchant) (AuthError 0x0017 MerchantKeyInvalid));
  _ ← call (VerifySignature publicKey (v_stringToSign v) (v_signature v));
  verified ← match rsa_verify publicKey (Js.Buffer_from (v_stringToSign v)) (v_signature v) with
             | None => throw OtherError
             | Some b => mret b
             end;
  _ ← lift (guard verified (AuthError 0x0017 SignatureInvalid));
  _ ← lift (guard (negb (300000 <? Z.abs (now e - v_dateInst v)))
              (AuthError 0x0019 TimestampOutOfRange));
  _ ← catchAll
        (let idempotent := idempotentVerb (method req) in
         accepted ← nonceControllerAdd e (v_credential v) (v_nonce v) idempotent;
         assert accepted)
        (AuthError 0x0019 NonceRejected);
  json ← (if 0 <? Js.slength (v_reqBody v) then
            _ ← call JsonParse;
            match JSON_parse (v_reqBody v) with
            | None => throw (AuthError 0x0018 JsonUnparsable)
            | Some j => mret (Some j)
            end
          else mret None);
  _ ← dataSet "httpAuthentication"
        {| pl_merchant := v_credential v; pl_json := json; pl_headers := v_headersRaw v |};
  call Next.

(** The middleware: the outer [try]/[catch]. *)
Definition HttpAuthenticationMiddleware (e : Env) (req : HttpHandlerReq) (w : World) : World :=
  match authenticate e req w with
  | (Ok _, w') => w'
  | (Err (AuthError _ _), w') => emit Status401 w'
  | (Err OtherError, w') => emit NextError w'
  end.

End Middleware.
Arguments World : clear implicits.
Arguments configCache {C Json} w.
Arguments dataStorage {C Json} w.
Arguments trace {C Json} w.
Arguments emit {C Json} ev w.
End HttpAuthentication.

(** The cache after a [set]: the new cache, or the old one when [set]
    throws. *)
Definition afterSet {C : Type} (r : Res C) (c : C) : C :=
  match r with
  | Ok c' => c'
  | Err _ => c
  end.

(** ** A concrete world

    One tenant, [merchant-1], and the collaborators of a deployment reduced
    to what the examples below need: the URL parser knows one URL, the date
    parser two spellings of one instant, the collation is the order of the
    code units, the signature check accepts one signature under the
    tenant's key, and the JSON parser one document. *)

Module Scenario.
Import HttpAuthentication.

Definition dq : string := String (Js.chr 34) "".

Definition chargeBody : string :=
  "{" +:+ dq +:+ "amount" +:+ dq +:+ ":" +:+ dq +:+ "100" +:+ dq +:+ "}".

Definition URL_parse (s : string) : option ParsedUrl :=
  if bool_decide (s = "https://api.example.com/v1/charge")
  then Some {| pathname := "/v1/charge"; searchParams := [] |}
  else None.

Fixpoint localeCompare (a b : string) : Z :=
  match a, b with
  | EmptyString, EmptyString => 0
  | EmptyString, String _ _ => -1
  | String _ _, EmptyString => 1
  | String x a', String y b' =>
      if Js.code x =? Js.code y then localeCompare a' b' else Js.code x - Js.code y
  end.

Definition Date_parse (s : string) : option Z :=
  if bool_decide (s = "2024-01-01T00:00:00Z") || bool_decide (s = "2024-01-01T00:00:00.000Z")
     || bool_decide (s = "2024-01-01T00:00:00.000+00:00")
  then Some 1704067200000 else None.

Definition merchantKey : string := "merchant-1.pem".
Definition goodSignature : string := "5369676e6564".

Definition merchantConfig_get (m : string) : option (option Merchant) :=
  Some (if bool_decide (m = "merchant-1") then Some {| publicKey := Some merchantKey |} else None).

Definition rsa_verify (key message signature : string) : option bool :=
  Some (bool_decide (key = merchantKey) && bool_decide (signature = goodSignature)).

Definition JSON_parse (s : string) : option string :=
  if bool_decide (s = chargeBody) then Some s else None.

Definition signedHeaderNames : string :=
  "content-type;host;x-fomopay-content-sha256;x-fomopay-date;x-fomopay-nonce".

Definition authorizationValue (signedHeaders : string) : string :=
  "FOMOPAY1-RSA-SHA256 Credential=merchant-1,SignedHeaders=" +:+ signedHeaders
  +:+ ",Signature=" +:+ goodSignature.

(** A request that carries the five signed headers and declares
    [signedHeaders] in its Authorization header. *)
Definition requestWith (signedHeaders method nonce date content : string) : HttpHandlerReq :=
  let digest := Sha256.digest_hex content in
  {| headers := list_to_map
       [("host", "api.example.com"); ("content-type", "application/json");
        ("x-fomopay-nonce", nonce); ("x-fomopay-content-sha256", digest);
        ("x-fomopay-date", date); ("authorization", authorizationValue signedHeaders)];
     rawHeaders :=
       ["Host"; "api.example.com"; "Content-Type"; "application/json";
        "X-Fomopay-Nonce"; nonce; "X-Fomopay-Content-Sha256"; digest;
        "X-Fomopay-Date"; date; "Authorization"; authorizationValue signedHeaders];
     fullUrl := "https://api.example.com/v1/charge";
     method := method;
     body := Some content |}.

Definition request : string -> string -> string -> string -> HttpHandlerReq :=
  requestWith signedHeaderNames.

Definition nonce1 : string := "N0ABCDEF0123456789".
Definition date1 : string := "2024-01-01T00:00:00Z".
Definition time1 : Z := 1704067200000.

(** The clock one minute after [date1], and six minutes after it. *)
Definition soon : Env := {| now := time1 + 60000; storeAnswers := true |}.
Definition late : Env := {| now := time1 + 360000; storeAnswers := true |}.

Definition cache0 : Local.ConfigCache Null := Local.create time1 (600 # 1).

Definition world0 : World (Local.ConfigCache Null) string :=
  {| configCache := cache0; dataStorage := ∅; trace := [] |}.

Definition run (e : Env) (req : HttpHandlerReq) (w : World (Local.ConfigCache Null) string)
    : World (Local.ConfigCache Null) string :=
  HttpAuthenticationMiddleware string URL_parse localeCompare Date_parse merchantConfig_get
    rsa_verify JSON_parse e req w.

Definition outcome (e : Env) (req : HttpHandlerReq) (w : World (Local.ConfigCache Null) string)
    : Res unit :=
  (authenticate string URL_parse localeCompare Date_parse merchantConfig_get
     rsa_verify JSON_parse e req w).1.

(** The world in which the next request is handled: the cache is kept, the
    data attached to the request and the trace start empty. *)
Definition nextRequest (w : World (Local.ConfigCache Null) string)
    : World (Local.ConfigCache Null) string :=
  {| configCache := configCache w; dataStorage := ∅; trace := [] |}.

(** A request whose Authorization header does not list [host]. *)
Definition hostUnsigned : HttpHandlerReq :=
  requestWith "content-type;x-fomopay-content-sha256;x-fomopay-date;x-fomopay-nonce"
    "POST" nonce1 date1 chargeBody.

(** A local cache with two entries: [a], stored for one second, and [b],
    stored for the default 600 seconds, both at [time1]. *)
Definition atTime1 : Env := {| now := time1; storeAnswers := true |}.

Definition cacheA : Local.ConfigCache Null :=
  afterSet (Local.set atTime1 "a" (Some null) (Some {| ttl := 1 # 1; absolute := false |}) cache0)
    cache0.

Definition cacheAB : Local.ConfigCache Null :=
  afterSet (Local.set atTime1 "b" (Some null) None cacheA) cacheA.

(** A remote cache and the serialization of [null]. *)
Definition serializeNull (v : Null) : string := "/w8w".
Definition deserializeNull (s : string) : option Null :=
  if bool_decide (s = "/w8w") then Some null else None.

Definition remote0 : Remote.ConfigCache :=
  Remote.create (600 # 1) ∅ "example" "nonce".

Definition remote1 : Remote.ConfigCache :=
  afterSet (Remote.set serializeNull atTime1 "k" (Some null) None remote0) remote0.

End Scenario.

(** ** Auxiliary definitions for the statements *)

(** The local cache after [set(key, null)] with the default TTL at [e]. *)
Definition Local_stored (e : Env) (key : string) (c : Local.ConfigCache Null)
    : Local.ConfigCache Null :=
  {| Local.optTtlMs := Local.optTtlMs c;
     Local.dataData :=
       <[key := {| Local.exp := Local.optTtlMs c + now e; Local.value := null |}]>
         (Local.dataData c);
     Local.wakeAt :=
       now e + Local.interval (now e)
                 (<[key := {| Local.exp := Local.optTtlMs c + now e;
                              Local.value := null |}]> (Local.dataData c)) |}.

(** The names listed by the [SignedHeaders] field of the Authorization
    header, when the header can be read (lines 107-199). *)
Definition declaredSignedHeaders (req : HttpAuthentication.HttpHandlerReq) : Res (list string) :=
  creds ← HttpAuthentication.parseAuthorization req;
  '(_, signedHeaders, _) ← HttpAuthentication.parseCredentialFields creds;
  Ok (Js.split ";" signedHeaders).

(** The code that each failure path passes to [AuthError], read off the
    [throw] statements. *)
Definition errorCode (f : Failure) : Z :=
  match f with
  | AuthorizationNotFound => 0x0001
  | CannotSplitAuthorization => 0x0003
  | UnsupportedAuthorizationType => 0x0004
  | InvalidCredentialsFormat => 0x0005
  | CredentialKeyTooShort => 0x0006
  | DuplicateCredentialKey => 0x0007
  | UnexpectedCredentialKeys => 0x0008
  | DuplicateSignedHeader => 0x0009
  | InvalidHeaderKey => 0x0010
  | CompulsoryHeaderNotSigned => 0x0010
  | DuplicateHttpHeader => 0x0010
  | SignedHeaderNotFound => 0x0011
  | SignedHeadersNotFormatted => 0x0012
  | NonceNotFound => 0x0013
  | NonceInvalid => 0x0014
  | ContentSha256NotFound => 0x0015
  | PayloadHashMismatch => 0x0016
  | DateNotFound => 0x0013
  | DateInvalid => 0x0014
  | DateFormatBasic => 0x0015
  | DateFormatFull => 0x0016
  | MerchantNotRegistered => 0x0017
  | MerchantKeyInvalid => 0x0017
  | SignatureInvalid => 0x0017
  | TimestampOutOfRange => 0x0019
  | NonceRejected => 0x0019
  | JsonUnparsable => 0x0018
  end.

(** An exception respects the table when it is an [AuthError] whose code is
    the one of its failure path. *)
Definition coded (err : Thrown) : Prop :=
  match err with
  | AuthError c f => c = errorCode f
  | OtherError => True
  end.

(** All the failure paths, and those that carry a given code. *)
Definition allFailures : list Failure :=
  [AuthorizationNotFound; CannotSplitAuthorization; UnsupportedAuthorizationType;
   InvalidCredentialsFormat; CredentialKeyTooShort; DuplicateCredentialKey;
   UnexpectedCredentialKeys; DuplicateSignedHeader; InvalidHeaderKey;
   CompulsoryHeaderNotSigned; DuplicateHttpHeader; SignedHeaderNotFound;
   SignedHeadersNotFormatted; NonceNotFound; NonceInvalid; ContentSha256NotFound;
   PayloadHashMismatch; DateNotFound; DateInvalid; DateFormatBasic; DateFormatFull;
   MerchantNotRegistered; MerchantKeyInvalid; SignatureInvalid; TimestampOutOfRange;
   NonceRejected; JsonUnparsable].

Definition pathsWithCode (c : Z) : list Failure :=
  List.filter (fun f => errorCode f =? c) allFailures.

Definition isNonceControllerAdd (ev : HttpAuthentication.Event) : bool :=
  match ev with
  | HttpAuthentication.NonceControllerAdd _ _ _ => true
  | _ => false
  end.

Definition isVerifySignature (ev : HttpAuthentication.Event) : bool :=
  match ev with
  | HttpAuthentication.VerifySignature _ _ _ => true
  | _ => false
  end.

(** The checks that precede the replay check: validation of the headers,
    the payload digest and the date, the tenant's key, the signature and the
    freshness of the timestamp.  The result is the validated request when
    they all pass. *)
Section BeforeReplay.
Import HttpAuthentication.
Variable URL_parse : string -> option ParsedUrl.
Variable localeCompare : string -> string -> Z.
Variable Date_parse : string -> option Z.
Variable merchantConfig_get : string -> option (option Merchant).
Variable rsa_verify : string -> string -> string -> option bool.

Definition checkedBeforeReplay (e : Env) (req : HttpHandlerReq) : option Validated :=
  match validate URL_parse localeCompare Date_parse req with
  | Err _ => None
  | Ok v =>
      match merchantConfig_get (v_credential v) with
      | Some (Some {| publicKey := Some key |}) =>
          match rsa_verify key (Js.Buffer_from (v_stringToSign v)) (v_signature v) with
          | Some true => if Z.abs (now e - v_dateInst v) <=? 300000 then Some v else None
          | _ => None
          end
      | _ => None
      end
  end.

End BeforeReplay.

(** The remote cache after [set(key, null)] has written an entry that
    lives [seconds] seconds from [e]. *)
Definition Remote_stored (serialize : Null -> string) (e : Env) (key : string) (seconds : Z)
    (c : Remote.ConfigCache) : Remote.ConfigCache :=
  Remote.with_client c
    (<[Remote.generateKey c key :=
         {| Redis.payload := serialize null; Redis.expireAt := now e + 1000 * seconds |}]>
       (Remote.optRedisClient c)).

(** The store holds an entry for the key that can be read at [e]: it has
    not expired and its payload deserializes. *)
Definition Remote_readable {V} (deserialize : string -> option V) (e : Env) (key : string)
    (c : Remote.ConfigCache) : bool :=
  match Remote.optRedisClient c !! Remote.generateKey c key with
  | Some en =>
      (now e <=? Redis.expireAt en) && bool_decide (is_Some (deserialize (Redis.payload en)))
  | None => false
  end.

(** The expiration, in seconds, that the remote [set] computes. *)
Definition Remote_expiration (e : Env) (options : option IConfigCacheAddOptions)
    (c : Remote.ConfigCache) : Q :=
  match options with
  | None => Remote.optTtl c
  | Some o =>
      if absolute o
      then inject_Z (Math_round (Double.fl (ttl o - Double.fl (inject_Z (now e) / 1000))))
      else inject_Z (Math_round (ttl o))
  end.

(** The three ways in which the middleware ends a request: [next()], the
    401 response and [next(e)]. *)
Definition isResponse (ev : HttpAuthentication.Event) : bool :=
  match ev with
  | HttpAuthentication.Next | HttpAuthentication.NextError | HttpAuthentication.Status401 => true
  | _ => false
  end.

(** A string in which the character [sep] does not occur. *)
Definition free (sep : ascii) (x : string) : Prop :=
  Js.all (fun c => negb (c =? Js.code sep)) x = true.

(** The entry [(k, v)] comes from a raw header: some name of the list
    [raw] (name, value, name, value, ...) is [k] in lower case, and [v] is
    its value, trimmed. *)
Definition fromRaw (raw : list string) (k v : string) : Prop :=
  exists (i : nat) (name value : string),
    raw !! (2 * i)%nat = Some name /\ raw !! S (2 * i) = Some value
    /\ Js.toLowerCase name = k /\ v = Js.trim value.

(** The characters that [fixedEncodeURIComponent] is meant to leave in its
    result: [A-Z a-z 0-9 - _ . ~], and the [%] of the escapes. *)
Definition unreservedChar (c : Z) : bool := Js.isAlnum c || Js.mem c [45; 95; 46; 126].
Definition encodedChar (c : Z) : bool := unreservedChar c || (c =? 37).
Definition encoded (s : string) : Prop := Js.all encodedChar s = true.

(** A well-formed string of code units: every unit is in range, and the
    surrogates come in pairs, a high one followed by a low one. *)
Fixpoint wellFormed (s : list Z) : bool :=
  match s with
  | [] => true
  | c :: r =>
      if Js.isHighSurrogate c then
        match r with
        | d :: r' => Js.isLowSurrogate d && wellFormed r'
        | [] => false
        end
      else Js.between 0 65535 c && negb (Js.isLowSurrogate c) && wellFormed r
  end.

(** A pair of encoded strings, and the order in which the canonical query
    string lists two such pairs: by key, then by value. *)
Definition encodedPair (x : string * string) : Prop := encoded x.1 /\ encoded x.2.

Definition precedes (localeCompare : string -> string -> Z) (x y : string * string) : Prop :=
  encodedPair x /\ encodedPair y
  /\ (let keyCompare := localeCompare x.1 y.1 in
      if negb (keyCompare =? 0) then keyCompare else localeCompare x.2 y.2) <= 0.

(** ** HttpRequestData (HttpHandler.ts, lines 35-73)

    The data attached to a request: [dataStorage] maps a key to the value
    and the [immutable] flag of its options. *)

Module HttpRequestData.
Section HttpRequestData.
Context {A : Type}.

Record Options : Type := { immutable : bool }.

Definition set (key : string) (value : A) (options : option Options)
    (dataStorage : gmap string (A * bool)) : Res (gmap string (A * bool)) :=
  let options := default {| immutable := true |} options in
  let frozen :=
    Obj.objectHasKey dataStorage key
    && match dataStorage !! key with
       | Some (_, flag) => flag
       | None => false
       end in
  if frozen then Err OtherError
  else Ok (Obj.assign key (value, immutable options) dataStorage).

Definition get (key : string) (dataStorage : gmap string (A * bool)) : Res A :=
  if negb (Obj.objectHasKey dataStorage key) then Err OtherError
  else match dataStorage !! key with
       | Some (value, _) => Ok value
       | None => Err OtherError
       end.

(** A sequence of calls of [set], each of which may throw; a call that
    throws leaves the storage as it was. *)
Definition sets (calls : list (string * A * option Options))
    (dataStorage : gmap string (A * bool)) : gmap string (A * bool) :=
  fold_left (fun d call => afterSet (set call.1.1 call.1.2 call.2 d) d) calls dataStorage.

End HttpRequestData.
End HttpRequestData.

(** ** Xchange.requestWithRetry (Xchange.ts, lines 237-287)

    The exceptions of [request] are told apart as the loop does: a
    [FetchError] with its [type] and its [code], or anything else. *)

Module Xchange.

Inductive Exception : Type :=
| FetchError (type : string) (code : option string)
| Other (message : string).

Inductive Thrown : Type :=
| Rethrown (e : Exception)         (* [throw e] *)
| AssertionFailed                  (* [CommonUtils.assert(tries > 0, ...)] *)
| TooManyFails.                    (* the [Error] after the loop *)

(** The cases of the two [switch] statements that end in [continue]. *)
Definition retried (e : Exception) : bool :=
  match e with
  | FetchError type code =>
      bool_decide (type ∈ ["body-timeout"; "request-timeout"])
      || match code with
         | Some code =>
             bool_decide (code ∈ ["ETIMEDOUT"; "ECONNRESET"; "ESOCKETTIMEDOUT";
                                  "ECONNABORTED"; "ECONNREFUSED"])
         | None => false
         end
  | Other _ => false
  end.

Section Retry.
Context {D : Type}.
(** [request i] is the outcome of the call of [this.request(url, json)]
    made at the turn [i] of the loop. *)
Variable request : nat -> Exception + D.

(** The turns [i], [i + 1], ... of the loop, [turns] of them at most; the
    result comes with the number of calls of [request] made so far. *)
Fixpoint loop (turns i : nat) : (Thrown + D) * nat :=
  match turns with
  | O => (inl TooManyFails, i)
  | S turns' =>
      match request i with
      | inr data => (inr data, S i)
      | inl e => if retried e then loop turns' (S i) else (inl (Rethrown e), S i)
      end
  end.

(** [tries] is a number; the turns are the integers [i >= 0] with
    [i < tries]. *)
Definition requestWithRetry (tries : Q) : (Thrown + D) * nat :=
  if Qle_bool tries 0 then (inl AssertionFailed, O)
  else loop (Z.to_nat (Qceiling tries)) O.

Definition normalize : (Thrown + D) * nat := requestWithRetry 3.
Definition convert : (Thrown + D) * nat := requestWithRetry 3.

End Retry.
End Xchange.

(** ** MerchantConfig (MerchantConfig.ts)

    [merchant] is a string.  [db merchant] is what the database answers to
    the query of lines 53-72 ([None]: getting the connection, the
    transaction, the query, the commit or the release throws), and
    [readRow] the conversion of the row into the configuration of lines
    79-84 ([None]: one of its assertions throws).  The state holds the cache
    of the instance and the merchants for which the database was consulted;
    the [finally] block, which gives the connection up, changes neither.  A
    call is taken to happen at one instant of the clock. *)

Module MerchantConfig.
Section MerchantConfig.
Context {Row Config : Type}.
Variable readRow : Row -> option Config.

Record State : Type := {
  dataConfigCache : Local.ConfigCache (option Config);   (* [null] is [None] *)
  queried : list string
}.

(** [new ConfigCache({ ttl: 60 })], which is a local cache. *)
Definition create (t : Z) : State :=
  {| dataConfigCache := Local.create t (60 # 1); queried := [] |}.

Definition store (e : Env) (merchant : string) (value : option Config) (s : State)
    : Res (option Config) * State :=
  match cache_set e merchant (Some value) None (dataConfigCache s) with
  | Ok c => (Ok value, {| dataConfigCache := c; queried := queried s |})
  | Err err => (Err err, s)
  end.

Definition get (db : string -> option (list Row)) (e : Env) (merchant : string) (s : State)
    : Res (option Config) * State :=
  match cache_get e merchant (dataConfigCache s) with
  | Some cacheLookup => (Ok cacheLookup, s)
  | None =>
      let s1 := {| dataConfigCache := dataConfigCache s; queried := queried s ++ [merchant] |} in
      match db merchant with
      | None => (Err OtherError, s1)
      | Some rows =>
          match rows with
          | [row] =>
              match readRow row with
              | Some dbLookup => store e merchant (Some dbLookup) s1
              | None => (Err OtherError, s1)
              end
          | _ => store e merchant None s1
          end
      end
  end.

(** The state once the waiter of the cache has been given the chance to
    run at the instant [t]. *)
Definition wake (t : Z) (s : State) : State :=
  {| dataConfigCache := Local.wake t (dataConfigCache s); queried := queried s |}.

End MerchantConfig.
End MerchantConfig.

(** ** CancelableTimer (CancelableTimer.ts)

    The timer and what it has asked of the platform: the timeouts that are
    armed (set, and neither cleared nor fired), the callbacks queued with
    [setImmediate], and the calls of [resolve] and [reject] made so far.  A
    promise is known by its number; [dataResolve] and [dataReject] hold the
    number of the promise whose functions they are. *)

Module CancelableTimer.

Inductive Settled : Type :=
| Resolved (promise : nat)
| Rejected (promise : nat).

Definition promise (s : Settled) : nat :=
  match s with
  | Resolved p | Rejected p => p
  end.

Record State : Type := {
  dataActive : bool;
  dataTimer : option nat;
  dataResolve : option nat;
  dataReject : option nat;
  timeouts : list nat;
  immediates : nat;
  promises : nat;          (* the promises created so far *)
  handles : nat;           (* the timeouts set so far *)
  settled : list Settled
}.

Definition create : State :=
  {| dataActive := false; dataTimer := None; dataResolve := None; dataReject := None;
     timeouts := []; immediates := 0; promises := 0; handles := 0; settled := [] |}.

Definition clearTimeout (h : nat) (s : State) : State :=
  {| dataActive := dataActive s; dataTimer := dataTimer s; dataResolve := dataResolve s;
     dataReject := dataReject s; timeouts := List.filter (fun h' => negb (h' =? h)%nat) (timeouts s);
     immediates := immediates s; promises := promises s; handles := handles s;
     settled := settled s |}.

Definition settle (r : Settled) (s : State) : State :=
  {| dataActive := dataActive s; dataTimer := dataTimer s; dataResolve := dataResolve s;
     dataReject := dataReject s; timeouts := timeouts s; immediates := immediates s;
     promises := promises s; handles := handles s; settled := settled s ++ [r] |}.

(** [done(err)]; [err] tells whether an error is given.  The [finally]
    block runs in every case. *)
Definition done (err : bool) (s : State) : State :=
  let s1 :=
    if negb (dataActive s) then s
    else
      let s' := match dataTimer s with
                | Some h => clearTimeout h s
                | None => s
                end in
      if err then
        match dataReject s' with
        | Some p => settle (Rejected p) s'
        | None => s'
        end
      else
        match dataResolve s' with
        | Some p => settle (Resolved p) s'
        | None => s'
        end in
  {| dataActive := false; dataTimer := None; dataResolve := None; dataReject := None;
     timeouts := timeouts s1; immediates := immediates s1; promises := promises s1;
     handles := handles s1; settled := settled s1 |}.

(** [delay(ms)]: [None] when it throws; otherwise the number of the
    promise returned and the state. *)
Definition delay (ms : Z) (s : State) : option (nat * State) :=
  if dataActive s then None
  else
    let p := promises s in
    if ms <? 0 then
      Some (p, {| dataActive := true; dataTimer := dataTimer s; dataResolve := Some p;
                  dataReject := Some p; timeouts := timeouts s;
                  immediates := S (immediates s); promises := S p; handles := handles s;
                  settled := settled s |})
    else
      let h := handles s in
      Some (p, {| dataActive := true; dataTimer := Some h; dataResolve := Some p;
                  dataReject := Some p; timeouts := timeouts s ++ [h];
                  immediates := immediates s; promises := S p; handles := S h;
                  settled := settled s |}).

Definition cancel (s : State) : State := done true s.

(** What the platform does: an armed timeout fires, a queued immediate
    callback runs; each calls [this.done()]. *)
Definition fireTimeout (h : nat) (s : State) : State :=
  if bool_decide (h ∈ timeouts s) then done false (clearTimeout h s) else s.

Definition runImmediate (s : State) : State :=
  match immediates s with
  | O => s
  | S n =>
      done false
        {| dataActive := dataActive s; dataTimer := dataTimer s; dataResolve := dataResolve s;
           dataReject := dataReject s; timeouts := timeouts s; immediates := n;
           promises := promises s; handles := handles s; settled := settled s |}
  end.

(** The calls made on a timer and the events of the platform, in some
    order; a [delay] that throws leaves the state as it was.  The loop of
    the local cache calls [delay] with delays that are not negative. *)
Inductive Op : Type :=
| Delay (ms : Z)
| Cancel
| Timeout (h : nat)
| Immediate.

Definition step (s : State) (op : Op) : State :=
  match op with
  | Delay ms => match delay ms s with
                | Some (_, s') => s'
                | None => s
                end
  | Cancel => cancel s
  | Timeout h => fireTimeout h s
  | Immediate => runImmediate s
  end.

Definition run (ops : list Op) : State := fold_left step ops create.

Definition notNegative (op : Op) : Prop :=
  match op with
  | Delay ms => 0 <= ms
  | _ => True
  end.

(** What holds of a timer after any calls and events: a promise is settled
    once at most; one timeout is armed at most, the one that [dataTimer]
    holds; while
    a delay is in progress its promise is pending; otherwise the fields are
    reset. *)
Definition invariant (s : State) : Prop :=
  NoDup (map promise (settled s))
  /\ Forall (fun r => (promise r < promises s)%nat) (settled s)
  /\ (forall h, h ∈ timeouts s -> dataTimer s = Some h)
  /\ (length (timeouts s) <= 1)%nat
  /\ (if dataActive s then
        exists p, dataResolve s = Some p /\ dataReject s = Some p
                  /\ (p < promises s)%nat /\ p ∉ map promise (settled s)
      else dataTimer s = None /\ dataResolve s = None /\ dataReject s = None).

End CancelableTimer.

(** ** Further concrete inputs *)

Module Cases.
Import HttpAuthentication.

(** The clock at [time1] while the store does not answer. *)
Definition outage : Env := {| now := Scenario.time1; storeAnswers := false |}.

(** The signed request of the scenario, and the same request with a second
    [host] header. *)
Definition charge : HttpHandlerReq :=
  Scenario.request "POST" Scenario.nonce1 Scenario.date1 Scenario.chargeBody.

Definition duplicateHost : HttpHandlerReq :=
  {| headers := headers charge;
     rawHeaders := (rawHeaders charge ++ ["host"; "other.example.com"])%list;
     fullUrl := fullUrl charge;
     method := method charge;
     body := body charge |}.

(** The world in which [charge] comes back after it has been handled at
    [soon], the waiter having had the chance to run in between. *)
Definition replayed : World (Local.ConfigCache Null) string :=
  {| configCache :=
       Local.wake (now Scenario.soon)
         (configCache
            (authenticate string Scenario.URL_parse Scenario.localeCompare Scenario.Date_parse
               Scenario.merchantConfig_get Scenario.rsa_verify Scenario.JSON_parse
               Scenario.soon charge Scenario.world0).2);
     dataStorage := ∅;
     trace := [] |}.

(** The remote cache in which the pair of the scenario has been accepted
    at [time1], and a remote cache whose default TTL is one second and a
    half. *)
Definition remoteAccepted : Remote.ConfigCache :=
  (@NonceController.add _ (Remote.impl Scenario.serializeNull Scenario.deserializeNull)
     Scenario.atTime1 "merchant-1" Scenario.nonce1 false Scenario.remote0).2.

Definition remoteFraction : Remote.ConfigCache :=
  Remote.create (3 # 2) ∅ "example" "nonce".

(** An instant given in seconds with a fraction, as the double nearest to
    it, and a clock three and a half seconds before it. *)
Definition instant : Q := Double.fl (1704067723001 # 1000).
Definition midSecond : Env := {| now := 1704067719501; storeAnswers := true |}.

(** [charge] with its raw headers in another order, their names in another
    case, and blanks around one value. *)
Definition reordered : HttpHandlerReq :=
  {| headers := headers charge;
     rawHeaders :=
       ["x-fomopay-date"; Scenario.date1;
        "AUTHORIZATION"; Scenario.authorizationValue Scenario.signedHeaderNames;
        "content-type"; " application/json ";
        "HOST"; "api.example.com";
        "X-FOMOPAY-CONTENT-SHA256"; Sha256.digest_hex Scenario.chargeBody;
        "x-fomopay-nonce"; Scenario.nonce1];
     fullUrl := fullUrl charge;
     method := method charge;
     body := body charge |}.

Definition credentials : string :=
  "Credential=merchant-1,SignedHeaders=host,Signature=5369676e6564".

(** Two timeouts, then an answer. *)
Definition attempts (i : nat) : Xchange.Exception + string :=
  match i with
  | O => inl (Xchange.FetchError "request-timeout" None)
  | S O => inl (Xchange.FetchError "system" (Some "ECONNRESET"))
  | _ => inr "rates"
  end.

(** A database that knows one merchant; a row is the merchant's key. *)
Definition merchantRows (merchant : string) : option (list string) :=
  Some (if bool_decide (merchant = "merchant-1") then [Scenario.merchantKey] else []).

End Cases.

(** * Properties *)

(** ** Examples: the embedded functions on concrete inputs *)

Example encodeURIComponent_ex1 :
  Js.encodeURIComponent "merchant-1/a b" = "merchant-1%2Fa%20b".
Proof. reflexivity. Qed.

Example encodeURIComponent_ex2 :
  Js.encodeURIComponent (String (Js.chr 233) "!") = "%C3%A9!".
Proof. reflexivity. Qed.

Example encodeUnits_ex :
  Js.encodeUnits [55357; 56832; 47] = Some "%F0%9F%98%80%2F"
  /\ Js.encodeUnits [8364] = Some "%E2%82%AC"
  /\ Js.encodeUnits [55357] = None /\ Js.encodeUnits [56832; 55357] = None.
Proof. repeat split; reflexivity. Qed.

Example canonicalQueryString_ex :
  HttpAuthentication.canonicalQueryString Scenario.localeCompare
    [([98], [50; 42]); ([97], [8364; 55357; 56832])]
  = Some "a=%E2%82%AC%F0%9F%98%80&b=2%2a"
  /\ HttpAuthentication.canonicalQueryString Scenario.localeCompare [([97], [55357])] = None.
Proof. split; reflexivity. Qed.

Example splitRest_ex :
  Js.splitRest Js.isSpace "FOMOPAY1-RSA-SHA256 Credential=a, b" =
  Some ("FOMOPAY1-RSA-SHA256", "Credential=a, b").
Proof. reflexivity. Qed.

Example split_ex : Js.split ";" "a;b;;c" = ["a"; "b"; ""; "c"].
Proof. reflexivity. Qed.

Example trim_ex : Js.trim "  a b  " = "a b".
Proof. reflexivity. Qed.

Example Math_round_half : Math_round (1 # 2) = 1 /\ Math_round (-1 # 2) = 0 /\ Math_round (49 # 100) = 0.
Proof. repeat split; reflexivity. Qed.

Example sha256_constants :
  head Sha256.K = Some 0x428a2f98 /\ last Sha256.K = Some 0xc67178f2
  /\ head Sha256.H0 = Some 0x6a09e667 /\ last Sha256.H0 = Some 0x5be0cd19
  /\ length Sha256.K = 64%nat.
Proof. vm_compute. repeat split; reflexivity. Qed.

Example sha256_abc :
  Sha256.digest_hex "abc" = "ba7816bf8f01cfea414140de5dae2223b00361a396177a9cb410ff61f20015ad".
Proof. vm_compute. reflexivity. Qed.

Example getIso8601Time_ex :
  HttpAuthentication.getIso8601Time 1704067200000 = "2024-01-01T00:00:00Z"
  /\ Date.toISOString 1704067200123 = "2024-01-01T00:00:00.123Z"
  /\ Date.toISOString (-62198755200000) = "-000001-01-01T00:00:00.000Z".
Proof. vm_compute. repeat split; reflexivity. Qed.

Example CONST_ISO8601_REGEX_ex :
  map HttpAuthentication.CONST_ISO8601_REGEX
    ["2024-01-01T00:00:00Z"; "2024-01-01T00:00:00.000Z"; "2024-01-01T00:00:00";
     "2024-13-01T00:00:00Z"; "02024-01-01T00:00:00Z"; "2024-01-01T00:00:00+00:00"]
  = [Some false; Some true; Some false; None; None; None].
Proof. vm_compute. reflexivity. Qed.

Example accepted_request :
  Scenario.outcome Scenario.soon
    (Scenario.request "POST" Scenario.nonce1 Scenario.date1 Scenario.chargeBody)
    Scenario.world0 = Ok tt.
Proof. vm_compute. reflexivity. Qed.

(** ** Doubles *)

Section DoubleFacts.
Import Double.
Local Open Scope Q_scope.

Lemma pow2_pos (k : Z) : 0 < pow2 k.
Proof. apply Qpower_0_lt. reflexivity. Qed.

Lemma pow2_plus (a b : Z) : pow2 (a + b) == pow2 a * pow2 b.
Proof. apply Qpower_plus. discriminate. Qed.

Lemma pow2_le (a b : Z) : (a <= b)%Z -> pow2 a <= pow2 b.
Proof. intros H. apply Qpower_le_compat_l; [exact H | discriminate]. Qed.

Lemma pow2_lt_inv (a b : Z) : pow2 a < pow2 b -> (a < b)%Z.
Proof. intros H. apply (Qpower_lt_compat_l_inv 2); [exact H | reflexivity]. Qed.

Lemma pow2_Z (k : Z) : (0 <= k)%Z -> pow2 k == inject_Z (2 ^ k).
Proof. intros H. unfold pow2. rewrite Zpower_Qpower by exact H. reflexivity. Qed.

Lemma roundEven_nearest (x : Q) : nearestEven x (roundEven x).
Proof.
  unfold roundEven, nearestEven.
  pose proof (Qfloor_le x) as Lo. pose proof (Qlt_floor x) as Hi.
  rewrite inject_Z_plus in Hi. change (inject_Z 1) with 1 in Hi.
  set (f := Qfloor x) in *.
  destruct (Qcompare_spec (x - inject_Z f) (1 # 2)) as [E|L|G].
  - assert (Ex : x == inject_Z f + (1 # 2)) by lra.
    destruct (Z.even f) eqn:Ev.
    + split; [lra |]. split; [lra |]. intros _. exact Ev.
    + rewrite inject_Z_plus. change (inject_Z 1) with 1.
      split; [lra |]. split; [lra |]. intros _.
      rewrite Z.add_1_r, Z.even_succ, <- Z.negb_even, Ev. reflexivity.
  - split; [lra |]. split; [lra |]. intros [A|A]; lra.
  - rewrite inject_Z_plus. change (inject_Z 1) with 1.
    split; [lra |]. split; [lra |]. intros [A|A]; lra.
Qed.

Lemma inject_Z_le_1 (n m : Z) : inject_Z n <= inject_Z m + 1 -> (n <= m + 1)%Z.
Proof.
  intros H. rewrite Zle_Qle, inject_Z_plus. exact H.
Qed.

Lemma nearestEven_unique (x : Q) (n m : Z) : nearestEven x n -> nearestEven x m -> n = m.
Proof.
  intros (N1 & N2 & N3) (M1 & M2 & M3).
  assert (A : (n <= m + 1)%Z) by (apply inject_Z_le_1; lra).
  assert (B : (m <= n + 1)%Z) by (apply inject_Z_le_1; lra).
  destruct (Z.eq_dec n m) as [E|Ne]; [exact E | exfalso].
  destruct (Z.eq_dec n (m + 1)%Z) as [E1|Ne1].
  - subst n. rewrite inject_Z_plus in N1, N2, N3. change (inject_Z 1) with 1 in *.
    assert (Ex : x == inject_Z m + (1 # 2)) by lra.
    assert (E1 : Z.even (m + 1) = true) by (apply N3; left; lra).
    assert (E2 : Z.even m = true) by (apply M3; right; exact Ex).
    rewrite Z.add_1_r, Z.even_succ, <- Z.negb_even, E2 in E1. discriminate E1.
  - assert (E2 : m = (n + 1)%Z) by lia. subst m.
    rewrite inject_Z_plus in M1, M2, M3. change (inject_Z 1) with 1 in *.
    assert (Ex : x == inject_Z n + (1 # 2)) by lra.
    assert (E1 : Z.even (n + 1) = true) by (apply M3; left; lra).
    assert (E3 : Z.even n = true) by (apply N3; right; exact Ex).
    rewrite Z.add_1_r, Z.even_succ, <- Z.negb_even, E3 in E1. discriminate E1.
Qed.

Lemma nearestEven_comp (x y : Q) (n : Z) : x == y -> nearestEven x n -> nearestEven y n.
Proof.
  intros E (N1 & N2 & N3). split; [lra |]. split; [lra |].
  intros [A|A]; apply N3; [left | right]; lra.
Qed.

Lemma roundEven_comp (x y : Q) : x == y -> roundEven x = roundEven y.
Proof.
  intros E. apply (nearestEven_unique y); [| apply roundEven_nearest].
  apply (nearestEven_comp x); [exact E | apply roundEven_nearest].
Qed.

Lemma roundEven_Z (n : Z) : roundEven (inject_Z n) = n.
Proof.
  apply (nearestEven_unique (inject_Z n)); [apply roundEven_nearest |].
  split; [lra |]. split; [lra |]. intros [A|A]; lra.
Qed.

Lemma roundEven_opp (x : Q) : roundEven (- x) = (- roundEven x)%Z.
Proof.
  apply (nearestEven_unique (- x)); [apply roundEven_nearest |].
  destruct (roundEven_nearest x) as (N1 & N2 & N3).
  unfold nearestEven. rewrite inject_Z_opp. split; [lra |]. split; [lra |].
  intros A. rewrite Z.even_opp. apply N3. destruct A as [A|A]; [right | left]; lra.
Qed.

Lemma roundEven_mono (x y : Q) : x <= y -> (roundEven x <= roundEven y)%Z.
Proof.
  intros L.
  destruct (roundEven_nearest x) as (N1 & N2 & N3).
  destruct (roundEven_nearest y) as (M1 & M2 & M3).
  destruct (Z_le_gt_dec (roundEven x) (roundEven y)) as [?|G]; [assumption | exfalso].
  assert (A : (roundEven x <= roundEven y + 1)%Z) by (apply inject_Z_le_1; lra).
  assert (E : roundEven x = (roundEven y + 1)%Z) by lia.
  rewrite E, inject_Z_plus in N1. change (inject_Z 1) with 1 in N1.
  assert (Exy : x == y) by lra.
  apply roundEven_comp in Exy. lia.
Qed.


Lemma pow2_minus (a b : Z) : pow2 (a - b) == pow2 a / pow2 b.
Proof.
  unfold Z.sub. rewrite pow2_plus. unfold pow2 at 2. rewrite Qpower_opp. reflexivity.
Qed.

Lemma pow2_succ (k : Z) : pow2 (k + 1) == 2 * pow2 k.
Proof. rewrite pow2_plus. change (pow2 1) with 2. ring. Qed.

(** The two quotients that bracket a fraction. *)
Lemma ilog2_bracket (n : Z) (d : positive) :
  (0 < n)%Z ->
  let k := (Z.log2 n - Z.log2 (Zpos d))%Z in
  pow2 (k - 1) <= n # d /\ n # d < pow2 (k + 1).
Proof.
  intros Hn k. subst k.
  destruct (Z.log2_spec n Hn) as [A1 A2].
  destruct (Z.log2_spec (Zpos d) (Pos2Z.is_pos d)) as [B1 B2].
  pose proof (Z.log2_nonneg n) as Ha. pose proof (Z.log2_nonneg (Zpos d)) as Hb.
  set (a := Z.log2 n) in *. set (b := Z.log2 (Zpos d)) in *.
  rewrite Z.pow_succ_r in A2, B2 by assumption.
  assert (Pa : (0 < 2 ^ a)%Z) by (apply Z.pow_pos_nonneg; lia).
  assert (Pb : (0 < 2 ^ b)%Z) by (apply Z.pow_pos_nonneg; lia).
  assert (E1 : pow2 (a - b - 1) == inject_Z (2 ^ a) / inject_Z (2 * 2 ^ b)).
  { replace (a - b - 1)%Z with (a - (b + 1))%Z by ring.
    rewrite pow2_minus, pow2_succ, !pow2_Z by assumption.
    rewrite inject_Z_mult. reflexivity. }
  assert (Pb' : 0 < inject_Z (2 ^ b)).
  { change 0 with (inject_Z 0). rewrite <- Zlt_Qlt. exact Pb. }
  assert (E2 : pow2 (a - b + 1) == inject_Z (2 * 2 ^ a) / inject_Z (2 ^ b)).
  { rewrite pow2_succ, pow2_minus, !pow2_Z by assumption.
    rewrite inject_Z_mult. change (inject_Z 2) with 2. field.
    intros Z0. rewrite Z0 in Pb'. discriminate Pb'. }
  rewrite E1, E2, (Qmake_Qdiv n d).
  assert (Pd : 0 < inject_Z (Zpos d)) by reflexivity.
  assert (Pb2 : 0 < inject_Z (2 * 2 ^ b)).
  { change 0 with (inject_Z 0). rewrite <- Zlt_Qlt. lia. }
  split.
  - apply Qle_shift_div_r; [exact Pb2 |].
    setoid_replace (inject_Z n / inject_Z (Z.pos d) * inject_Z (2 * 2 ^ b))
      with (inject_Z n * inject_Z (2 * 2 ^ b) / inject_Z (Z.pos d)) using relation Qeq
      by (field; intros Z0; rewrite Z0 in Pd; discriminate Pd).
    apply Qle_shift_div_l; [exact Pd |].
    rewrite <- !inject_Z_mult, <- Zle_Qle. nia.
  - apply Qlt_shift_div_r; [exact Pd |].
    setoid_replace (inject_Z (2 * 2 ^ a) / inject_Z (2 ^ b) * inject_Z (Z.pos d))
      with (inject_Z (2 * 2 ^ a) * inject_Z (Z.pos d) / inject_Z (2 ^ b)) using relation Qeq
      by (field; intros Z0; rewrite Z0 in Pb'; discriminate Pb').
    apply Qlt_shift_div_l; [exact Pb' |].
    rewrite <- !inject_Z_mult, <- Zlt_Qlt. nia.
Qed.

Lemma ilog2_spec (x : Q) :
  ~ x == 0 -> pow2 (ilog2 x) <= Qabs x /\ Qabs x < pow2 (ilog2 x + 1).
Proof.
  intros Hx. destruct x as [n d]. unfold ilog2. cbn [Qnum Qden].
  assert (Hn : (0 < Z.abs n)%Z).
  { assert (n <> 0%Z); [| lia]. intros ->. apply Hx. reflexivity. }
  destruct (ilog2_bracket (Z.abs n) d Hn) as [Lo Hi].
  change (Qabs (n # d)) with (Z.abs n # d).
  set (k := (Z.log2 (Z.abs n) - Z.log2 (Z.pos d))%Z) in *.
  destruct (Qle_bool (pow2 k) (Z.abs n # d)) eqn:T.
  - apply Qle_bool_iff in T. split; assumption.
  - split; [exact Lo |]. replace (k - 1 + 1)%Z with k by ring.
    apply Qnot_le_lt. intros L. apply Qle_bool_iff in L. congruence.
Qed.

Lemma ilog2_unique (x : Q) (k : Z) :
  pow2 k <= Qabs x -> Qabs x < pow2 (k + 1) -> ilog2 x = k.
Proof.
  intros Lo Hi.
  assert (Hx : ~ x == 0).
  { intros E. rewrite E in Lo. pose proof (pow2_pos k). change (Qabs 0) with 0 in Lo. lra. }
  destruct (ilog2_spec x Hx) as [Lo' Hi'].
  assert (A : (k < ilog2 x + 1)%Z) by (apply pow2_lt_inv; lra).
  assert (B : (ilog2 x < k + 1)%Z) by (apply pow2_lt_inv; lra).
  lia.
Qed.

Lemma ilog2_mono (x y : Q) : ~ x == 0 -> Qabs x <= Qabs y -> (ilog2 x <= ilog2 y)%Z.
Proof.
  intros Hx L.
  assert (Hy : ~ y == 0).
  { intros E. rewrite E in L. change (Qabs 0) with 0 in L.
    apply Hx. pose proof (Qabs_nonneg x) as P.
    assert (Z0 : Qabs x == 0) by lra.
    destruct x as [n d]. unfold Qabs, Qeq in Z0 |- *. simpl in Z0 |- *. lia. }
  destruct (ilog2_spec x Hx) as [Lo _]. destruct (ilog2_spec y Hy) as [_ Hi].
  assert (A : (ilog2 x < ilog2 y + 1)%Z) by (apply pow2_lt_inv; lra).
  lia.
Qed.

Lemma ilog2_comp (x y : Q) : ~ x == 0 -> Qabs x == Qabs y -> ilog2 x = ilog2 y.
Proof.
  intros Hx E. destruct (ilog2_spec x Hx) as [Lo Hi].
  symmetry. apply ilog2_unique; rewrite <- E; assumption.
Qed.

Lemma ulpExp_comp (x y : Q) : ~ x == 0 -> Qabs x == Qabs y -> ulpExp x = ulpExp y.
Proof. intros Hx E. unfold ulpExp. rewrite (ilog2_comp x y Hx E). reflexivity. Qed.

Lemma ulpExp_mono (x y : Q) : ~ x == 0 -> Qabs x <= Qabs y -> (ulpExp x <= ulpExp y)%Z.
Proof. intros Hx L. unfold ulpExp. pose proof (ilog2_mono x y Hx L). lia. Qed.

Lemma fl_nonzero (x : Q) :
  ~ x == 0 -> fl x = inject_Z (roundEven (x / pow2 (ulpExp x))) * pow2 (ulpExp x).
Proof.
  intros Hx. unfold fl. destruct (Qeq_bool x 0) eqn:E; [| reflexivity].
  apply Qeq_bool_iff in E. contradiction.
Qed.

Lemma fl_zero (x : Q) : x == 0 -> fl x = 0.
Proof. intros E. unfold fl. apply Qeq_bool_iff in E. rewrite E. reflexivity. Qed.

#[global] Instance fl_comp : Proper (Qeq ==> Qeq) fl.
Proof.
  intros x y E. destruct (Qeq_dec x 0) as [Z0|N0].
  - rewrite (fl_zero x Z0), (fl_zero y); [reflexivity | rewrite <- E; exact Z0].
  - assert (N0' : ~ y == 0) by (rewrite <- E; exact N0).
    rewrite (fl_nonzero x N0), (fl_nonzero y N0').
    rewrite (ulpExp_comp x y N0) by (rewrite E; reflexivity).
    rewrite (roundEven_comp (x / pow2 (ulpExp y)) (y / pow2 (ulpExp y))); [reflexivity |].
    rewrite E. reflexivity.
Qed.

Lemma fl_opp (x : Q) : fl (- x) == - fl x.
Proof.
  destruct (Qeq_dec x 0) as [Z0|N0].
  - rewrite (fl_zero x Z0), (fl_zero (- x)); [reflexivity | rewrite Z0; reflexivity].
  - assert (N0' : ~ - x == 0) by (intros E; apply N0; lra).
    rewrite (fl_nonzero x N0), (fl_nonzero (- x) N0').
    rewrite (ulpExp_comp (- x) x N0' (Qabs_opp x)).
    rewrite (roundEven_comp (- x / pow2 (ulpExp x)) (- (x / pow2 (ulpExp x)))).
    + rewrite roundEven_opp, inject_Z_opp. ring.
    + unfold Qdiv. ring.
Qed.

Lemma fl_nonneg (x : Q) : 0 <= x -> 0 <= fl x.
Proof.
  intros Hx. destruct (Qeq_dec x 0) as [Z0|N0].
  - rewrite (fl_zero x Z0). apply Qle_refl.
  - rewrite (fl_nonzero x N0). pose proof (pow2_pos (ulpExp x)) as P.
    apply Qmult_le_0_compat; [| lra].
    change 0 with (inject_Z 0). rewrite <- Zle_Qle.
    rewrite <- (roundEven_Z 0). apply roundEven_mono.
    change (inject_Z 0) with 0. apply Qle_shift_div_l; [exact P | lra].
Qed.

Lemma fl_nonpos (x : Q) : x <= 0 -> fl x <= 0.
Proof.
  intros Hx. assert (A : 0 <= fl (- x)) by (apply fl_nonneg; lra).
  rewrite fl_opp in A. lra.
Qed.

(** Below and above a power of two. *)
Lemma fl_le_pow2 (x : Q) (L : Z) :
  0 < x -> x <= pow2 L -> (ulpExp x <= L)%Z -> fl x <= pow2 L.
Proof.
  intros Hx Hle He.
  assert (N0 : ~ x == 0) by (intros E; lra).
  rewrite (fl_nonzero x N0). set (e := ulpExp x) in *.
  pose proof (pow2_pos e) as P.
  assert (E : pow2 L == inject_Z (2 ^ (L - e)) * pow2 e).
  { rewrite <- pow2_Z by lia. rewrite <- pow2_plus. replace (L - e + e)%Z with L by ring.
    reflexivity. }
  rewrite E. apply Qmult_le_compat_r; [| lra].
  rewrite <- Zle_Qle. rewrite <- (roundEven_Z (2 ^ (L - e))). apply roundEven_mono.
  apply Qle_shift_div_r; [exact P |]. rewrite <- E. exact Hle.
Qed.

Lemma fl_ge_pow2 (x : Q) (L : Z) :
  pow2 L <= x -> (ulpExp x <= L)%Z -> pow2 L <= fl x.
Proof.
  intros Hle He. pose proof (pow2_pos L) as PL.
  assert (N0 : ~ x == 0) by (intros E; lra).
  rewrite (fl_nonzero x N0). set (e := ulpExp x) in *.
  pose proof (pow2_pos e) as P.
  assert (E : pow2 L == inject_Z (2 ^ (L - e)) * pow2 e).
  { rewrite <- pow2_Z by lia. rewrite <- pow2_plus. replace (L - e + e)%Z with L by ring.
    reflexivity. }
  rewrite E. apply Qmult_le_compat_r; [| lra].
  rewrite <- Zle_Qle. rewrite <- (roundEven_Z (2 ^ (L - e))). apply roundEven_mono.
  apply Qle_shift_div_l; [exact P |]. rewrite <- E. exact Hle.
Qed.

Lemma fl_mono_pos (x y : Q) : 0 < x -> x <= y -> fl x <= fl y.
Proof.
  intros Hx Hxy.
  assert (Nx : ~ x == 0) by (intros E; lra).
  assert (Ny : ~ y == 0) by (intros E; lra).
  assert (Ax : Qabs x == x) by (apply Qabs_pos; lra).
  assert (Ay : Qabs y == y) by (apply Qabs_pos; lra).
  assert (He : (ulpExp x <= ulpExp y)%Z) by (apply ulpExp_mono; [exact Nx | lra]).
  destruct (Z.eq_dec (ulpExp x) (ulpExp y)) as [E|Ne].
  - rewrite (fl_nonzero x Nx), (fl_nonzero y Ny), E.
    pose proof (pow2_pos (ulpExp y)) as P.
    apply Qmult_le_compat_r; [| lra]. rewrite <- Zle_Qle. apply roundEven_mono.
    apply Qle_shift_div_l; [exact P |].
    setoid_replace (x / pow2 (ulpExp y) * pow2 (ulpExp y)) with x using relation Qeq
      by (field; lra).
    exact Hxy.
  - destruct (ilog2_spec x Nx) as [_ Hi]. destruct (ilog2_spec y Ny) as [Lo _].
    rewrite Ax in Hi. rewrite Ay in Lo.
    unfold ulpExp in He, Ne.
    assert (Hl : (ilog2 x + 1 <= ilog2 y)%Z) by lia.
    pose proof (pow2_le _ _ Hl) as Hp.
    apply (Qle_trans _ (pow2 (ilog2 y))).
    + apply fl_le_pow2; [exact Hx | lra | unfold ulpExp; lia].
    + apply fl_ge_pow2; [exact Lo | unfold ulpExp; lia].
Qed.

Lemma fl_mono (x y : Q) : x <= y -> fl x <= fl y.
Proof.
  intros Hxy.
  destruct (Qlt_le_dec 0 x) as [Px|Nx]; [apply fl_mono_pos; assumption |].
  destruct (Qlt_le_dec y 0) as [Ny|Py].
  - assert (A : fl (- y) <= fl (- x)) by (apply fl_mono_pos; lra).
    rewrite !fl_opp in A. lra.
  - pose proof (fl_nonpos x Nx). pose proof (fl_nonneg y Py). lra.
Qed.

(** A double at or below a real stays at or below the double nearest to it. *)
Lemma fl_representable_le (t x : Q) : representable t -> t <= x -> t <= fl x.
Proof.
  intros R L. unfold representable in R.
  apply (Qle_trans _ (fl t)); [rewrite R; apply Qle_refl | apply fl_mono, L].
Qed.

Lemma fl_representable_ge (t x : Q) : representable t -> x <= t -> fl x <= t.
Proof.
  intros R L. unfold representable in R.
  apply (Qle_trans _ (fl t)); [apply fl_mono, L | rewrite R; apply Qle_refl].
Qed.

(** The error of a rounding is at most half a unit in the last place. *)
Lemma fl_error (x : Q) (k : Z) :
  Qabs x < pow2 (k + 1) -> (-1074 <= k - 52)%Z ->
  Qabs (fl x - x) <= pow2 (k - 53).
Proof.
  intros Hx Hk.
  destruct (Qeq_dec x 0) as [Z0|N0].
  { rewrite (fl_zero x Z0), Z0. change (Qabs (0 - 0)) with 0. pose proof (pow2_pos (k - 53)). lra. }
  rewrite (fl_nonzero x N0).
  destruct (ilog2_spec x N0) as [Lo _].
  assert (Hl : (ilog2 x < k + 1)%Z) by (apply pow2_lt_inv; lra).
  assert (He : (ulpExp x <= k - 52)%Z) by (unfold ulpExp; lia).
  set (e := ulpExp x) in *. pose proof (pow2_pos e) as P.
  destruct (roundEven_nearest (x / pow2 e)) as (N1 & N2 & _).
  set (m := inject_Z (roundEven (x / pow2 e))) in *.
  assert (Hh : pow2 e <= 2 * pow2 (k - 53)).
  { rewrite <- pow2_succ. apply pow2_le. lia. }
  assert (Ex : x == x / pow2 e * pow2 e) by (field; lra).
  set (q := x / pow2 e) in *.
  apply Qabs_Qle_condition. rewrite Ex. split.
  - assert (A : (m - q) * pow2 e >= - (1 # 2) * pow2 e) by (apply Qmult_le_compat_r; lra).
    lra.
  - assert (A : (m - q) * pow2 e <= (1 # 2) * pow2 e) by (apply Qmult_le_compat_r; lra).
    lra.
Qed.

End DoubleFacts.

Example fl_ex :
  (Double.fl (1 # 10) == 3602879701896397 # 36028797018963968)%Q
  /\ (Double.fl (600 * 1000) == 600000)%Q
  /\ (Double.fl (Double.fl (1704067723001 # 1000) - Double.fl (1704067719501 # 1000))
      == 7 # 2)%Q.
Proof. repeat split; vm_compute; reflexivity. Qed.

(** The TTL in milliseconds is the product that the doubles give: for the
    double nearest to 475.5915 the product is 475591.5, which is rounded
    up, where the exact product is below it. *)
Example local_ttl_in_doubles :
  let T := Double.fl (4755915 # 10000) in
  Math_round (Double.fl (T * 1000)) = 475592
  /\ Math_round (T * 1000) = 475591
  /\ Local.optTtlMs (@Local.create Null 0 T) = 475592.
Proof. vm_compute. repeat split; reflexivity. Qed.

(** ** The composite key of the replay guard *)

Section TokenFacts.

Lemma decodeHead_encodeChar (a : ascii) (r : string) :
  Js.decodeHead (Js.encodeChar a +:+ r) = Some (a, r).
Proof.
  destruct a as [[] [] [] [] [] [] [] []]; vm_compute; reflexivity.
Qed.

Lemma encodeURIComponent_inj (s1 s2 : string) :
  Js.encodeURIComponent s1 = Js.encodeURIComponent s2 -> s1 = s2.
Proof.
  revert s2. induction s1 as [|a s1 IH]; intros [|b s2] E; simpl in E.
  - reflexivity.
  - apply (f_equal Js.decodeHead) in E.
    rewrite decodeHead_encodeChar in E. discriminate E.
  - apply (f_equal Js.decodeHead) in E.
    rewrite decodeHead_encodeChar in E. discriminate E.
  - apply (f_equal Js.decodeHead) in E.
    rewrite !decodeHead_encodeChar in E.
    injection E as -> E. f_equal. apply IH, E.
Qed.

Lemma app_assoc_string (a b c : string) : (a +:+ b) +:+ c = a +:+ (b +:+ c).
Proof.
  induction a as [|x a IH]; [reflexivity |].
  change (String x ((a +:+ b) +:+ c) = String x (a +:+ (b +:+ c))).
  now rewrite IH.
Qed.

Lemma app_nil_string (a : string) : "" +:+ a = a.
Proof. reflexivity. Qed.

Lemma app_cons_string (x : ascii) (a b : string) : String x a +:+ b = String x (a +:+ b).
Proof. reflexivity. Qed.


Lemma token_not_proto (s n : string) : NonceController.token s n <> "__proto__".
Proof.
  unfold NonceController.token. intros E.
  destruct s as [|a s]; simpl in E.
  - discriminate E.
  - apply (f_equal Js.decodeHead) in E.
    rewrite app_assoc_string, decodeHead_encodeChar in E.
    injection E as -> E. clear -E.
    repeat (destruct s as [|? s]; simpl in E;
            [discriminate E
            | apply (f_equal Js.decodeHead) in E;
              rewrite app_assoc_string, decodeHead_encodeChar in E;
              first [discriminate E | injection E as -> E]]).
Qed.

(** *** Arbitrary strings *)





Lemma uriUnreserved_range (c : Z) : Js.uriUnreserved c = true -> 0 <= c < 128.
Proof.
  unfold Js.uriUnreserved, Js.isAlnum, Js.isDigit, Js.isUpper, Js.isLower, Js.between, Js.mem.
  rewrite !orb_true_iff, !andb_true_iff, !Z.leb_le, !Z.eqb_eq. lia.
Qed.

Ltac decide_tests :=
  unfold Js.between;
  repeat match goal with
    | |- context [?a <? ?b] =>
        first [ rewrite (proj2 (Z.ltb_lt a b)) by (Z.div_mod_to_equations; lia)
              | rewrite (proj2 (Z.ltb_ge a b)) by (Z.div_mod_to_equations; lia) ]
    | |- context [?a <=? ?b] =>
        first [ rewrite (proj2 (Z.leb_le a b)) by (Z.div_mod_to_equations; lia)
              | rewrite (proj2 (Z.leb_gt a b)) by (Z.div_mod_to_equations; lia) ]
    end.



(** The shape of a successful encoding: the first code point and the rest. *)
Lemma encodeUnits_head (s : list Z) (k : string) :
  Js.encodeUnits s = Some k ->
  match s with
  | [] => k = ""
  | c :: r =>
      if Js.isHighSurrogate c then
        match r with
        | d :: r' =>
            Js.isLowSurrogate d = true
            /\ exists kr, Js.encodeUnits r' = Some kr
                          /\ k = Js.encodePoint (65536 + (c - 55296) * 1024 + (d - 56320)) +:+ kr
        | [] => False
        end
      else
        Js.isLowSurrogate c = false /\ 0 <= c <= 65535
        /\ exists kr, Js.encodeUnits r = Some kr /\ k = Js.encodePoint c +:+ kr
  end.
Proof.
  destruct s as [|c r]; simpl.
  - intros [= <-]. reflexivity.
  - destruct (Js.isLowSurrogate c) eqn:L; [discriminate |].
    destruct (Js.isHighSurrogate c) eqn:Hi.
    + destruct r as [|d r']; [discriminate |].
      destruct (Js.isLowSurrogate d) eqn:L2; [| discriminate].
      destruct (Js.encodeUnits r') as [kr|]; [| discriminate].
      intros [= <-]. split; [reflexivity |]. exists kr. split; reflexivity.
    + destruct (Js.between 0 65535 c) eqn:B; [| discriminate].
      destruct (Js.encodeUnits r) as [kr|]; [| discriminate].
      intros [= <-]. split; [reflexivity |].
      unfold Js.between in B. apply andb_true_iff in B as [B1 B2].
      apply Z.leb_le in B1, B2. split; [lia |]. exists kr. split; reflexivity.
Qed.


Lemma surrogates (c d : Z) :
  Js.isHighSurrogate c = true -> Js.isLowSurrogate d = true ->
  55296 <= c <= 56319 /\ 56320 <= d <= 57343.
Proof.
  unfold Js.isHighSurrogate, Js.isLowSurrogate, Js.between.
  rewrite !andb_true_iff, !Z.leb_le. lia.
Qed.




(** On the strings of code units below 256 the two encoders agree. *)
Lemma encodeUnits_units (s : string) :
  Js.encodeUnits (Js.units s) = Some (Js.encodeURIComponent s).
Proof.
  induction s as [|a s IH]; [reflexivity |].
  change (Js.units (String a s)) with (Js.code a :: Js.units s).
  assert (Ha : 0 <= Js.code a < 256).
  { unfold Js.code. pose proof (N_ascii_bounded a). lia. }
  cbn [Js.encodeUnits].
  unfold Js.isLowSurrogate, Js.isHighSurrogate. decide_tests. cbn [andb].
  rewrite IH. simpl. do 2 f_equal.
  unfold Js.encodePoint, Js.encodeChar, Js.chr, Js.code.
  rewrite N2Z.id, ascii_N_embedding. reflexivity.
Qed.


End TokenFacts.

(** ** The replay guard *)

Section ReplayGuard.
Import NonceController.

(** What the local backend holds after [set(token, null)] at [e]. *)
Lemma Local_set_token (e : Env) (s n : string) (c : Local.ConfigCache Null) :
  Local.set e (token s n) (Some null) None c =
  Ok {| Local.optTtlMs := Local.optTtlMs c;
        Local.dataData :=
          <[token s n := {| Local.exp := Local.optTtlMs c + now e; Local.value := null |}]>
            (Local.dataData c);
        Local.wakeAt :=
          now e + Local.interval (now e)
                    (<[token s n := {| Local.exp := Local.optTtlMs c + now e;
                                       Local.value := null |}]> (Local.dataData c)) |}.
Proof.
  unfold Local.set, Obj.assign.
  rewrite bool_decide_eq_false_2 by apply token_not_proto. reflexivity.
Qed.

Lemma Local_get_lookup {V} (key : string) (c : Local.ConfigCache V) :
  Local.get key c = Local.value <$> Local.dataData c !! key.
Proof.
  unfold Local.get, Obj.objectHasKey.
  destruct (Local.dataData c !! key) as [it|]; reflexivity.
Qed.

Lemma add_false_contract (C : Type) (I : IConfigCache Null C) (e : Env) (s n : string) (c : C) :
  add e s n false c =
  match cache_get e (token s n) c with
  | Some _ => (Ok false, c)
  | None =>
      match cache_set e (token s n) (Some null) None c with
      | Ok c' => (Ok true, c')
      | Err err => (Err err, c)
      end
  end.
Proof.
  unfold add. simpl. destruct (cache_get e (token s n) c) as [v|]; reflexivity.
Qed.

Lemma add_false_local (e : Env) (s n : string) (c : Local.ConfigCache Null) :
  add e s n false c =
  match Local.dataData c !! token s n with
  | Some _ => (Ok false, c)
  | None => (Ok true, Local_stored e (token s n) c)
  end.
Proof.
  rewrite add_false_contract. unfold cache_get, cache_set, Local.impl.
  rewrite Local_get_lookup, Local_set_token.
  destruct (Local.dataData c !! token s n) as [it|]; reflexivity.
Qed.

Lemma add_true_local (e : Env) (s n : string) (c : Local.ConfigCache Null) :
  add e s n true c = (Ok true, Local_stored e (token s n) c).
Proof.
  unfold add, negb. unfold cache_set, Local.impl. rewrite Local_set_token. reflexivity.
Qed.

Lemma Remote_set_defined {V} (serialize : V -> string) (e : Env) (key : string) (v : V)
    (o : option IConfigCacheAddOptions) (c : Remote.ConfigCache) :
  Remote.set serialize e key (Some v) o c
  = Ok (afterSet (Remote.set serialize e key (Some v) o c) c).
Proof.
  unfold Remote.set.
  destruct (Qle_bool _ 0); [reflexivity |].
  destruct (Redis.setex _ _ _ _ _); reflexivity.
Qed.

Lemma Remote_generateKey_with_client (c : Remote.ConfigCache) (st : gmap string Redis.Entry)
    (k : string) :
  Remote.generateKey (Remote.with_client c st) k = Remote.generateKey c k.
Proof. reflexivity. Qed.

(** What a [set] whose expiration is a positive whole number of seconds
    leaves in a store that answers. *)
Lemma Remote_set_stored {V} (serialize : V -> string) (e : Env) (key : string) (v : V)
    (o : option IConfigCacheAddOptions) (c : Remote.ConfigCache) (n : Z) :
  storeAnswers e = true ->
  (Remote_expiration e o c == inject_Z n)%Q ->
  0 < n ->
  Remote.set serialize e key (Some v) o c =
  Ok (Remote.with_client c
        (<[Remote.generateKey c key :=
             {| Redis.payload := serialize v; Redis.expireAt := now e + 1000 * n |}]>
           (Remote.optRedisClient c))).
Proof.
  intros Hup Hexp Hpos. unfold Remote.set. fold (Remote_expiration e o c).
  set (x := Remote_expiration e o c) in *.
  assert (Hf : Qfloor x = n).
  { rewrite (Qfloor_comp _ _ Hexp). apply Qfloor_Z. }
  assert (Hle : Qle_bool x 0 = false).
  { destruct (Qle_bool x 0) eqn:L; [| reflexivity].
    apply Qle_bool_iff in L. rewrite Hexp in L.
    change 0%Q with (inject_Z 0) in L. rewrite <- Zle_Qle in L. lia. }
  rewrite Hle. unfold Redis.setex. rewrite Hup, Hf.
  assert (Hq : Qeq_bool (inject_Z n) x = true).
  { apply Qeq_bool_iff. symmetry. exact Hexp. }
  rewrite Hq. rewrite (proj2 (Z.ltb_lt 0 n) Hpos). reflexivity.
Qed.

(** A [set] with the default TTL writes nothing when the store does not
    answer, or when the TTL is not a positive whole number of seconds. *)
Lemma Remote_set_not_stored {V} (serialize : V -> string) (e : Env) (key : string) (v : V)
    (c : Remote.ConfigCache) :
  storeAnswers e = false \/ (forall k : Z, 0 < k -> ~ (Remote.optTtl c == inject_Z k)%Q) ->
  Remote.set serialize e key (Some v) None c = Ok c.
Proof.
  intros Hno. unfold Remote.set.
  destruct (Qle_bool (Remote.optTtl c) 0); [reflexivity |].
  unfold Redis.setex.
  destruct (storeAnswers e) eqn:Hup; [| reflexivity].
  destruct Hno as [Hno|Hno]; [discriminate Hno |].
  destruct (Qeq_bool _ _) eqn:Hq; [| reflexivity].
  destruct (0 <? Qfloor (Remote.optTtl c)) eqn:Hp; [| reflexivity].
  exfalso. apply Z.ltb_lt in Hp. apply Qeq_bool_iff in Hq.
  apply (Hno _ Hp). symmetry. exact Hq.
Qed.

(** What [get] reads from a store that answers. *)
Lemma Remote_get_readable {V} (deserialize : string -> option V) (e : Env) (key : string)
    (c : Remote.ConfigCache) :
  storeAnswers e = true ->
  is_Some (Remote.get deserialize e key c) <-> Remote_readable deserialize e key c = true.
Proof.
  intros Hup. unfold Remote.get, Redis.get, Remote_readable. rewrite Hup.
  destruct (Remote.optRedisClient c !! Remote.generateKey c key) as [en|];
    [| split; [intros [x E]; discriminate E | discriminate]].
  destruct (now e <=? Redis.expireAt en); simpl;
    [| split; [intros [x E]; discriminate E | discriminate]].
  rewrite bool_decide_eq_true. reflexivity.
Qed.

Lemma add_remote (serialize : Null -> string) (deserialize : string -> option Null)
    (e : Env) (s n : string) (idem : bool) (c : Remote.ConfigCache) :
  @add _ (Remote.impl serialize deserialize) e s n idem c =
  if negb idem && bool_decide (is_Some (Remote.get deserialize e (token s n) c))
  then (Ok false, c)
  else (Ok true, afterSet (Remote.set serialize e (token s n) (Some null) None c) c).
Proof.
  unfold add. unfold cache_get, cache_set, Remote.impl.
  rewrite Remote_set_defined.
  destruct idem; simpl; [reflexivity |].
  destruct (bool_decide _); reflexivity.
Qed.

(** C1, as stated, fails on the shared backend. While the store does not
    answer, [add(s, n, false)] answers [true] for a pair whose entry is in
    the store and has not expired, and for a pair that has no entry it
    answers [true] and stores nothing. *)
Lemma add_accepts_during_outage :
  let add' := @add _ (Remote.impl Scenario.serializeNull Scenario.deserializeNull) in
  (exists en,
      Remote.optRedisClient Cases.remoteAccepted
        !! Remote.generateKey Cases.remoteAccepted (token "merchant-1" Scenario.nonce1)
      = Some en
      /\ now Cases.outage <= Redis.expireAt en
      /\ Scenario.deserializeNull (Redis.payload en) = Some null)
  /\ add' Cases.outage "merchant-1" Scenario.nonce1 false Cases.remoteAccepted
     = (Ok true, Cases.remoteAccepted)
  /\ Remote.optRedisClient Scenario.remote0
       !! Remote.generateKey Scenario.remote0 (token "merchant-2" Scenario.nonce1) = None
  /\ add' Cases.outage "merchant-2" Scenario.nonce1 false Scenario.remote0
     = (Ok true, Scenario.remote0).
Proof.
  split; [eexists; split; [vm_compute; reflexivity | split; vm_compute; [discriminate | reflexivity]] |].
  split; [vm_compute; reflexivity |]. split; vm_compute; reflexivity.
Qed.

(** C1, amended.  On the local backend, for every cache state,
    [add(s, n, false)] answers [false] and returns the cache as it was when
    an entry is held under the composite key, and otherwise stores the
    entry to expire one TTL after the current time and answers [true].  On
    the shared backend, when the store answers: if it holds an entry for
    the pair that has not expired and can be read, the call answers [false]
    and leaves the cache and the store as they were; if not, and the
    default TTL is a positive whole number [k] of seconds, it writes the
    entry to expire [k] seconds later, so that the pair can be read for
    [k] seconds, and answers [true]; if the default TTL is no such number
    it answers [true] and writes nothing.  When the store does not answer
    it answers [true] and writes nothing, whatever the store holds. *)
Theorem add_non_idempotent :
  (forall (e : Env) (s n : string) (c : Local.ConfigCache Null),
      add e s n false c =
      match Local.dataData c !! token s n with
      | Some _ => (Ok false, c)
      | None =>
          (Ok true,
           {| Local.optTtlMs := Local.optTtlMs c;
              Local.dataData :=
                <[token s n := {| Local.exp := Local.optTtlMs c + now e; Local.value := null |}]>
                  (Local.dataData c);
              Local.wakeAt :=
                now e + Local.interval (now e)
                          (<[token s n := {| Local.exp := Local.optTtlMs c + now e;
                                             Local.value := null |}]> (Local.dataData c)) |})
      end)
  /\
  (forall (serialize : Null -> string) (deserialize : string -> option Null)
          (e : Env) (s n : string) (c : Remote.ConfigCache),
      let add' := @add _ (Remote.impl serialize deserialize) in
      (storeAnswers e = true ->
       Remote_readable deserialize e (token s n) c = true ->
       add' e s n false c = (Ok false, c))
      /\
      (forall k : Z,
          storeAnswers e = true ->
          Remote_readable deserialize e (token s n) c = false ->
          (Remote.optTtl c == inject_Z k)%Q -> 0 < k ->
          add' e s n false c = (Ok true, Remote_stored serialize e (token s n) k c)
          /\ forall e' : Env,
               Remote_readable deserialize e' (token s n)
                 (Remote_stored serialize e (token s n) k c)
               = (now e' <=? now e + 1000 * k)
                 && bool_decide (is_Some (deserialize (serialize null))))
      /\
      (storeAnswers e = true ->
       Remote_readable deserialize e (token s n) c = false ->
       (forall k : Z, 0 < k -> ~ (Remote.optTtl c == inject_Z k)%Q) ->
       add' e s n false c = (Ok true, c))
      /\
      (storeAnswers e = false -> add' e s n false c = (Ok true, c))).
Proof.
  split; [apply add_false_local |].
  intros ser deser e s n c add'. subst add'.
  assert (G : storeAnswers e = true ->
              bool_decide (is_Some (Remote.get deser e (token s n) c))
              = Remote_readable deser e (token s n) c).
  { intros Hup. pose proof (Remote_get_readable deser e (token s n) c Hup) as R.
    destruct (Remote_readable deser e (token s n) c).
    - apply bool_decide_eq_true, R. reflexivity.
    - apply bool_decide_eq_false. intros Hs. apply R in Hs. discriminate Hs. }
  split; [| split; [| split]].
  - intros Hup Hr. rewrite add_remote, (G Hup), Hr. reflexivity.
  - intros k Hup Hr Hk Hpos. split.
    + rewrite add_remote, (G Hup), Hr. cbn [negb andb].
      rewrite (Remote_set_stored ser e (token s n) null None c k Hup Hk Hpos). reflexivity.
    + intros e'. unfold Remote_readable, Remote_stored.
      rewrite Remote_generateKey_with_client.
      cbn [Remote.optRedisClient Remote.with_client]. rewrite lookup_insert_eq. reflexivity.
  - intros Hup Hr Hk. rewrite add_remote, (G Hup), Hr. cbn [negb andb].
    rewrite Remote_set_not_stored by (right; exact Hk). reflexivity.
  - intros Hdown. rewrite add_remote.
    assert (N : Remote.get deser e (token s n) c = None).
    { unfold Remote.get, Redis.get. rewrite Hdown. reflexivity. }
    rewrite N, Remote_set_not_stored by (left; exact Hdown).
    rewrite bool_decide_eq_false_2 by (intros [x E]; discriminate E). reflexivity.
Qed.

Lemma add_non_idempotent_witness :
  let add' := @add _ (Remote.impl Scenario.serializeNull Scenario.deserializeNull) in
  (add' Scenario.atTime1 "merchant-1" Scenario.nonce1 false Scenario.remote0
   = (Ok true,
      Remote_stored Scenario.serializeNull Scenario.atTime1
        (token "merchant-1" Scenario.nonce1) 600 Scenario.remote0)
   /\ forall e' : Env,
        Remote_readable Scenario.deserializeNull e' (token "merchant-1" Scenario.nonce1)
          (Remote_stored Scenario.serializeNull Scenario.atTime1
             (token "merchant-1" Scenario.nonce1) 600 Scenario.remote0)
        = (now e' <=? now Scenario.atTime1 + 1000 * 600)
          && bool_decide (is_Some (Scenario.deserializeNull (Scenario.serializeNull null))))
  /\ add' Scenario.soon "merchant-1" Scenario.nonce1 false Cases.remoteAccepted
     = (Ok false, Cases.remoteAccepted).
Proof.
  split.
  - apply (proj1 (proj2 (proj2 add_non_idempotent Scenario.serializeNull
                           Scenario.deserializeNull Scenario.atTime1 "merchant-1"
                           Scenario.nonce1 Scenario.remote0)) 600);
      first [reflexivity | lia].
  - apply (proj1 (proj2 add_non_idempotent Scenario.serializeNull Scenario.deserializeNull
                    Scenario.soon "merchant-1" Scenario.nonce1 Cases.remoteAccepted));
      vm_compute; reflexivity.
Defined.



End ReplayGuard.

(** ** The expiring cache *)

Section LocalCache.
Context {V : Type}.

Lemma Local_purge_lookup (t : Z) (d : gmap string (Local.Item V)) (k : string) (it : Local.Item V) :
  Local.purge t d !! k = Some it <-> d !! k = Some it /\ t < Local.exp it.
Proof. unfold Local.purge. rewrite map_lookup_filter_Some. reflexivity. Qed.

(** The waiter sleeps at most until one second after the nearest
    expiration, and never longer than [0x7fffffff] ms. *)
Lemma Local_interval_bound (t : Z) (d : gmap string (Local.Item V)) :
  0 <= Local.interval t d <= 2147483647
  /\ forall k it, d !! k = Some it -> Local.interval t d <= Z.max (Local.exp it - t + 1000) 0.
Proof.
  unfold Local.interval.
  apply (map_fold_weak_ind
           (fun r (m : gmap string (Local.Item V)) =>
              0 <= r <= 2147483647
              /\ forall k it, m !! k = Some it -> r <= Z.max (Local.exp it - t + 1000) 0)).
  - split; [lia |]. intros k it E. rewrite lookup_empty in E. discriminate E.
  - intros i x m r Hi [Hr IH]. split; [lia |].
    intros k it E. destruct (decide (i = k)) as [->|Hne].
    + rewrite lookup_insert_eq in E. injection E as <-. lia.
    + rewrite lookup_insert_ne in E by exact Hne. specialize (IH k it E). lia.
Qed.

End LocalCache.

Section CacheClaims.




(** C10. On the remote backend, [set] of a defined value whose computed
    expiration is not positive returns normally and leaves the cache, and
    with it the external store, as they were: when the default TTL is not
    positive, when a relative TTL rounds to zero or less, and when the
    remaining life of an absolute instant, computed in doubles and rounded,
    is not positive, which is the case of every absolute instant at or
    before the current time. *)
Theorem remote_set_not_positive
    (V : Type) (serialize : V -> string) (e : Env) (key : string) (v : V)
    (options : option IConfigCacheAddOptions) (c : Remote.ConfigCache) :
  match options with
  | None => (Remote.optTtl c <= 0)%Q
  | Some o =>
      if absolute o
      then Math_round (Double.fl (ttl o - Double.fl (inject_Z (now e) / 1000))) <= 0
           \/ (Double.representable (ttl o) /\ (ttl o <= inject_Z (now e) / 1000)%Q)
      else Math_round (ttl o) <= 0
  end ->
  Remote.set serialize e key (Some v) options c = Ok c.
Proof.
  intros Hexp. unfold Remote.set.
  assert (Hround : forall x : Q, (x <= 0)%Q -> Math_round x <= 0).
  { intros x Hx. unfold Math_round.
    change 0 with (Qfloor (1 # 2)). apply Qfloor_resp_le.
    rewrite <- (Qplus_0_l (1 # 2)) at 2. apply Qplus_le_compat; [exact Hx | apply Qle_refl]. }
  assert (Hinj : forall z : Z, z <= 0 -> Qle_bool (inject_Z z) 0 = true).
  { intros z Hz. apply Qle_bool_iff. change 0%Q with (inject_Z 0).
    rewrite <- Zle_Qle. exact Hz. }
  destruct options as [o|].
  - destruct (absolute o).
    + rewrite Hinj; [reflexivity |].
      destruct Hexp as [Hexp|[Hrep Hexp]]; [exact Hexp |].
      apply Hround, fl_nonpos.
      pose proof (fl_representable_le (ttl o) (inject_Z (now e) / 1000) Hrep Hexp) as L.
      lra.
    + rewrite Hinj by exact Hexp. reflexivity.
  - apply Qle_bool_iff in Hexp. rewrite Hexp. reflexivity.
Qed.

Lemma remote_set_not_positive_witness :
  Remote.set Scenario.serializeNull Scenario.soon "k" (Some null)
    (Some {| ttl := 1704067200 # 1; absolute := true |}) Scenario.remote1
  = Ok Scenario.remote1.
Proof.
  apply (remote_set_not_positive Null Scenario.serializeNull Scenario.soon "k" null
           (Some {| ttl := 1704067200 # 1; absolute := true |}) Scenario.remote1).
  right. split; [vm_compute; reflexivity | vm_compute; discriminate].
Defined.

(** The remaining life is the one that the doubles give: half a second
    before the double nearest to 1704067200.501 the difference is one half
    and the entry is written for one second, where the exact difference is
    below one half. *)
Example remote_set_in_doubles :
  let T := Double.fl (1704067200501 # 1000) in
  let e := {| now := 1704067200001; storeAnswers := true |} in
  (T - inject_Z (now e) / 1000 < 1 # 2)%Q
  /\ Math_round (Double.fl (T - Double.fl (inject_Z (now e) / 1000))) = 1
  /\ Remote.optRedisClient
       (afterSet (Remote.set Scenario.serializeNull e "k" (Some null)
                    (Some {| ttl := T; absolute := true |}) Scenario.remote1)
          Scenario.remote1)
     !! Remote.generateKey Scenario.remote1 "k"
     = Some {| Redis.payload := Scenario.serializeNull null;
               Redis.expireAt := 1704067201001 |}.
Proof. vm_compute. repeat split; reflexivity. Qed.

End CacheClaims.

(** ** The request verifier *)

Section Verifier.
Import HttpAuthentication.
Context {C : Type} `{IConfigCache Null C}.
Variable Json : Type.
Variable URL_parse : string -> option ParsedUrl.
Variable localeCompare : string -> string -> Z.
Variable Date_parse : string -> option Z.
Variable merchantConfig_get : string -> option (option Merchant).
Variable rsa_verify : string -> string -> string -> option bool.
Variable JSON_parse : string -> option Json.

Local Abbreviation validate' := (validate URL_parse localeCompare Date_parse).
Local Abbreviation authenticate' :=
  (authenticate Json URL_parse localeCompare Date_parse merchantConfig_get rsa_verify JSON_parse).
Local Abbreviation middleware' :=
  (HttpAuthenticationMiddleware Json URL_parse localeCompare Date_parse merchantConfig_get
     rsa_verify JSON_parse).

Ltac res_unfold :=
  unfold mbind, mret, Res_bind, Res_ret, res_bind, guard, assertString in *.

Ltac res_cases := res_unfold; repeat (case_match; simplify_eq/=).

(** What a successful validation has established. *)
Lemma validate_Ok (req : HttpHandlerReq) (v : Validated) :
  validate' req = Ok v ->
  exists creds sh url rest d,
    parseAuthorization req = Ok creds
    /\ parseCredentialFields creds = Ok (v_credential v, sh, v_signature v)
    /\ URL_parse (fullUrl req) = Some url
    /\ Nat.even (length (rawHeaders req)) = true
    /\ collectHeaders (list_to_set (Js.split ";" sh)) (list_to_set (Js.split ";" sh), [])
         (rawHeaders req) = Ok (rest, v_headersRaw v)
    /\ headers req !! "x-fomopay-nonce" = Some (v_nonce v)
    /\ nonceRegex (v_nonce v) = true
    /\ headers req !! "x-fomopay-content-sha256"
       = Some (Js.toLowerCase (Sha256.digest_hex (v_reqBody v)))
    /\ v_reqBody v = default "" (body req)
    /\ headers req !! "x-fomopay-date" = Some d
    /\ checkDate Date_parse d = Ok (v_dateInst v).
Proof.
  intros E. unfold validate in E. res_cases.
  match goal with
  | Hd : bool_decide (_ = Js.toLowerCase _) = true |- _ => apply bool_decide_eq_true in Hd; subst
  end.
  do 5 eexists. repeat split; eauto.
Qed.

Lemma checkDate_Ok (d : string) (t : Z) :
  checkDate Date_parse d = Ok t <->
  Date_parse d = Some t
  /\ ((CONST_ISO8601_REGEX d <> Some true /\ getIso8601Time t = d)
      \/ (CONST_ISO8601_REGEX d = Some true /\ Date.toISOString t = d)).
Proof.
  unfold checkDate, mbind, Res_bind, res_bind, guard.
  destruct (Date_parse d) as [t0|]; [| split; [discriminate | intros [P _]; discriminate P]].
  destruct (CONST_ISO8601_REGEX d) as [[|]|].
  - destruct (decide (Date.toISOString t0 = d)) as [E|N].
    + rewrite bool_decide_eq_true_2 by exact E. split.
      * intros [= <-]. split; [reflexivity | right; split; [reflexivity | exact E]].
      * intros [[= <-] _]. reflexivity.
    + rewrite bool_decide_eq_false_2 by exact N. split; [discriminate |].
      intros [[= <-] [[M _]|[_ M]]]; [exfalso; apply M; reflexivity | contradiction].
  - destruct (decide (getIso8601Time t0 = d)) as [E|N].
    + rewrite bool_decide_eq_true_2 by exact E. split.
      * intros [= <-]. split; [reflexivity | left; split; [discriminate | exact E]].
      * intros [[= <-] _]. reflexivity.
    + rewrite bool_decide_eq_false_2 by exact N. split; [discriminate |].
      intros [[= <-] [[_ M]|[M _]]]; [contradiction | discriminate M].
  - destruct (decide (getIso8601Time t0 = d)) as [E|N].
    + rewrite bool_decide_eq_true_2 by exact E. split.
      * intros [= <-]. split; [reflexivity | left; split; [discriminate | exact E]].
      * intros [[= <-] _]. reflexivity.
    + rewrite bool_decide_eq_false_2 by exact N. split; [discriminate |].
      intros [[= <-] [[_ M]|[M _]]]; [contradiction | discriminate M].
Qed.

(** Every error of one turn of the header loop carries the code [0x0010]. *)
Lemma collectHeader_Err (full : gset string) st (name value : string) (err : Thrown) :
  collectHeader full st name value = Err err -> exists f, err = AuthError 0x0010 f.
Proof.
  unfold collectHeader. destruct st as [set raw]. intros E. res_cases; eauto.
Qed.

Lemma collectHeader_unsigned (full : gset string) st (name value : string) :
  compulsory (Js.toLowerCase name) = true ->
  Js.toLowerCase name ∉ full ->
  exists f, collectHeader full st name value = Err (AuthError 0x0010 f).
Proof.
  intros Hc Hn. unfold collectHeader. destruct st as [set raw]. res_unfold.
  destruct (CONST_HTTP_HEADER_KEY_REGEX (Js.toLowerCase name)); [| eauto].
  rewrite bool_decide_eq_false_2 by exact Hn. simpl. rewrite Hc. eauto.
Qed.

Lemma collectHeaders_unsigned (full : gset string) (i : nat) :
  forall (raw : list string) st (name : string),
    raw !! (2 * i)%nat = Some name ->
    (S (2 * i) < length raw)%nat ->
    compulsory (Js.toLowerCase name) = true ->
    Js.toLowerCase name ∉ full ->
    exists f, collectHeaders full st raw = Err (AuthError 0x0010 f).
Proof.
  induction i as [|i IH]; intros raw st name L Hlen Hc Hn.
  - destruct raw as [|n0 [|v0 rest]]; simpl in *; try lia.
    injection L as ->.
    destruct (collectHeader_unsigned full st name v0 Hc Hn) as [f ->]. eauto.
  - destruct raw as [|n0 [|v0 rest]]; simpl in Hlen; try lia.
    replace (2 * S i)%nat with (S (S (2 * i))) in L by lia. simpl in L.
    simpl. destruct (collectHeader full st n0 v0) as [st'|err] eqn:E.
    + apply (IH rest st' name L); [lia | exact Hc | exact Hn].
    + destruct (collectHeader_Err _ _ _ _ _ E) as [f ->]. eauto.
Qed.

Lemma even_index_has_value (raw : list string) (i : nat) (name : string) :
  Nat.even (length raw) = true -> raw !! (2 * i)%nat = Some name -> (S (2 * i) < length raw)%nat.
Proof.
  intros Hev L. apply lookup_lt_Some in L.
  apply Nat.even_spec in Hev as [k Hk]. lia.
Qed.

Lemma authenticate_validate_Err (e : Env) (req : HttpHandlerReq) (w : World C Json) (err : Thrown) :
  validate' req = Err err -> authenticate' e req w = (Err err, w).
Proof.
  intros E. unfold authenticate, mbind, M_bind, lift. rewrite E. reflexivity.
Qed.

Lemma authenticate_Ok_validate (e : Env) (req : HttpHandlerReq) (w : World C Json) :
  (authenticate' e req w).1 = Ok tt -> exists v, validate' req = Ok v.
Proof.
  destruct (validate' req) as [v|err] eqn:V; [eauto |].
  rewrite (authenticate_validate_Err e req w err V). discriminate.
Qed.

(** C7. The date header is accepted only if it parses as a date and either
    the pattern finds no fraction of a second in it and it equals the basic
    form [getIso8601Time] of the parsed instant, or it equals the
    [toISOString] form of the parsed instant; the check of the header
    succeeds exactly in these two cases, the second one for the values in
    which the pattern finds a fraction. *)
Theorem date_header_canonical (e : Env) (req : HttpHandlerReq) (w : World C Json) :
  (authenticate' e req w).1 = Ok tt ->
  exists d t,
    headers req !! "x-fomopay-date" = Some d
    /\ Date_parse d = Some t
    /\ ((CONST_ISO8601_REGEX d <> Some true /\ getIso8601Time t = d)
        \/ Date.toISOString t = d)
    /\ (forall d' t',
          checkDate Date_parse d' = Ok t' <->
          Date_parse d' = Some t'
          /\ ((CONST_ISO8601_REGEX d' <> Some true /\ getIso8601Time t' = d')
              \/ (CONST_ISO8601_REGEX d' = Some true /\ Date.toISOString t' = d'))).
Proof.
  intros A. destruct (authenticate_Ok_validate e req w A) as [v V].
  destruct (validate_Ok req v V) as (creds & sh & url & rest & d & _ & _ & _ & _ & _ & _ & _ & _ & _ & Hd & Hc).
  apply checkDate_Ok in Hc as [P Q].
  exists d, (v_dateInst v). split; [exact Hd |]. split; [exact P |].
  split; [| apply checkDate_Ok].
  destruct Q as [Q|[_ Q]]; [left; exact Q | right; exact Q].
Qed.

(** C8. A request with a raw header whose lower-cased name is [host],
    [content-type] or starts with [x-fomopay-], and is not among the names
    of [SignedHeaders], fails during validation: no collaborator is called,
    the signature is never checked and the world is left as it was. *)
Theorem compulsory_header_unsigned (e : Env) (req : HttpHandlerReq) (w : World C Json)
    (i : nat) (name : string) :
  rawHeaders req !! (2 * i)%nat = Some name ->
  compulsory (Js.toLowerCase name) = true ->
  (forall sh, declaredSignedHeaders req = Ok sh -> Js.toLowerCase name ∉ sh) ->
  exists err,
    validate' req = Err err
    /\ authenticate' e req w = (Err err, w)
    /\ List.filter isVerifySignature (trace (middleware' e req w))
       = List.filter isVerifySignature (trace w)
    /\ Next ∉ drop (length (trace w)) (trace (middleware' e req w)).
Proof.
  intros L Hc Hn.
  destruct (validate' req) as [v|err] eqn:V.
  - exfalso.
    destruct (validate_Ok req v V)
      as (creds & sh & url & rest & d & Ha & Hf & _ & Hev & Hcol & _).
    assert (Hd : declaredSignedHeaders req = Ok (Js.split ";" sh)).
    { unfold declaredSignedHeaders. rewrite Ha. simpl. rewrite Hf. reflexivity. }
    specialize (Hn _ Hd).
    assert (Hn' : Js.toLowerCase name ∉ (list_to_set (Js.split ";" sh) : gset string)).
    { rewrite elem_of_list_to_set. exact Hn. }
    destruct (collectHeaders_unsigned _ i (rawHeaders req)
                (list_to_set (Js.split ";" sh), []) name L
                (even_index_has_value _ _ _ Hev L) Hc Hn') as [f Hf'].
    rewrite Hf' in Hcol. discriminate Hcol.
  - exists err. split; [reflexivity |].
    pose proof (authenticate_validate_Err e req w err V) as A.
    split; [exact A |].
    unfold HttpAuthenticationMiddleware. rewrite A.
    destruct err; simpl; rewrite List.filter_app, drop_app_length; simpl;
      (split; [apply app_nil_r |]); intros Hin;
      apply list_elem_of_singleton in Hin; discriminate Hin.
Qed.

Ltac auth_unfold :=
  unfold authenticate, mbind, mret, M_bind, M_ret, lift, throw, call, catchAll, assert,
    nonceControllerAdd, dataSet, guard, assertString in *.

Ltac auth_cases := auth_unfold; repeat (case_match; simplify_eq/=; auth_unfold; simplify_eq/=).

(** The events of a run extend the trace; [Next] is among them exactly when
    the run succeeds. *)
Lemma authenticate_trace (e : Env) (req : HttpHandlerReq) (w : World C Json) :
  exists evs,
    trace (authenticate' e req w).2 = (trace w ++ evs)%list
    /\ match (authenticate' e req w).1 with
       | Ok _ => True
       | Err _ => Next ∉ evs
       end.
Proof.
  destruct (authenticate' e req w) as [r w'] eqn:A. simpl.
  auth_cases; rewrite <- ?app_assoc; simpl;
    (eexists; split; [try reflexivity; symmetry; apply app_nil_r |]);
    try exact I;
    rewrite ?elem_of_cons, ?elem_of_nil; intuition discriminate.
Qed.

Lemma middleware_rejects (e : Env) (req : HttpHandlerReq) (w : World C Json) (err : Thrown) :
  (authenticate' e req w).1 = Err err ->
  Next ∉ drop (length (trace w)) (trace (middleware' e req w)).
Proof.
  intros A. destruct (authenticate_trace e req w) as (evs & T & N).
  rewrite A in N. unfold HttpAuthenticationMiddleware.
  destruct (authenticate' e req w) as [r w'] eqn:R. simpl in *. subst r.
  destruct err; simpl; rewrite T, <- app_assoc, drop_app_length;
    rewrite elem_of_app, list_elem_of_singleton; intros [?|?]; (contradiction || discriminate).
Qed.

(** C6. A request whose date header parses to an instant more than
    300000 ms away from the clock, in either direction, is rejected: the
    run ends in an exception, whatever the signature check answers, no
    nonce is stored and the pipeline is not continued. *)
Theorem stale_timestamp_rejected (e : Env) (req : HttpHandlerReq) (w : World C Json)
    (d : string) (t : Z) :
  headers req !! "x-fomopay-date" = Some d ->
  Date_parse d = Some t ->
  300000 < Z.abs (now e - t) ->
  exists err,
    (authenticate' e req w).1 = Err err
    /\ configCache (authenticate' e req w).2 = configCache w
    /\ Next ∉ drop (length (trace w)) (trace (middleware' e req w)).
Proof.
  intros Hd Hp Hstale.
  assert (R : exists err, (authenticate' e req w).1 = Err err
                          /\ configCache (authenticate' e req w).2 = configCache w).
  { destruct (validate' req) as [v|err] eqn:V.
    - destruct (validate_Ok req v V)
        as (creds & sh & url & rest & d0 & _ & _ & _ & _ & _ & _ & _ & _ & _ & Hd0 & Hc).
      rewrite Hd in Hd0. injection Hd0 as <-.
      apply checkDate_Ok in Hc as [Hp' _]. rewrite Hp in Hp'. injection Hp' as ->.
      assert (F : negb (300000 <? Z.abs (now e - v_dateInst v)) = false).
      { apply negb_false_iff, Z.ltb_lt. exact Hstale. }
      destruct (authenticate' e req w) as [r w'] eqn:A. simpl.
      revert A. unfold authenticate, mbind, M_bind, lift, throw, call, guard, assertString, mret, M_ret.
      rewrite V, F.
      destruct (merchantConfig_get (v_credential v)) as [[[[key|]]|]|]; simpl;
        try (intros [= <- <-]; eauto).
      destruct (rsa_verify key _ _) as [[|]|]; simpl; intros [= <- <-]; eauto.
    - rewrite (authenticate_validate_Err e req w err V). eauto. }
  destruct R as (err & A & Hc). exists err.
  split; [exact A |]. split; [exact Hc |]. apply (middleware_rejects e req w err A).
Qed.

Local Abbreviation checkedBeforeReplay' :=
  (checkedBeforeReplay URL_parse localeCompare Date_parse merchantConfig_get rsa_verify).

(** C4, amended.  The replay guard is consulted once when validation, the
    tenant's key, the signature and the freshness check have all succeeded,
    and not at all otherwise; the cache changes only through that call.  The
    parsing of the body is not among these checks: it comes after the
    replay check. *)
Theorem replay_guard_consulted (e : Env) (req : HttpHandlerReq) (w : World C Json) :
  List.filter isNonceControllerAdd (trace (authenticate' e req w).2)
  = (List.filter isNonceControllerAdd (trace w) ++
     match checkedBeforeReplay' e req with
     | Some v => [NonceControllerAdd (v_credential v) (v_nonce v) (idempotentVerb (method req))]
     | None => []
     end)%list
  /\ configCache (authenticate' e req w).2
     = match checkedBeforeReplay' e req with
       | Some v =>
           (NonceController.add e (v_credential v) (v_nonce v) (idempotentVerb (method req))
              (configCache w)).2
       | None => configCache w
       end.
Proof.
  unfold checkedBeforeReplay.
  destruct (validate' req) as [v|err] eqn:V.
  2:{ rewrite (authenticate_validate_Err e req w err V). simpl.
      split; [symmetry; apply app_nil_r | reflexivity]. }
  rewrite Z.leb_antisym.
  unfold authenticate, mbind, M_bind, lift, throw, call, catchAll, assert, nonceControllerAdd,
    dataSet, guard, assertString, mret, M_ret.
  rewrite V. simpl.
  destruct (merchantConfig_get (v_credential v)) as [[[[key|]]|]|]; simpl;
    rewrite ?List.filter_app; simpl; rewrite ?app_nil_r; try (split; reflexivity).
  destruct (rsa_verify key _ _) as [[|]|]; simpl;
    rewrite ?List.filter_app; simpl; rewrite ?app_nil_r; try (split; reflexivity).
  destruct (negb (300000 <? Z.abs (now e - v_dateInst v))); simpl;
    rewrite ?List.filter_app; simpl; rewrite ?app_nil_r; try (split; reflexivity).
  destruct (NonceController.add e (v_credential v) (v_nonce v) (idempotentVerb (method req))
              (configCache w)) as [[[|]|err] c']; simpl;
    rewrite ?List.filter_app; simpl; rewrite ?app_nil_r; try (split; reflexivity).
  destruct (0 <? Js.slength (v_reqBody v)); simpl.
  - destruct (JSON_parse (v_reqBody v)) as [j|]; simpl;
      rewrite ?List.filter_app; simpl; rewrite ?app_nil_r; try (split; reflexivity).
    destruct (dataStorage w !! "httpAuthentication") as [[pl [|]]|]; simpl;
      rewrite ?List.filter_app; simpl; rewrite ?app_nil_r; split; reflexivity.
  - destruct (dataStorage w !! "httpAuthentication") as [[pl [|]]|]; simpl;
      rewrite ?List.filter_app; simpl; rewrite ?app_nil_r; split; reflexivity.
Qed.

(** The exceptions of the pure part respect the table of codes. *)
Lemma parseAuthorization_coded (req : HttpHandlerReq) (err : Thrown) :
  parseAuthorization req = Err err -> coded err.
Proof. unfold parseAuthorization. intros E. res_cases; reflexivity. Qed.

Lemma addCredentialField_coded (p : Res (gmap string string)) (fld : string) (err : Thrown) :
  (forall err0, p = Err err0 -> coded err0) ->
  addCredentialField p fld = Err err -> coded err.
Proof.
  unfold addCredentialField. intros Hp E. res_cases; try reflexivity.
  apply Hp. reflexivity.
Qed.

Lemma credentialFields_coded (l : list string) :
  forall (p : Res (gmap string string)) (err : Thrown),
    (forall err0, p = Err err0 -> coded err0) ->
    fold_left addCredentialField l p = Err err -> coded err.
Proof.
  induction l as [|fld l IH]; intros p err Hp E; simpl in E.
  - apply Hp, E.
  - apply (IH (addCredentialField p fld) err); [| exact E].
    intros err0 E0. apply (addCredentialField_coded p fld err0 Hp E0).
Qed.

Lemma collectHeaders_coded (full : gset string) (raw : list string) :
  forall st (err : Thrown), collectHeaders full st raw = Err err -> coded err.
Proof.
  induction raw as [raw IH] using (induction_ltof1 _ (@length string)).
  intros st err E. destruct raw as [|n0 [|v0 rest]]; simpl in E; try discriminate E.
  destruct (collectHeader full st n0 v0) as [st'|err0] eqn:E0; simpl in E.
  - apply (IH rest) with (st := st'); [unfold ltof; simpl; lia | exact E].
  - injection E as <-. destruct (collectHeader_Err _ _ _ _ _ E0) as [f ->].
    unfold collectHeader in E0. destruct st as [set hr]. res_cases; reflexivity.
Qed.

Lemma checkDate_coded (d : string) (err : Thrown) :
  checkDate Date_parse d = Err err -> coded err.
Proof.
  unfold checkDate, mbind, Res_bind, res_bind, guard.
  destruct (Date_parse d); [| intros [= <-]; reflexivity].
  destruct (CONST_ISO8601_REGEX d) as [[|]|];
    destruct (bool_decide _); intros [= <-]; reflexivity.
Qed.

Lemma parseCredentialFields_coded (creds : string) (err : Thrown) :
  parseCredentialFields creds = Err err -> coded err.
Proof.
  unfold parseCredentialFields. intros E.
  destruct (fold_left addCredentialField (Js.split "," creds) (Ok ∅)) as [fields|err0] eqn:F.
  - res_cases; reflexivity.
  - simpl in E. injection E as <-.
    revert F. apply credentialFields_coded. intros e0 E0. discriminate E0.
Qed.

Lemma validate_coded (req : HttpHandlerReq) (err : Thrown) :
  validate' req = Err err -> coded err.
Proof.
  unfold validate. intros E.
  destruct (parseAuthorization req) as [creds|e0] eqn:E0;
    [| simpl in E; injection E as <-; apply (parseAuthorization_coded req), E0].
  simpl in E.
  destruct (parseCredentialFields creds) as [[[cred sh] sig]|e1] eqn:E1;
    [| simpl in E; injection E as <-; apply (parseCredentialFields_coded creds), E1].
  simpl in E. res_unfold.
  destruct (bool_decide _); [| injection E as <-; reflexivity].
  destruct (URL_parse (fullUrl req)) as [url|]; [| injection E as <-; exact I].
  destruct (Nat.even _); [| injection E as <-; exact I].
  destruct (collectHeaders _ _ _) as [[set hr]|e2] eqn:E2;
    [| injection E as <-; apply (collectHeaders_coded _ _ _ _ E2)].
  destruct (bool_decide (size set = 0%nat)); [| injection E as <-; reflexivity].
  destruct (bool_decide (_ = sh)); [| injection E as <-; reflexivity].
  destruct (headers req !! "x-fomopay-nonce") as [nonce|]; [| injection E as <-; reflexivity].
  destruct (nonceRegex nonce); [| injection E as <-; reflexivity].
  destruct (headers req !! "x-fomopay-content-sha256") as [sha|];
    [| injection E as <-; reflexivity].
  destruct (bool_decide (sha = _)); [| injection E as <-; reflexivity].
  destruct (headers req !! "x-fomopay-date") as [d|]; [| injection E as <-; reflexivity].
  destruct (checkDate Date_parse d) as [t|e3] eqn:E3;
    [| injection E as <-; apply (checkDate_coded d), E3].
  destruct (canonicalQueryString _ _); [discriminate E | injection E as <-; exact I].
Qed.

Lemma authenticate_coded (e : Env) (req : HttpHandlerReq) (w : World C Json) (err : Thrown) :
  (authenticate' e req w).1 = Err err -> coded err.
Proof.
  destruct (validate' req) as [v|err0] eqn:V.
  2:{ rewrite (authenticate_validate_Err e req w err0 V). simpl.
      intros [= <-]. apply (validate_coded req), V. }
  unfold authenticate, mbind, M_bind, lift, throw, call, catchAll, assert, nonceControllerAdd,
    dataSet, guard, assertString, mret, M_ret.
  rewrite V. simpl.
  destruct (merchantConfig_get (v_credential v)) as [[[[key|]]|]|]; simpl;
    try (intros [= <-]; reflexivity).
  destruct (rsa_verify key _ _) as [[|]|]; simpl; try (intros [= <-]; (reflexivity || exact I)).
  destruct (negb (300000 <? Z.abs (now e - v_dateInst v))); simpl;
    try (intros [= <-]; reflexivity).
  destruct (NonceController.add e (v_credential v) (v_nonce v) (idempotentVerb (method req))
              (configCache w)) as [[[|]|err1] c']; simpl;
    try (intros [= <-]; reflexivity).
  destruct (0 <? Js.slength (v_reqBody v)); simpl.
  - destruct (JSON_parse (v_reqBody v)) as [j|]; simpl; try (intros [= <-]; reflexivity).
    destruct (dataStorage w !! "httpAuthentication") as [[pl [|]]|]; simpl;
      intros E; try discriminate E; injection E as <-; exact I.
  - destruct (dataStorage w !! "httpAuthentication") as [[pl [|]]|]; simpl;
      intros E; try discriminate E; injection E as <-; exact I.
Qed.

(** C5, amended.  Every [AuthError] raised by the verifier carries the code
    that the table assigns to its failure path, so the code of a path never
    changes; the table lists, for each code, the paths that carry it.  The
    codes [0x0001], [0x0003] to [0x0009], [0x0011], [0x0012] and [0x0018]
    belong to one path each; [0x0010], [0x0013] to [0x0017] and [0x0019] are
    shared. *)
Theorem error_codes (e : Env) (req : HttpHandlerReq) (w : World C Json) :
  match (authenticate' e req w).1 with
  | Err (AuthError c f) => c = errorCode f /\ In f (pathsWithCode c)
  | _ => True
  end
  /\ map (fun c => (c, pathsWithCode c))
       [0x0001; 0x0003; 0x0004; 0x0005; 0x0006; 0x0007; 0x0008; 0x0009; 0x0010; 0x0011;
        0x0012; 0x0013; 0x0014; 0x0015; 0x0016; 0x0017; 0x0018; 0x0019]
     = [(0x0001, [AuthorizationNotFound]);
        (0x0003, [CannotSplitAuthorization]);
        (0x0004, [UnsupportedAuthorizationType]);
        (0x0005, [InvalidCredentialsFormat]);
        (0x0006, [CredentialKeyTooShort]);
        (0x0007, [DuplicateCredentialKey]);
        (0x0008, [UnexpectedCredentialKeys]);
        (0x0009, [DuplicateSignedHeader]);
        (0x0010, [InvalidHeaderKey; CompulsoryHeaderNotSigned; DuplicateHttpHeader]);
        (0x0011, [SignedHeaderNotFound]);
        (0x0012, [SignedHeadersNotFormatted]);
        (0x0013, [NonceNotFound; DateNotFound]);
        (0x0014, [NonceInvalid; DateInvalid]);
        (0x0015, [ContentSha256NotFound; DateFormatBasic]);
        (0x0016, [PayloadHashMismatch; DateFormatFull]);
        (0x0017, [MerchantNotRegistered; MerchantKeyInvalid; SignatureInvalid]);
        (0x0018, [JsonUnparsable]);
        (0x0019, [TimestampOutOfRange; NonceRejected])].
Proof.
  split; [| reflexivity].
  destruct (authenticate' e req w).1 as [u|[c f|]] eqn:A; try exact I.
  pose proof (authenticate_coded e req w _ A) as Hc. simpl in Hc.
  split; [exact Hc |]. subst c. destruct f; vm_compute; tauto.
Qed.

End Verifier.

(** ** Idempotent verbs *)

Section IdempotentVerbs.
Import HttpAuthentication NonceController.

Lemma idempotent_passes_replay
    (C : Type) (I : IConfigCache Null C)
    (Json : Type) (URL_parse : string -> option ParsedUrl)
    (localeCompare : string -> string -> Z) (Date_parse : string -> option Z)
    (merchantConfig_get : string -> option (option Merchant))
    (rsa_verify : string -> string -> string -> option bool)
    (JSON_parse : string -> option Json)
    (e : Env) (req : HttpHandlerReq) (w : World C Json) (v : Validated) :
  (forall (s n : string) (c : C), (add e s n true c).1 = Ok true) ->
  checkedBeforeReplay URL_parse localeCompare Date_parse merchantConfig_get rsa_verify e req
  = Some v ->
  (method req = "GET" \/ method req = "HEAD") ->
  (authenticate Json URL_parse localeCompare Date_parse merchantConfig_get rsa_verify
     JSON_parse e req w).1 <> Err (AuthError 0x0019 NonceRejected).
Proof.
  intros Hadd Hc Hm.
  assert (Hi : idempotentVerb (method req) = true).
  { unfold idempotentVerb. destruct Hm as [-> | ->]; reflexivity. }
  unfold checkedBeforeReplay in Hc.
  unfold authenticate, mbind, M_bind, lift, throw, call, catchAll, assert, nonceControllerAdd,
    dataSet, guard, assertString, mret, M_ret.
  destruct (validate URL_parse localeCompare Date_parse req) as [v0|err]; [| discriminate Hc].
  simpl.
  destruct (merchantConfig_get (v_credential v0)) as [[[[key|]]|]|]; try discriminate Hc. simpl.
  destruct (rsa_verify key _ _) as [[|]|]; try discriminate Hc. simpl.
  rewrite Z.leb_antisym in Hc.
  destruct (negb (300000 <? Z.abs (now e - v_dateInst v0))); [| discriminate Hc]. simpl.
  rewrite Hi.
  pose proof (Hadd (v_credential v0) (v_nonce v0) (configCache w)) as A.
  destruct (add e (v_credential v0) (v_nonce v0) true (configCache w)) as [r c'].
  simpl in A. subst r. simpl.
  destruct (0 <? Js.slength (v_reqBody v0)); simpl.
  - destruct (JSON_parse (v_reqBody v0)) as [j|]; simpl; [| discriminate].
    destruct (dataStorage w !! "httpAuthentication") as [[pl [|]]|]; simpl; discriminate.
  - destruct (dataStorage w !! "httpAuthentication") as [[pl [|]]|]; simpl; discriminate.
Qed.

Lemma idempotentVerb_methods (m : string) :
  idempotentVerb m = bool_decide (m = "GET" \/ m = "HEAD").
Proof.
  unfold idempotentVerb.
  destruct (decide (m = "GET")) as [->|N1]; [reflexivity |].
  destruct (decide (m = "HEAD")) as [->|N2]; [reflexivity |].
  rewrite !bool_decide_eq_false_2; [reflexivity | tauto | assumption | assumption].
Qed.

(** The call that the verifier makes to the replay guard for a request
    that has passed the checks before it. *)
Lemma replay_check_call
    (C : Type) (I : IConfigCache Null C)
    (Json : Type) (URL_parse : string -> option ParsedUrl)
    (localeCompare : string -> string -> Z) (Date_parse : string -> option Z)
    (merchantConfig_get : string -> option (option Merchant))
    (rsa_verify : string -> string -> string -> option bool)
    (JSON_parse : string -> option Json)
    (e : Env) (req : HttpHandlerReq) (w : World C Json) (v : Validated) :
  checkedBeforeReplay URL_parse localeCompare Date_parse merchantConfig_get rsa_verify e req
  = Some v ->
  List.filter isNonceControllerAdd
    (trace (authenticate Json URL_parse localeCompare Date_parse merchantConfig_get rsa_verify
              JSON_parse e req w).2)
  = (List.filter isNonceControllerAdd (trace w)
     ++ [NonceControllerAdd (v_credential v) (v_nonce v) (idempotentVerb (method req))])%list.
Proof.
  intros Hc. unfold checkedBeforeReplay in Hc.
  unfold authenticate, mbind, M_bind, lift, throw, call, catchAll, assert, nonceControllerAdd,
    dataSet, guard, assertString, mret, M_ret.
  destruct (validate URL_parse localeCompare Date_parse req) as [v0|err]; [| discriminate Hc].
  simpl.
  destruct (merchantConfig_get (v_credential v0)) as [[[[key|]]|]|]; try discriminate Hc. simpl.
  destruct (rsa_verify key _ _) as [[|]|]; try discriminate Hc. simpl.
  rewrite Z.leb_antisym in Hc.
  destruct (negb (300000 <? Z.abs (now e - v_dateInst v0))); [| discriminate Hc]. simpl.
  injection Hc as <-.
  destruct (add e (v_credential v0) (v_nonce v0) (idempotentVerb (method req)) (configCache w))
    as [[[|]|err] c']; simpl;
    rewrite ?List.filter_app; simpl; rewrite ?app_nil_r; try reflexivity.
  destruct (0 <? Js.slength (v_reqBody v0)); simpl.
  - destruct (JSON_parse (v_reqBody v0)) as [j|]; simpl;
      rewrite ?List.filter_app; simpl; rewrite ?app_nil_r; try reflexivity.
    destruct (dataStorage w !! "httpAuthentication") as [[pl [|]]|]; simpl;
      rewrite ?List.filter_app; simpl; rewrite ?app_nil_r; reflexivity.
  - destruct (dataStorage w !! "httpAuthentication") as [[pl [|]]|]; simpl;
      rewrite ?List.filter_app; simpl; rewrite ?app_nil_r; reflexivity.
Qed.

(** C2, as stated, fails on the shared backend: [add(s, n, true)] answers
    [true] and stores nothing while the store does not answer, and also
    when the default TTL is not a whole number of seconds. *)
Lemma add_idempotent_stores_nothing :
  let add' := @add _ (Remote.impl Scenario.serializeNull Scenario.deserializeNull) in
  let key := token "merchant-1" Scenario.nonce1 in
  add' Cases.outage "merchant-1" Scenario.nonce1 true Scenario.remote0
  = (Ok true, Scenario.remote0)
  /\ Remote.optRedisClient Scenario.remote0 !! Remote.generateKey Scenario.remote0 key = None
  /\ add' Scenario.atTime1 "merchant-1" Scenario.nonce1 true Cases.remoteFraction
     = (Ok true, Cases.remoteFraction)
  /\ Remote.optRedisClient Cases.remoteFraction
       !! Remote.generateKey Cases.remoteFraction key = None.
Proof. vm_compute. repeat split; reflexivity. Qed.

(** C2, amended.  [add(s, n, true)] answers [true] whether or not the
    entry exists, on both backends and in every state, so a second call
    with the same tenant and nonce answers [true] again.  On the local
    backend it stores the entry, or replaces the one that is there, to
    expire one TTL after the current time.  On the shared backend it
    writes the entry, to expire [k] seconds later, when the store answers
    and the default TTL is a positive whole number [k] of seconds, and
    writes nothing when the store does not answer or the TTL is no such
    number.  The verifier calls [add] with [idempotent = true] exactly
    for the methods GET and HEAD, spelled so, and on either backend a GET
    or HEAD request that has passed the checks before the replay check is
    never rejected by it. *)
Theorem add_idempotent :
  (forall (e : Env) (s n : string) (c : Local.ConfigCache Null),
      add e s n true c =
      (Ok true,
       {| Local.optTtlMs := Local.optTtlMs c;
          Local.dataData :=
            <[token s n := {| Local.exp := Local.optTtlMs c + now e; Local.value := null |}]>
              (Local.dataData c);
          Local.wakeAt :=
            now e + Local.interval (now e)
                      (<[token s n := {| Local.exp := Local.optTtlMs c + now e;
                                         Local.value := null |}]> (Local.dataData c)) |}))
  /\
  (forall (serialize : Null -> string) (deserialize : string -> option Null)
          (e : Env) (s n : string) (c : Remote.ConfigCache),
      let add' := @add _ (Remote.impl serialize deserialize) in
      (add' e s n true c).1 = Ok true
      /\ (forall k : Z,
            storeAnswers e = true -> (Remote.optTtl c == inject_Z k)%Q -> 0 < k ->
            (add' e s n true c).2 = Remote_stored serialize e (token s n) k c)
      /\ (storeAnswers e = false
          \/ (forall k : Z, 0 < k -> ~ (Remote.optTtl c == inject_Z k)%Q) ->
          (add' e s n true c).2 = c))
  /\
  (forall (C : Type) (I : IConfigCache Null C)
          (Json : Type) (URL_parse : string -> option ParsedUrl)
          (localeCompare : string -> string -> Z) (Date_parse : string -> option Z)
          (merchantConfig_get : string -> option (option Merchant))
          (rsa_verify : string -> string -> string -> option bool)
          (JSON_parse : string -> option Json)
          (e : Env) (req : HttpHandlerReq) (w : World C Json) (v : Validated),
      checkedBeforeReplay URL_parse localeCompare Date_parse merchantConfig_get rsa_verify e req
      = Some v ->
      List.filter isNonceControllerAdd
        (trace (authenticate Json URL_parse localeCompare Date_parse merchantConfig_get
                  rsa_verify JSON_parse e req w).2)
      = (List.filter isNonceControllerAdd (trace w)
         ++ [NonceControllerAdd (v_credential v) (v_nonce v)
               (bool_decide (method req = "GET" \/ method req = "HEAD"))])%list)
  /\
  (forall (Json : Type) (URL_parse : string -> option ParsedUrl)
          (localeCompare : string -> string -> Z) (Date_parse : string -> option Z)
          (merchantConfig_get : string -> option (option Merchant))
          (rsa_verify : string -> string -> string -> option bool)
          (JSON_parse : string -> option Json)
          (e : Env) (req : HttpHandlerReq) (w : World (Local.ConfigCache Null) Json)
          (v : Validated),
      checkedBeforeReplay URL_parse localeCompare Date_parse merchantConfig_get rsa_verify e req
      = Some v ->
      (method req = "GET" \/ method req = "HEAD") ->
      (authenticate Json URL_parse localeCompare Date_parse merchantConfig_get rsa_verify
         JSON_parse e req w).1 <> Err (AuthError 0x0019 NonceRejected))
  /\
  (forall (serialize : Null -> string) (deserialize : string -> option Null)
          (Json : Type) (URL_parse : string -> option ParsedUrl)
          (localeCompare : string -> string -> Z) (Date_parse : string -> option Z)
          (merchantConfig_get : string -> option (option Merchant))
          (rsa_verify : string -> string -> string -> option bool)
          (JSON_parse : string -> option Json)
          (e : Env) (req : HttpHandlerReq) (w : World Remote.ConfigCache Json)
          (v : Validated),
      checkedBeforeReplay URL_parse localeCompare Date_parse merchantConfig_get rsa_verify e req
      = Some v ->
      (method req = "GET" \/ method req = "HEAD") ->
      (@authenticate _ (Remote.impl serialize deserialize) Json URL_parse localeCompare
         Date_parse merchantConfig_get rsa_verify JSON_parse e req w).1
      <> Err (AuthError 0x0019 NonceRejected)).
Proof.
  split; [apply add_true_local |]. split; [| split; [| split]].
  - intros ser deser e s n c add'. subst add'. rewrite add_remote. cbn [negb andb].
    split; [reflexivity |]. split.
    + intros k Hup Hk Hpos. cbn [snd].
      rewrite (Remote_set_stored ser e (token s n) null None c k Hup Hk Hpos). reflexivity.
    + intros Hno. cbn [snd]. rewrite Remote_set_not_stored by exact Hno. reflexivity.
  - intros C I Json URL_parse localeCompare Date_parse merchantConfig_get rsa_verify JSON_parse
      e req w v Hc.
    rewrite <- idempotentVerb_methods. apply replay_check_call, Hc.
  - intros Json URL_parse localeCompare Date_parse merchantConfig_get rsa_verify JSON_parse
      e req w v.
    apply idempotent_passes_replay. intros s n c. rewrite add_true_local. reflexivity.
  - intros ser deser Json URL_parse localeCompare Date_parse merchantConfig_get rsa_verify
      JSON_parse e req w v.
    apply (idempotent_passes_replay _ (Remote.impl ser deser)).
    intros s n c. rewrite add_remote. reflexivity.
Qed.

End IdempotentVerbs.

(** ** The verifier in the concrete world *)

Section VerifierExamples.
Import HttpAuthentication Scenario.

(** C4, as stated, fails: a request that passes every check up to the
    replay check and whose body, [{], is not a JSON document is rejected
    with [JsonUnparsable] after its nonce has been stored. *)
Lemma unparsable_body_consumes_nonce :
  let req := request "POST" nonce1 date1 "{" in
  outcome soon req world0 = Err (AuthError 0x0018 JsonUnparsable)
  /\ Local.get (NonceController.token "merchant-1" nonce1) (configCache world0) = None
  /\ Local.get (NonceController.token "merchant-1" nonce1) (configCache (run soon req world0))
     = Some null
  /\ trace (run soon req world0)
     = [MerchantConfigGet "merchant-1";
        VerifySignature merchantKey
          (CONST_AUTHORIZATION_TYPE +:+ LF +:+ date1 +:+ LF +:+ nonce1 +:+ LF +:+
           "dd39c150b01b7c691c67689ff9f3fb8082e7e191ed37536675676a650cf424ed")
          goodSignature;
        NonceControllerAdd "merchant-1" nonce1 false;
        JsonParse;
        Status401].
Proof. vm_compute. repeat split; reflexivity. Qed.

(** C5, as stated, fails: a stale timestamp and a replayed nonce are two
    failure paths with the one code [0x0019]. *)
Lemma stale_and_replay_share_code :
  let req := request "POST" nonce1 date1 chargeBody in
  outcome late req world0 = Err (AuthError 0x0019 TimestampOutOfRange)
  /\ outcome soon req world0 = Ok tt
  /\ outcome soon req (nextRequest (run soon req world0)) = Err (AuthError 0x0019 NonceRejected)
  /\ TimestampOutOfRange <> NonceRejected.
Proof. vm_compute. repeat split; try reflexivity. discriminate. Qed.

Lemma stale_timestamp_rejected_witness :
  exists err,
    (authenticate string URL_parse localeCompare Date_parse merchantConfig_get rsa_verify
       JSON_parse late (request "POST" nonce1 date1 chargeBody) world0).1 = Err err
    /\ configCache
         (authenticate string URL_parse localeCompare Date_parse merchantConfig_get rsa_verify
            JSON_parse late (request "POST" nonce1 date1 chargeBody) world0).2
       = configCache world0
    /\ Next ∉ drop (length (trace world0))
                 (trace (HttpAuthenticationMiddleware string URL_parse localeCompare Date_parse
                           merchantConfig_get rsa_verify JSON_parse late
                           (request "POST" nonce1 date1 chargeBody) world0)).
Proof.
  apply (stale_timestamp_rejected string URL_parse localeCompare Date_parse merchantConfig_get
           rsa_verify JSON_parse late (request "POST" nonce1 date1 chargeBody) world0
           date1 time1).
  - vm_compute. reflexivity.
  - reflexivity.
  - vm_compute. reflexivity.
Defined.

Lemma date_header_canonical_witness :
  exists d t,
    headers (request "POST" nonce1 date1 chargeBody) !! "x-fomopay-date" = Some d
    /\ Date_parse d = Some t
    /\ ((CONST_ISO8601_REGEX d <> Some true /\ getIso8601Time t = d)
        \/ Date.toISOString t = d)
    /\ (forall d' t',
          checkDate Date_parse d' = Ok t' <->
          Date_parse d' = Some t'
          /\ ((CONST_ISO8601_REGEX d' <> Some true /\ getIso8601Time t' = d')
              \/ (CONST_ISO8601_REGEX d' = Some true /\ Date.toISOString t' = d'))).
Proof.
  apply (date_header_canonical string URL_parse localeCompare Date_parse merchantConfig_get
           rsa_verify JSON_parse soon (request "POST" nonce1 date1 chargeBody) world0).
  vm_compute. reflexivity.
Defined.

Lemma compulsory_header_unsigned_witness :
  exists err,
    validate URL_parse localeCompare Date_parse hostUnsigned = Err err
    /\ authenticate string URL_parse localeCompare Date_parse merchantConfig_get rsa_verify
         JSON_parse soon hostUnsigned world0 = (Err err, world0)
    /\ List.filter isVerifySignature
         (trace (HttpAuthenticationMiddleware string URL_parse localeCompare Date_parse
                   merchantConfig_get rsa_verify JSON_parse soon hostUnsigned world0))
       = List.filter isVerifySignature (trace world0)
    /\ Next ∉ drop (length (trace world0))
                 (trace (HttpAuthenticationMiddleware string URL_parse localeCompare Date_parse
                           merchantConfig_get rsa_verify JSON_parse soon hostUnsigned world0)).
Proof.
  apply (compulsory_header_unsigned string URL_parse localeCompare Date_parse
           merchantConfig_get rsa_verify JSON_parse soon hostUnsigned world0 0 "Host").
  - reflexivity.
  - reflexivity.
  - intros sh E. vm_compute in E. injection E as <-.
    change (Js.toLowerCase "Host") with "host".
    rewrite !elem_of_cons, elem_of_nil. intuition discriminate.
Defined.

Example idempotent_requests_reuse_nonce :
  let req := request "GET" nonce1 date1 "" in
  outcome soon req world0 = Ok tt
  /\ outcome soon req (nextRequest (run soon req world0)) = Ok tt.
Proof. vm_compute. split; reflexivity. Qed.

Lemma add_idempotent_witness :
  (authenticate string URL_parse localeCompare Date_parse merchantConfig_get rsa_verify
     JSON_parse soon (request "GET" nonce1 date1 "")
     (nextRequest (run soon (request "GET" nonce1 date1 "") world0))).1
  <> Err (AuthError 0x0019 NonceRejected).
Proof.
  eapply (proj1 (proj2 (proj2 (proj2 add_idempotent))) string URL_parse localeCompare
            Date_parse merchantConfig_get rsa_verify JSON_parse soon
            (request "GET" nonce1 date1 "")).
  - vm_compute. reflexivity.
  - left. reflexivity.
Defined.

End VerifierExamples.

(** * Further properties *)

(** ** The local cache *)

Section LocalCacheMore.
Context {V : Type}.

Lemma Local_interval_least (t lo : Z) (d : gmap string (Local.Item V)) :
  lo <= 2147483647 ->
  (forall k it, d !! k = Some it -> lo <= Z.max (Local.exp it - t + 1000) 0) ->
  lo <= Local.interval t d.
Proof.
  unfold Local.interval. intros Hcap.
  apply (map_fold_weak_ind
           (fun r (m : gmap string (Local.Item V)) =>
              (forall k it, m !! k = Some it -> lo <= Z.max (Local.exp it - t + 1000) 0) ->
              lo <= r)).
  - intros _. exact Hcap.
  - intros i x m r Hi IH Hall.
    assert (lo <= r).
    { apply IH. intros k it E. apply (Hall k it).
      rewrite lookup_insert_ne; [exact E |]. intros ->. rewrite Hi in E. discriminate E. }
    pose proof (Hall i x (lookup_insert_eq m i x)). lia.
Qed.

(** What the waiter leaves of an entry when it is given the chance to run
    at the instant [t]. *)
Lemma Local_wake_lookup (t : Z) (key : string) (c : Local.ConfigCache V) :
  Local.dataData (Local.wake t c) !! key =
  if Local.wakeAt c <=? t then
    match Local.dataData c !! key with
    | Some it => if t <? Local.exp it then Some it else None
    | None => None
    end
  else Local.dataData c !! key.
Proof.
  unfold Local.wake. destruct (Local.wakeAt c <=? t); [| reflexivity]. simpl.
  destruct (Local.dataData c !! key) as [it|] eqn:E.
  - destruct (t <? Local.exp it) eqn:T.
    + apply Z.ltb_lt in T. apply Local_purge_lookup. auto.
    + apply Z.ltb_ge in T.
      destruct (Local.purge t (Local.dataData c) !! key) as [it'|] eqn:P; [| reflexivity].
      apply Local_purge_lookup in P as [P1 P2]. rewrite E in P1. injection P1 as <-. lia.
  - destruct (Local.purge t (Local.dataData c) !! key) as [it'|] eqn:P; [| reflexivity].
    apply Local_purge_lookup in P as [P1 _]. rewrite E in P1. discriminate P1.
Qed.

(** X1. Local backend, [set] then [get]: a defined value stored under a key
    other than [__proto__] is what [get] returns for that key afterwards,
    whatever the TTL options; every other key reads as before; and
    [undefined] is refused with an exception. *)
Theorem local_set_get (e : Env) (key : string) (v : V) (o : option IConfigCacheAddOptions)
    (c : Local.ConfigCache V) :
  key <> "__proto__" ->
  exists c',
    Local.set e key (Some v) o c = Ok c'
    /\ Local.get key c' = Some v
    /\ (forall k, k <> key -> Local.get k c' = Local.get k c)
    /\ Local.set e key None o c = Err OtherError.
Proof.
  intros Hk. unfold Local.set, Obj.assign.
  rewrite bool_decide_eq_false_2 by exact Hk.
  eexists. split; [reflexivity |]. rewrite Local_get_lookup. simpl.
  rewrite lookup_insert_eq. split; [reflexivity |]. split; [| reflexivity].
  intros k Hne. rewrite !Local_get_lookup. simpl.
  rewrite lookup_insert_ne by (intros E; apply Hne; symmetry; exact E). reflexivity.
Qed.

(** X2. Local backend, [del]: after [del(key)] the key reads as absent,
    every other key reads as before, and the waiter keeps its schedule
    ([del] does not cancel the timer). *)
Theorem local_del_get (key : string) (c : Local.ConfigCache V) :
  Local.get key (Local.del key c) = None
  /\ (forall k, k <> key -> Local.get k (Local.del key c) = Local.get k c)
  /\ Local.wakeAt (Local.del key c) = Local.wakeAt c.
Proof.
  split; [| split; [| reflexivity]].
  - rewrite Local_get_lookup. simpl. rewrite lookup_delete_eq. reflexivity.
  - intros k Hne. rewrite !Local_get_lookup. simpl.
    rewrite lookup_delete_ne by (intros E; apply Hne; symmetry; exact E). reflexivity.
Qed.

(** X3. Local backend, purge: when the waiter runs at an instant [t] at
    which it is due, [get] afterwards returns the value of an entry exactly
    when the entry expires after [t] (an entry with [exp = t] is removed);
    when the waiter is not yet due, nothing changes. *)
Theorem local_wake_get (t : Z) (key : string) (c : Local.ConfigCache V) :
  Local.get key (Local.wake t c) =
  if Local.wakeAt c <=? t then
    match Local.dataData c !! key with
    | Some it => if t <? Local.exp it then Some (Local.value it) else None
    | None => None
    end
  else Local.get key c.
Proof.
  rewrite !Local_get_lookup, Local_wake_lookup.
  destruct (Local.wakeAt c <=? t); [| reflexivity].
  destruct (Local.dataData c !! key) as [it|]; [| reflexivity].
  destruct (t <? Local.exp it); reflexivity.
Qed.

(** X4. Local backend, the waiter never spins: after it has run at an
    instant [t] at which it was due, it is next due more than one second
    later, since every entry left expires after [t]; and after a [set] at
    [now] it is due at [now] at the earliest. *)
Theorem local_waiter_schedule :
  (forall (t : Z) (c : Local.ConfigCache V),
      Local.wakeAt c <= t -> t + 1000 < Local.wakeAt (Local.wake t c))
  /\ (forall (e : Env) (key : string) (v : V) (o : option IConfigCacheAddOptions)
             (c c' : Local.ConfigCache V),
        Local.set e key (Some v) o c = Ok c' -> now e <= Local.wakeAt c').
Proof.
  split.
  - intros t c Hdue. unfold Local.wake. rewrite (proj2 (Z.leb_le _ _) Hdue). simpl.
    assert (1001 <= Local.interval t (Local.purge t (Local.dataData c))); [| lia].
    apply Local_interval_least; [lia |].
    intros k it E. apply Local_purge_lookup in E as [_ Hlt]. lia.
  - intros e key v o c c' S. unfold Local.set in S. injection S as <-. simpl.
    match goal with
    | |- _ <= _ + Local.interval ?t ?d => pose proof (Local_interval_bound t d) as [B _]
    end.
    lia.
Qed.

End LocalCacheMore.

(** ** The remote cache *)

Section RemoteCacheMore.

Lemma app_nil_r_string (a : string) : a +:+ "" = a.
Proof.
  induction a as [|x a IH]; [reflexivity |].
  rewrite app_cons_string, IH. reflexivity.
Qed.

Lemma encodeURIComponent_slash_inj (a b r1 r2 : string) :
  Js.encodeURIComponent a +:+ "/" +:+ r1 = Js.encodeURIComponent b +:+ "/" +:+ r2 ->
  a = b /\ r1 = r2.
Proof.
  revert b. induction a as [|x a IH]; intros [|y b] E; simpl in E;
    rewrite ?app_nil_string, ?app_assoc_string in E.
  - rewrite !app_cons_string, !app_nil_string in E. injection E as E.
    split; [reflexivity | exact E].
  - exfalso. apply (f_equal Js.decodeHead) in E.
    rewrite decodeHead_encodeChar in E. discriminate E.
  - exfalso. apply (f_equal Js.decodeHead) in E.
    rewrite decodeHead_encodeChar in E. discriminate E.
  - apply (f_equal Js.decodeHead) in E.
    rewrite !decodeHead_encodeChar in E.
    injection E as -> E.
    destruct (IH b E) as [-> ->]. split; reflexivity.
Qed.

Lemma Remote_generateKey_create (ttl0 : Q) (st : gmap string Redis.Entry)
    (project scope key : string) :
  Remote.generateKey (Remote.create ttl0 st project scope) key =
  "ConfigCache/" +:+ (Js.encodeURIComponent project +:+ "/" +:+
                      (Js.encodeURIComponent scope +:+ "/" +:+ Js.encodeURIComponent key)).
Proof.
  unfold Remote.generateKey, Remote.create. simpl.
  rewrite app_nil_r_string, !app_assoc_string. reflexivity.
Qed.

Lemma Remote_generateKey_inj (c : Remote.ConfigCache) (k1 k2 : string) :
  Remote.generateKey c k1 = Remote.generateKey c k2 -> k1 = k2.
Proof.
  unfold Remote.generateKey. intros E.
  apply (String.app_inj _) in E. apply encodeURIComponent_inj, E.
Qed.

Lemma Remote_key_inj (t1 t2 : Q) (st1 st2 : gmap string Redis.Entry) (p1 s1 k1 p2 s2 k2 : string) :
  Remote.generateKey (Remote.create t1 st1 p1 s1) k1
  = Remote.generateKey (Remote.create t2 st2 p2 s2) k2 ->
  p1 = p2 /\ s1 = s2 /\ k1 = k2.
Proof.
  rewrite !Remote_generateKey_create. intros E.
  apply (String.app_inj _) in E.
  apply encodeURIComponent_slash_inj in E as [-> E].
  apply encodeURIComponent_slash_inj in E as [-> E].
  apply encodeURIComponent_inj in E. auto.
Qed.

Context {V : Type}.
Variable serialize : V -> string.
Variable deserialize : string -> option V.

(** X5. Remote backend, store keys: the key under which a cache stores an
    entry determines the project, the scope and the key of the entry, so
    two caches that share a store and differ in project or scope, or two
    keys of one cache, never meet: a [set] or a [del] through one cache
    leaves what the other reads as it was. *)
Theorem remote_key_injective :
  (forall (t1 t2 : Q) (st1 st2 : gmap string Redis.Entry) (p1 s1 k1 p2 s2 k2 : string),
      Remote.generateKey (Remote.create t1 st1 p1 s1) k1
      = Remote.generateKey (Remote.create t2 st2 p2 s2) k2 ->
      p1 = p2 /\ s1 = s2 /\ k1 = k2)
  /\ (forall (e e' : Env) (t1 t2 : Q) (st : gmap string Redis.Entry)
             (p1 s1 k1 p2 s2 k2 : string) (v : V) (o : option IConfigCacheAddOptions),
        (p1, s1, k1) <> (p2, s2, k2) ->
        let c1 := Remote.create t1 st p1 s1 in
        let c2 := Remote.create t2 st p2 s2 in
        let st' := Remote.optRedisClient
                     (afterSet (Remote.set serialize e k1 (Some v) o c1) c1) in
        let st'' := Remote.optRedisClient (Remote.del e k1 c1) in
        Remote.get deserialize e' k2 (Remote.with_client c2 st') = Remote.get deserialize e' k2 c2
        /\ Remote.get deserialize e' k2 (Remote.with_client c2 st'')
           = Remote.get deserialize e' k2 c2).
Proof.
  split; [exact Remote_key_inj |].
  intros e e' t1 t2 st p1 s1 k1 p2 s2 k2 v o Hne c1 c2 st' st''.
  assert (Kne : Remote.generateKey c1 k1 <> Remote.generateKey c2 k2).
  { intros K. apply Remote_key_inj in K as (-> & -> & ->). apply Hne. reflexivity. }
  split.
  - unfold Remote.get, Redis.get. rewrite Remote_generateKey_with_client.
    destruct (storeAnswers e'); [| reflexivity].
    subst st'. unfold Remote.set.
    destruct (Qle_bool _ 0); [reflexivity |].
    unfold Redis.setex.
    destruct (_ && _ && _); [| reflexivity]. simpl.
    rewrite lookup_insert_ne by exact Kne. reflexivity.
  - unfold Remote.get, Redis.get. rewrite Remote_generateKey_with_client.
    destruct (storeAnswers e'); [| reflexivity].
    subst st''. unfold Remote.del, Redis.del.
    destruct (storeAnswers e); [| reflexivity]. simpl.
    rewrite lookup_delete_ne by exact Kne. reflexivity.
Qed.

(** X6. Remote backend, [set] then [get]: when the store answers, the
    computed expiration is a positive whole number [n] of seconds and the
    serialization can be read back, [set] succeeds, [get] of the key
    returns the value up to [n] seconds after the [set] and nothing after
    that, and the other keys of the cache read as before. *)
Theorem remote_set_get (e e' : Env) (key : string) (v : V)
    (o : option IConfigCacheAddOptions) (c : Remote.ConfigCache) (n : Z) :
  storeAnswers e = true ->
  storeAnswers e' = true ->
  (Remote_expiration e o c == inject_Z n)%Q ->
  0 < n ->
  deserialize (serialize v) = Some v ->
  exists c',
    Remote.set serialize e key (Some v) o c = Ok c'
    /\ Remote.get deserialize e' key c'
       = (if now e' <=? now e + 1000 * n then Some v else None)
    /\ (forall k, k <> key -> Remote.get deserialize e' k c' = Remote.get deserialize e' k c).
Proof.
  intros Hup Hup' Hexp Hpos Hser.
  eexists. split; [apply (Remote_set_stored serialize e key v o c n Hup Hexp Hpos) |].
  unfold Remote.get, Redis.get. rewrite Hup'. split.
  - rewrite Remote_generateKey_with_client. simpl. rewrite lookup_insert_eq. simpl.
    destruct (now e' <=? now e + 1000 * n); [exact Hser | reflexivity].
  - intros k Hne. rewrite Remote_generateKey_with_client. simpl.
    rewrite lookup_insert_ne; [reflexivity |].
    intros K. apply Remote_generateKey_inj in K. apply Hne. symmetry. exact K.
Qed.

(** X7. Remote backend, [del]: when the store answers, the key reads as
    absent after [del(key)], at any later time and whatever the store then
    does, and the other keys of the cache read as before. *)
Theorem remote_del_get (e e' : Env) (key : string) (c : Remote.ConfigCache) :
  storeAnswers e = true ->
  Remote.get deserialize e' key (Remote.del e key c) = None
  /\ (forall k, k <> key ->
        Remote.get deserialize e' k (Remote.del e key c) = Remote.get deserialize e' k c).
Proof.
  intros Hup. unfold Remote.del, Redis.del. rewrite Hup. split.
  - unfold Remote.get, Redis.get. rewrite Remote_generateKey_with_client. simpl.
    rewrite lookup_delete_eq. destruct (storeAnswers e'); reflexivity.
  - intros k Hne. unfold Remote.get, Redis.get. rewrite Remote_generateKey_with_client. simpl.
    rewrite lookup_delete_ne; [reflexivity |].
    intros K. apply Remote_generateKey_inj in K. apply Hne. symmetry. exact K.
Qed.

(** X8. Remote backend, absolute expiry: with [{ttl: T, absolute: true}]
    and a store that answers, an entry whose rounded remaining life is a
    positive number [n] of seconds is stored to expire [n] seconds after
    the current time, which is within 500.002 ms of the instant [T] (in
    seconds since the epoch) for a clock below 2^43 ms and an instant
    below 2^34 s: the remaining life is rounded to whole seconds, after two
    operations on doubles that are each off by at most 2^-20 s. *)
Theorem remote_absolute_expiry (e : Env) (key : string) (v : V) (T : Q)
    (c : Remote.ConfigCache) :
  storeAnswers e = true ->
  0 <= now e < 2 ^ 43 ->
  (T < inject_Z (2 ^ 34))%Q ->
  let n := Math_round (Double.fl (T - Double.fl (inject_Z (now e) / 1000))) in
  0 < n ->
  exists en,
    Remote.set serialize e key (Some v) (Some {| ttl := T; absolute := true |}) c
    = Ok (Remote.with_client c (<[Remote.generateKey c key := en]> (Remote.optRedisClient c)))
    /\ Redis.payload en = serialize v
    /\ Redis.expireAt en = now e + 1000 * n
    /\ (- (500 + (1 # 500)) < inject_Z (Redis.expireAt en) - 1000 * T)%Q
    /\ (inject_Z (Redis.expireAt en) - 1000 * T <= 500 + (1 # 500))%Q.
Proof.
  intros Hup Hnow HT n Hpos.
  exists {| Redis.payload := serialize v; Redis.expireAt := now e + 1000 * n |}.
  split; [| split; [reflexivity | split; [reflexivity |]]].
  - apply (Remote_set_stored serialize e key v (Some {| ttl := T; absolute := true |}) c n Hup);
      [reflexivity | exact Hpos].
  - cbn [Redis.expireAt]. rewrite inject_Z_plus, inject_Z_mult.
    change (inject_Z 1000) with 1000%Q.
    set (a := (inject_Z (now e) / 1000)%Q) in *.
    assert (Ha : (1000 * a == inject_Z (now e))%Q) by (subst a; field).
    assert (Ha0 : (0 <= a)%Q).
    { assert (0 <= inject_Z (now e))%Q; [| lra].
      change 0%Q with (inject_Z 0). rewrite <- Zle_Qle. lia. }
    assert (Ha1 : (a < inject_Z (2 ^ 34))%Q).
    { assert (inject_Z (now e) < inject_Z (2 ^ 43))%Q by (rewrite <- Zlt_Qlt; lia).
      change (inject_Z (2 ^ 43)) with 8796093022208%Q in *.
      change (inject_Z (2 ^ 34)) with 17179869184%Q. lra. }
    assert (P34 : (Double.pow2 (33 + 1) == inject_Z (2 ^ 34))%Q) by reflexivity.
    assert (P20 : (Double.pow2 (33 - 53) == 1 # 1048576)%Q) by reflexivity.
    assert (Ea : (Qabs (Double.fl a - a) <= Double.pow2 (33 - 53))%Q).
    { apply fl_error; [| lia]. rewrite Qabs_pos by exact Ha0. rewrite P34. exact Ha1. }
    pose proof (fl_nonneg a Ha0) as Hfa.
    set (a' := Double.fl a) in *.
    set (d := (T - a')%Q) in *.
    assert (Hd0 : (0 < d)%Q).
    { apply Qnot_le_lt. intros L. apply fl_nonpos in L.
      assert (n <= 0); [| lia]. subst n. unfold Math_round.
      change 0 with (Qfloor (1 # 2)). apply Qfloor_resp_le. lra. }
    assert (Ed : (Qabs (Double.fl d - d) <= Double.pow2 (33 - 53))%Q).
    { apply fl_error; [| lia]. rewrite Qabs_pos by lra. rewrite P34. subst d. lra. }
    rewrite P20 in Ea, Ed.
    apply Qabs_Qle_condition in Ea, Ed.
    pose proof (Qfloor_le (Double.fl d + (1 # 2))) as Lo.
    pose proof (Qlt_floor (Double.fl d + (1 # 2))) as Hi.
    rewrite inject_Z_plus in Hi. change (inject_Z 1) with 1%Q in Hi.
    change (Qfloor (Double.fl d + (1 # 2))) with n in Lo, Hi.
    set (nq := inject_Z n) in *. set (fd := Double.fl d) in *.
    clearbody nq fd a'. subst d. rewrite <- Ha.
    split; lra.
Qed.

End RemoteCacheMore.

(** ** The replay guard over time *)

Section ReplayGuardMore.
Import NonceController.

Lemma add_true_stored (e : Env) (s n : string) (idem : bool) (c : Local.ConfigCache Null) :
  (add e s n idem c).1 = Ok true -> (add e s n idem c).2 = Local_stored e (token s n) c.
Proof.
  destruct idem.
  - rewrite add_true_local. reflexivity.
  - rewrite add_false_local. destruct (Local.dataData c !! token s n); [discriminate | reflexivity].
Qed.

(** The entry that an accepted pair leaves, seen after the waiter has been
    given the chance to run at the instant [t]. *)
Lemma add_true_wake (e : Env) (t : Z) (s n : string) (idem : bool)
    (c : Local.ConfigCache Null) :
  (add e s n idem c).1 = Ok true ->
  Local.dataData (Local.wake t (add e s n idem c).2) !! token s n =
  if (Local.wakeAt (add e s n idem c).2 <=? t) && (Local.optTtlMs c + now e <=? t)
  then None
  else Some {| Local.exp := Local.optTtlMs c + now e; Local.value := null |}.
Proof.
  intros A. rewrite (add_true_stored e s n idem c A), Local_wake_lookup.
  set (c' := Local_stored e (token s n) c).
  assert (L : Local.dataData c' !! token s n
              = Some {| Local.exp := Local.optTtlMs c + now e; Local.value := null |}).
  { apply lookup_insert_eq. }
  rewrite L. simpl Local.exp.
  destruct (Local.wakeAt c' <=? t); [| reflexivity]. simpl.
  rewrite Z.leb_antisym. destruct (t <? Local.optTtlMs c + now e); reflexivity.
Qed.

(** X10. Replay guard on the local backend, over time: once [add] has
    accepted a pair, a later non-idempotent [add] of the same pair is
    refused, and leaves the cache as it is, until the waiter has run at an
    instant at or after the expiration of the entry (one TTL after the
    first call); from then on the pair is accepted again. *)
Theorem nonce_replay_local (e e' : Env) (t : Z) (s n : string) (idem : bool)
    (c : Local.ConfigCache Null) :
  (add e s n idem c).1 = Ok true ->
  let c' := (add e s n idem c).2 in
  let purged := (Local.wakeAt c' <=? t) && (Local.optTtlMs c + now e <=? t) in
  (add e' s n false (Local.wake t c')).1 = Ok purged
  /\ (purged = false -> (add e' s n false (Local.wake t c')).2 = Local.wake t c').
Proof.
  intros A c' purged. subst c' purged.
  rewrite add_false_local, (add_true_wake e t s n idem c A).
  destruct ((Local.wakeAt (add e s n idem c).2 <=? t) && (Local.optTtlMs c + now e <=? t)).
  - split; [reflexivity | discriminate].
  - split; reflexivity.
Qed.

Variable serialize : Null -> string.
Variable deserialize : string -> option Null.

(** X11. Replay guard on the remote backend, over time: with a store
    that answers, a default TTL that is a positive whole number [k] of
    seconds and a serialization of [null] that can be read back, once
    [add] has accepted a pair, a later non-idempotent [add] of the same
    pair is refused up to [k] seconds after the first call, leaving the
    cache as it is, and accepted again after that. *)
Theorem nonce_replay_remote (e e' : Env) (s n : string) (idem : bool)
    (c : Remote.ConfigCache) (k : Z) :
  storeAnswers e = true ->
  storeAnswers e' = true ->
  (Remote.optTtl c == inject_Z k)%Q ->
  0 < k ->
  deserialize (serialize null) = Some null ->
  let add' := @add _ (Remote.impl serialize deserialize) in
  (add' e s n idem c).1 = Ok true ->
  (add' e' s n false (add' e s n idem c).2).1 = Ok (negb (now e' <=? now e + 1000 * k))
  /\ (now e' <= now e + 1000 * k ->
      (add' e' s n false (add' e s n idem c).2).2 = (add' e s n idem c).2).
Proof.
  intros Hup Hup' Httl Hpos Hser add' A.
  assert (S : Remote.set serialize e (token s n) (Some null) None c =
              Ok (Remote.with_client c
                    (<[Remote.generateKey c (token s n) :=
                         {| Redis.payload := serialize null;
                            Redis.expireAt := now e + 1000 * k |}]>
                       (Remote.optRedisClient c)))).
  { apply Remote_set_stored; assumption. }
  assert (E : (add' e s n idem c).2 =
              Remote.with_client c
                (<[Remote.generateKey c (token s n) :=
                     {| Redis.payload := serialize null;
                        Redis.expireAt := now e + 1000 * k |}]>
                   (Remote.optRedisClient c))).
  { subst add'. destruct idem.
    - unfold add, negb. unfold cache_set, Remote.impl. rewrite S. reflexivity.
    - rewrite add_false_contract in A |- *. unfold cache_get, cache_set, Remote.impl in *.
      destruct (Remote.get deserialize e (token s n) c); [discriminate A |].
      rewrite S. reflexivity. }
  rewrite E. subst add'. rewrite add_false_contract.
  unfold cache_get, cache_set, Remote.impl.
  unfold Remote.get, Redis.get. rewrite Hup'.
  rewrite Remote_generateKey_with_client.
  cbn [Remote.optRedisClient Remote.with_client]. rewrite lookup_insert_eq.
  cbn [Redis.payload Redis.expireAt].
  destruct (now e' <=? now e + 1000 * k) eqn:T.
  - rewrite Hser. split; reflexivity.
  - rewrite Remote_set_defined. split; [reflexivity |].
    apply Z.leb_gt in T. lia.
Qed.

(** X9. Remote backend, outage: while the store does not answer, [set]
    of a defined value returns normally and leaves the cache as it was,
    [get] returns [undefined] and [del] does nothing; none of them throws.
    The replay guard then accepts every pair, idempotent or not, and
    records nothing. *)
Theorem remote_outage (e : Env) (c : Remote.ConfigCache) :
  storeAnswers e = false ->
  (forall (V : Type) (ser : V -> string) (deser : string -> option V) (key : string) (v : V)
          (o : option IConfigCacheAddOptions),
      Remote.set ser e key (Some v) o c = Ok c
      /\ Remote.get deser e key c = None
      /\ Remote.del e key c = c)
  /\ (forall (s n : string) (idem : bool),
        @add _ (Remote.impl serialize deserialize) e s n idem c = (Ok true, c)).
Proof.
  intros Hdown.
  assert (S : forall (V : Type) (ser : V -> string) (key : string) (v : V)
                     (o : option IConfigCacheAddOptions),
             Remote.set ser e key (Some v) o c = Ok c).
  { intros V ser key v o. unfold Remote.set, Redis.setex. rewrite Hdown. simpl.
    destruct (Qle_bool _ 0); reflexivity. }
  assert (G : forall (V : Type) (deser : string -> option V) (key : string),
             Remote.get deser e key c = None).
  { intros V deser key. unfold Remote.get, Redis.get. rewrite Hdown. reflexivity. }
  split.
  - intros V ser deser key v o. split; [apply S |]. split; [apply G |].
    unfold Remote.del, Redis.del. rewrite Hdown. reflexivity.
  - intros s n idem. destruct idem.
    + unfold add, negb. unfold cache_set, Remote.impl. rewrite S. reflexivity.
    + rewrite add_false_contract. unfold cache_get, cache_set, Remote.impl.
      rewrite G, S. reflexivity.
Qed.

End ReplayGuardMore.

(** ** The credential fields *)

Section CredentialFields.
Import HttpAuthentication.

Lemma splitRest_Some (p : Z -> bool) (s x y : string) :
  Js.splitRest p s = Some (x, y) ->
  exists a, s = x +:+ String a y /\ p (Js.code a) = true /\ y <> "".
Proof.
  revert x. induction s as [|a s IH]; intros x E; simpl in E; [discriminate E |].
  destruct (p (Js.code a) && negb (bool_decide (s = "")) && _) eqn:C.
  - injection E as <- <-. apply andb_true_iff in C as [C _].
    apply andb_true_iff in C as [C N]. exists a. split; [reflexivity |]. split; [exact C |].
    apply negb_true_iff, bool_decide_eq_false in N. exact N.
  - destruct (Js.splitRest p s) as [[x' y']|]; [| discriminate E].
    injection E as <- <-. destruct (IH x' eq_refl) as (b & -> & Hb & Hy).
    exists b. rewrite app_cons_string. auto.
Qed.

Ltac res_unfold :=
  unfold mbind, mret, Res_bind, Res_ret, res_bind, guard, assertString in *.

Lemma addCredentialField_Ok (p : Res (gmap string string)) (fld : string)
    (m' : gmap string string) :
  addCredentialField p fld = Ok m' ->
  exists m key value,
    p = Ok m /\ Js.splitRest (fun c => c =? 61) fld = Some (key, value)
    /\ key <> "" /\ m !! key = None /\ m' = Obj.assign key value m.
Proof.
  unfold addCredentialField. res_unfold. destruct p as [m|err]; [| discriminate].
  destruct (Js.splitRest _ fld) as [[key value]|]; [| discriminate].
  destruct (0 <? Js.slength key) eqn:L; [| discriminate].
  unfold Obj.objectHasKey.
  destruct (m !! key) as [old|] eqn:Hm.
  - rewrite bool_decide_eq_true_2 by eauto. discriminate.
  - rewrite bool_decide_eq_false_2 by (intros [? ?]; discriminate). simpl.
    intros [= <-]. exists m, key, value. repeat split; auto.
    intros ->. discriminate L.
Qed.

Lemma credentialFields_Err (l : list string) (err : Thrown) :
  fold_left addCredentialField l (Err err) = Err err.
Proof. induction l as [|fld l IH]; [reflexivity | exact IH]. Qed.

(** What the object of the fields holds when all the fields are read. *)
Lemma credentialFields_Ok (l : list string) :
  forall m0 m : gmap string string,
    fold_left addCredentialField l (Ok m0) = Ok m ->
    (forall k v, m0 !! k = Some v -> m !! k = Some v)
    /\ (forall k v, m !! k = Some v ->
          m0 !! k = Some v
          \/ exists fld, In fld l /\ Js.splitRest (fun c => c =? 61) fld = Some (k, v))
    /\ Forall (fun fld =>
                 exists key value,
                   Js.splitRest (fun c => c =? 61) fld = Some (key, value)
                   /\ (key = "__proto__" \/ m !! key = Some value)) l.
Proof.
  induction l as [|fld l IH]; intros m0 m E; cbn [fold_left] in E.
  - injection E as <-. split; [auto |]. split; [auto | constructor].
  - destruct (addCredentialField (Ok m0) fld) as [m1|err] eqn:E1;
      [| rewrite credentialFields_Err in E; discriminate E].
    apply addCredentialField_Ok in E1 as (m0' & key & value & [= <-] & Hs & Hk & Hnew & ->).
    destruct (IH _ _ E) as (Hkeep & Hfrom & Hall).
    assert (Hsub : forall k v, m0 !! k = Some v -> Obj.assign key value m0 !! k = Some v).
    { intros k v L. unfold Obj.assign. destruct (bool_decide (key = "__proto__")); [exact L |].
      rewrite lookup_insert_ne; [exact L |]. intros ->. rewrite Hnew in L. discriminate L. }
    split; [intros k v L; apply Hkeep, Hsub, L |]. split.
    + intros k v L. destruct (Hfrom k v L) as [L0|(fld' & I & S)].
      * unfold Obj.assign in L0. destruct (bool_decide (key = "__proto__")); [left; exact L0 |].
        destruct (decide (key = k)) as [->|Hne].
        -- rewrite lookup_insert_eq in L0. injection L0 as <-.
           right. exists fld. split; [left; reflexivity | exact Hs].
        -- rewrite lookup_insert_ne in L0 by exact Hne. left. exact L0.
      * right. exists fld'. split; [right; exact I | exact S].
    + constructor; [| exact Hall]. exists key, value. split; [exact Hs |].
      destruct (decide (key = "__proto__")) as [Hp|Hp]; [left; exact Hp | right].
      apply Hkeep. unfold Obj.assign. rewrite bool_decide_eq_false_2 by exact Hp.
      apply lookup_insert_eq.
Qed.

Lemma code_equals (a : ascii) : (Js.code a =? 61) = true -> a = "="%char.
Proof.
  destruct a as [[] [] [] [] [] [] [] []]; vm_compute; intros E;
    first [discriminate E | reflexivity].
Qed.

Lemma splitRest_equals (fld key value : string) :
  Js.splitRest (fun c => c =? 61) fld = Some (key, value) ->
  fld = key +:+ "=" +:+ value /\ value <> "".
Proof.
  intros S. apply splitRest_Some in S as (a & -> & Ha & Hv).
  apply code_equals in Ha. subst a. auto.
Qed.

(** What the three fields are when the credentials are accepted. *)
Lemma parseCredentialFields_Ok (creds c h s : string) :
  parseCredentialFields creds = Ok (c, h, s) ->
  exists m : gmap string string,
    fold_left addCredentialField (Js.split "," creds) (Ok ∅) = Ok m
    /\ dom m = {["Credential"; "SignedHeaders"; "Signature"]}
    /\ m !! "Credential" = Some c /\ m !! "SignedHeaders" = Some h
    /\ m !! "Signature" = Some s.
Proof.
  unfold parseCredentialFields. res_unfold.
  destruct (fold_left addCredentialField (Js.split "," creds) (Ok ∅)) as [m|err];
    [| discriminate].
  unfold setEqual. destruct (bool_decide _) eqn:D; [| discriminate].
  apply bool_decide_eq_true in D.
  destruct (m !! "Credential") as [c'|] eqn:Hc; [| discriminate].
  destruct (m !! "SignedHeaders") as [h'|] eqn:Hh; [| discriminate].
  destruct (m !! "Signature") as [s'|] eqn:Hs; [| discriminate].
  intros [= <- <- <-]. exists m. symmetry in D. auto.
Qed.

Lemma credential_field_known (m : gmap string string) (c h s key value : string) :
  dom m = {["Credential"; "SignedHeaders"; "Signature"]} ->
  m !! "Credential" = Some c -> m !! "SignedHeaders" = Some h -> m !! "Signature" = Some s ->
  m !! key = Some value ->
  In (key, value) [("Credential", c); ("SignedHeaders", h); ("Signature", s)].
Proof.
  intros D Hc Hh Hs L.
  assert (K : key ∈ dom m) by (apply elem_of_dom; eauto).
  rewrite D in K. rewrite !elem_of_union, !elem_of_singleton in K.
  destruct K as [[->| ->]| ->]; simpl.
  - left. congruence.
  - right. left. congruence.
  - right. right. left. congruence.
Qed.

Ltac peel E :=
  cbv in E; repeat (first [discriminate E | injection E; clear E; intros E]).

(** X12. Credential fields: when the credentials are accepted, every
    field is [key=value] with a value that is not empty, and is one of
    [Credential], [SignedHeaders] and [Signature] with the value returned,
    or a field named [__proto__], which is ignored; each of the three
    occurs, and occurs with one value only. *)
Theorem credential_fields (creds c h s : string) :
  parseCredentialFields creds = Ok (c, h, s) ->
  let fields := Js.split "," creds in
  (forall fld, In fld fields ->
     exists key value,
       fld = key +:+ "=" +:+ value /\ value <> ""
       /\ (key = "__proto__"
           \/ In (key, value) [("Credential", c); ("SignedHeaders", h); ("Signature", s)]))
  /\ (In ("Credential=" +:+ c) fields /\ In ("SignedHeaders=" +:+ h) fields
      /\ In ("Signature=" +:+ s) fields)
  /\ (forall value, In ("Credential=" +:+ value) fields -> value = c)
  /\ (forall value, In ("SignedHeaders=" +:+ value) fields -> value = h)
  /\ (forall value, In ("Signature=" +:+ value) fields -> value = s).
Proof.
  intros P fields.
  destruct (parseCredentialFields_Ok creds c h s P) as (m & F & D & Hc & Hh & Hs).
  destruct (credentialFields_Ok _ _ _ F) as (_ & Hfrom & Hall).
  rewrite Forall_forall in Hall.
  assert (H1 : forall fld, In fld fields ->
             exists key value,
               fld = key +:+ "=" +:+ value /\ value <> ""
               /\ (key = "__proto__"
                   \/ In (key, value)
                        [("Credential", c); ("SignedHeaders", h); ("Signature", s)])).
  { intros fld I. apply list_elem_of_In in I.
    destruct (Hall fld I) as (key & value & S & K).
    destruct (splitRest_equals fld key value S) as [-> Hv].
    exists key, value. split; [reflexivity |]. split; [exact Hv |].
    destruct K as [K|K]; [left; exact K | right].
    apply (credential_field_known m c h s key value D Hc Hh Hs K). }
  assert (H2 : forall k v, m !! k = Some v -> In (k +:+ "=" +:+ v) fields).
  { intros k v L. destruct (Hfrom k v L) as [L0|(fld & I & S)].
    - rewrite lookup_empty in L0. discriminate L0.
    - apply splitRest_equals in S as [-> _]. exact I. }
  split; [exact H1 |].
  split; [split; [apply (H2 _ _ Hc) | split; [apply (H2 _ _ Hh) | apply (H2 _ _ Hs)]] |].
  split; [| split]; intros value I; destruct (H1 _ I) as (key & v' & E & _ & K);
    destruct K as [->|[[= <- <-]|[[= <- <-]|[[= <- <-]|[]]]]];
    peel E; exact E.
Qed.

End CredentialFields.

(** ** The signed headers *)

Section SignedHeaders.
Import HttpAuthentication.

Lemma Arr_insert_In {A} (cmp : A -> A -> Z) (x y : A) (l : list A) :
  In y (Arr.insert cmp x l) <-> y = x \/ In y l.
Proof.
  induction l as [|z l IH]; simpl.
  - intuition.
  - destruct (cmp x z <=? 0); simpl; [intuition |]. rewrite IH. intuition.
Qed.

Lemma Arr_sort_In {A} (cmp : A -> A -> Z) (y : A) (l : list A) :
  In y (Arr.sort cmp l) <-> In y l.
Proof.
  unfold Arr.sort. induction l as [|x l IH]; simpl; [reflexivity |].
  rewrite Arr_insert_In, IH. intuition.
Qed.

Lemma OrdObj_entries_In {V} (y : string * V) (o : list (string * V)) :
  In y (OrdObj.entries o) <-> In y o.
Proof.
  unfold OrdObj.entries. rewrite in_app_iff, Arr_sort_In, !filter_In.
  destruct (OrdObj.isArrayIndex y.1); simpl; intuition discriminate.
Qed.

Lemma OrdObj_assign_In {V} (k k' : string) (v v' : V) (o : list (string * V)) :
  In (k, v) (OrdObj.assign k' v' o) -> (k, v) = (k', v') \/ In (k, v) o.
Proof.
  induction o as [|[k0 v0] o IH]; simpl.
  - destruct (bool_decide (k' = "__proto__")); simpl; intuition.
  - destruct (bool_decide (k0 = k')); simpl; intuition.
Qed.

(** A key that [assign] adds to an object that does not hold it is held
    afterwards with the value assigned, unless it is [__proto__]. *)
Lemma OrdObj_assign_new {V} (k : string) (v : V) (o : list (string * V)) :
  k <> "__proto__" -> In (k, v) (OrdObj.assign k v o).
Proof.
  intros Hk. induction o as [|[k0 v0] o IH]; simpl.
  - rewrite bool_decide_eq_false_2 by exact Hk. left. reflexivity.
  - destruct (bool_decide (k0 = k)); simpl; auto.
Qed.

Lemma OrdObj_assign_keep {V} (k k' : string) (v v' : V) (o : list (string * V)) :
  k <> k' -> In (k, v) o -> In (k, v) (OrdObj.assign k' v' o).
Proof.
  intros Hne. induction o as [|[k0 v0] o IH]; simpl; [tauto |].
  intros [E|I].
  - injection E as -> ->. rewrite bool_decide_eq_false_2 by exact Hne. left. reflexivity.
  - destruct (bool_decide (k0 = k')); simpl; auto.
Qed.

(** *** [split] and [join] *)

Lemma free_cons (sep a : ascii) (x : string) :
  free sep (String a x) <-> a <> sep /\ free sep x.
Proof.
  unfold free. simpl. rewrite andb_true_iff, negb_true_iff, Z.eqb_neq. split.
  - intros [N F]. split; [intros ->; apply N; reflexivity | exact F].
  - intros [N F]. split; [| exact F]. intros E. apply N.
    unfold Js.code in E. apply N2Z.inj in E.
    rewrite <- (ascii_N_embedding a), <- (ascii_N_embedding sep), E. reflexivity.
Qed.

Lemma split_free (sep : ascii) (x : string) : free sep x -> Js.split sep x = [x].
Proof.
  induction x as [|a x IH]; [reflexivity |].
  rewrite free_cons. intros [N F]. simpl.
  rewrite bool_decide_eq_false_2 by exact N. rewrite (IH F). reflexivity.
Qed.

Lemma split_free_app (sep : ascii) (x r : string) :
  free sep x -> Js.split sep (x +:+ String sep r) = x :: Js.split sep r.
Proof.
  induction x as [|a x IH].
  - intros _. rewrite app_nil_string. simpl. rewrite bool_decide_eq_true_2 by reflexivity.
    reflexivity.
  - rewrite free_cons. intros [N F]. rewrite app_cons_string. simpl.
    rewrite bool_decide_eq_false_2 by exact N. rewrite (IH F). reflexivity.
Qed.

Lemma split_join (sep : ascii) (l : list string) :
  l <> [] -> Forall (free sep) l -> Js.split sep (Js.join (String sep "") l) = l.
Proof.
  induction l as [|x l IH]; [congruence |].
  intros _ F. apply Forall_cons in F as [Fx Fl].
  destruct l as [|y l].
  - simpl. apply split_free, Fx.
  - change (Js.join (String sep "") (x :: y :: l))
      with (x +:+ String sep "" +:+ Js.join (String sep "") (y :: l)).
    rewrite app_cons_string, app_nil_string.
    rewrite (split_free_app sep x _ Fx). f_equal. apply IH; [discriminate | exact Fl].
Qed.

Lemma all_impl (p q : Z -> bool) (x : string) :
  (forall c, p c = true -> q c = true) -> Js.all p x = true -> Js.all q x = true.
Proof.
  intros Hpq. induction x as [|a x IH]; simpl; [reflexivity |].
  rewrite !andb_true_iff. intros [Ha Hx]. auto.
Qed.

Lemma headerKey_free (k : string) :
  CONST_HTTP_HEADER_KEY_REGEX k = true -> k <> "" /\ free ";" k.
Proof.
  unfold CONST_HTTP_HEADER_KEY_REGEX. rewrite andb_true_iff, negb_true_iff.
  intros [N A]. split.
  - apply bool_decide_eq_false in N. exact N.
  - unfold free. revert A. apply all_impl. intros c Hc.
    destruct (c =? Js.code ";") eqn:E; [| reflexivity].
    apply Z.eqb_eq in E. subst c. discriminate Hc.
Qed.

(** *** The loop over the raw headers *)

Ltac res_unfold :=
  unfold mbind, mret, Res_bind, Res_ret, res_bind, guard, assertString in *.

(** One turn of the loop that succeeds either skips a header that is not
    signed or moves a signed one from the working copy to the object. *)
Lemma collectHeader_Ok (full : gset string) (set set' : gset string)
    (hr hr' : list (string * string)) (name value : string) :
  collectHeader full (set, hr) name value = Ok (set', hr') ->
  CONST_HTTP_HEADER_KEY_REGEX (Js.toLowerCase name) = true
  /\ (((Js.toLowerCase name ∉ full) /\ set' = set /\ hr' = hr)
      \/ (Js.toLowerCase name ∈ full /\ Js.toLowerCase name ∈ set
          /\ set' = set ∖ {[Js.toLowerCase name]}
          /\ hr' = OrdObj.assign (Js.toLowerCase name) (Js.trim value) hr)).
Proof.
  unfold collectHeader. res_unfold.
  destruct (CONST_HTTP_HEADER_KEY_REGEX (Js.toLowerCase name)); [| discriminate].
  destruct (decide (Js.toLowerCase name ∈ full)) as [I|N].
  - rewrite (bool_decide_eq_true_2 _ I). simpl.
    destruct (decide (Js.toLowerCase name ∈ set)) as [I'|N'].
    + rewrite (bool_decide_eq_true_2 _ I'). intros [= <- <-]. split; [reflexivity |].
      right. auto.
    + rewrite (bool_decide_eq_false_2 _ N'). discriminate.
  - rewrite (bool_decide_eq_false_2 _ N). simpl.
    destruct (compulsory (Js.toLowerCase name)); [discriminate |].
    intros [= <- <-]. split; [reflexivity |]. left. auto.
Qed.

Lemma collectHeaders_ind (full : gset string)
    (P : list string -> gset string * list (string * string) ->
         gset string * list (string * string) -> Prop) :
  (forall st, P [] st st) ->
  (forall x st, P [x] st st) ->
  (forall name value rest st st1 st',
      collectHeader full st name value = Ok st1 ->
      collectHeaders full st1 rest = Ok st' ->
      P rest st1 st' -> P (name :: value :: rest) st st') ->
  forall raw st st', collectHeaders full st raw = Ok st' -> P raw st st'.
Proof.
  intros H0 H1 H2 raw.
  induction raw as [raw IH] using (induction_ltof1 _ (@length string)).
  intros st st' E. destruct raw as [|n0 [|v0 rest]]; simpl in E.
  - injection E as <-. apply H0.
  - injection E as <-. apply H1.
  - destruct (collectHeader full st n0 v0) as [st1|err] eqn:E1; simpl in E; [| discriminate E].
    apply (H2 n0 v0 rest st st1 st' E1 E).
    apply IH; [unfold ltof; simpl; lia | exact E].
Qed.

(** The working copy only shrinks. *)
Lemma collectHeaders_subset (full : gset string) raw st st' :
  collectHeaders full st raw = Ok st' -> st'.1 ⊆ st.1.
Proof.
  revert raw st st'. apply collectHeaders_ind; [reflexivity | reflexivity |].
  intros name value rest [set hr] [set1 hr1] [set' hr'] E1 _ IH. simpl in *.
  apply collectHeader_Ok in E1 as [_ [(_ & -> & _)|(_ & _ & -> & _)]]; [exact IH |].
  intros x Hx. apply IH in Hx. apply elem_of_difference in Hx as [Hx _]. exact Hx.
Qed.

(** A signed header met by the loop is in the working copy before the loop
    and not after it. *)
Lemma collectHeaders_met (full : gset string) (i : nat) :
  forall raw st st' name,
    collectHeaders full st raw = Ok st' ->
    raw !! (2 * i)%nat = Some name ->
    (S (2 * i) < length raw)%nat ->
    Js.toLowerCase name ∈ full ->
    Js.toLowerCase name ∈ st.1 /\ Js.toLowerCase name ∉ st'.1.
Proof.
  induction i as [|i IH]; intros raw st st' name E L Hlen Hin.
  - destruct raw as [|n0 [|v0 rest]]; simpl in *; try lia.
    injection L as ->.
    destruct (collectHeader full st name v0) as [st1|err] eqn:E1; simpl in E; [| discriminate E].
    pose proof (collectHeaders_subset _ _ _ _ E) as Sub.
    destruct st as [set hr], st1 as [set1 hr1].
    apply collectHeader_Ok in E1 as [_ [(N & _)|(_ & I & -> & _)]]; [contradiction |].
    simpl in *. split; [exact I |]. intros Hx. apply Sub in Hx.
    apply elem_of_difference in Hx as [_ Hx]. apply Hx, elem_of_singleton. reflexivity.
  - destruct raw as [|n0 [|v0 rest]]; simpl in Hlen; try lia.
    replace (2 * S i)%nat with (S (S (2 * i))) in L by lia. simpl in L, E.
    destruct (collectHeader full st n0 v0) as [st1|err] eqn:E1; simpl in E; [| discriminate E].
    destruct (IH rest st1 st' name E L ltac:(lia) Hin) as [I N].
    split; [| exact N].
    destruct st as [set hr], st1 as [set1 hr1].
    apply collectHeader_Ok in E1 as [_ [(_ & -> & _)|(_ & _ & -> & _)]]; [exact I |].
    simpl in *. apply elem_of_difference in I as [I _]. exact I.
Qed.

(** Two raw headers with the same signed name stop the loop. *)
Lemma collectHeaders_twice (full : gset string) (i : nat) :
  forall (j : nat) raw st st' name1 name2,
    collectHeaders full st raw = Ok st' ->
    (i < j)%nat ->
    raw !! (2 * i)%nat = Some name1 ->
    raw !! (2 * j)%nat = Some name2 ->
    (S (2 * j) < length raw)%nat ->
    Js.toLowerCase name1 = Js.toLowerCase name2 ->
    Js.toLowerCase name1 ∈ full ->
    False.
Proof.
  induction i as [|i IH]; intros j raw st st' name1 name2 E Hij L1 L2 Hlen Hsame Hin.
  - destruct raw as [|n0 [|v0 rest]]; simpl in Hlen; try lia.
    simpl in L1. injection L1 as ->.
    destruct j as [|j]; [lia |].
    replace (2 * S j)%nat with (S (S (2 * j))) in L2 by lia. simpl in L2, E.
    destruct (collectHeader full st name1 v0) as [st1|err] eqn:E1; simpl in E; [| discriminate E].
    rewrite Hsame in Hin.
    destruct (collectHeaders_met full j rest st1 st' name2 E L2 ltac:(lia) Hin) as [I _].
    destruct st as [set hr], st1 as [set1 hr1].
    rewrite <- Hsame in Hin, I.
    apply collectHeader_Ok in E1 as [_ [(N & _)|(_ & _ & -> & _)]]; [contradiction |].
    simpl in I. apply elem_of_difference in I as [_ I]. apply I, elem_of_singleton. reflexivity.
  - destruct raw as [|n0 [|v0 rest]]; simpl in Hlen; try lia.
    destruct j as [|j]; [lia |].
    replace (2 * S i)%nat with (S (S (2 * i))) in L1 by lia.
    replace (2 * S j)%nat with (S (S (2 * j))) in L2 by lia. simpl in L1, L2, E.
    destruct (collectHeader full st n0 v0) as [st1|err] eqn:E1; simpl in E; [| discriminate E].
    apply (IH j rest st1 st' name1 name2 E); auto; lia.
Qed.

Lemma fromRaw_cons (n0 v0 : string) (rest : list string) (k v : string) :
  fromRaw rest k v -> fromRaw (n0 :: v0 :: rest) k v.
Proof.
  intros (i & name & value & L1 & L2 & Hk & Hv). exists (S i), name, value.
  replace (2 * S i)%nat with (S (S (2 * i))) by lia. simpl. auto.
Qed.

Lemma collectHeaders_entries (full : gset string) raw st st' :
  collectHeaders full st raw = Ok st' ->
  forall k v, In (k, v) st'.2 ->
    In (k, v) st.2
    \/ (fromRaw raw k v /\ k ∈ full /\ CONST_HTTP_HEADER_KEY_REGEX k = true).
Proof.
  revert raw st st'.
  apply (collectHeaders_ind full
           (fun raw st st' =>
              forall k v, In (k, v) st'.2 ->
                In (k, v) st.2
                \/ (fromRaw raw k v /\ k ∈ full /\ CONST_HTTP_HEADER_KEY_REGEX k = true)));
    [auto | auto |].
  intros name value rest [set hr] [set1 hr1] [set' hr'] E1 _ IH k v I. simpl in *.
  destruct (IH k v I) as [I1|(F & Hf & Hr)].
  - apply collectHeader_Ok in E1 as [Hr [(_ & _ & ->)|(Hf & _ & _ & ->)]]; [left; exact I1 |].
    apply OrdObj_assign_In in I1 as [[= -> ->]|I1]; [| left; exact I1].
    right. split; [| auto]. exists 0%nat, name, value. simpl. auto.
  - right. split; [apply fromRaw_cons, F | auto].
Qed.

(** A name that leaves the working copy is a legal header name. *)
Lemma collectHeaders_removed (full : gset string) raw st st' :
  collectHeaders full st raw = Ok st' ->
  forall k, k ∈ st.1 -> k ∉ st'.1 -> CONST_HTTP_HEADER_KEY_REGEX k = true.
Proof.
  revert raw st st'.
  apply (collectHeaders_ind full
           (fun raw st st' =>
              forall k, k ∈ st.1 -> k ∉ st'.1 -> CONST_HTTP_HEADER_KEY_REGEX k = true)).
  - intros st k I N. contradiction.
  - intros x st k I N. contradiction.
  - intros name value rest [set hr] [set1 hr1] [set' hr'] E1 _ IH k I N. simpl in *.
    apply collectHeader_Ok in E1 as [Hr [(_ & -> & _)|(_ & _ & -> & _)]]; [apply IH; assumption |].
    destruct (decide (k = Js.toLowerCase name)) as [->|Hne]; [exact Hr |].
    apply IH; [| exact N]. apply elem_of_difference. split; [exact I |].
    intros Hx. apply elem_of_singleton in Hx. contradiction.
Qed.

Lemma OrdObj_assign_keys {V} (k : string) (v : V) (o : list (string * V)) :
  NoDup (map fst o) -> NoDup (map fst (OrdObj.assign k v o)).
Proof.
  induction o as [|[k' v'] o IH]; simpl; intros N.
  - destruct (bool_decide (k = "__proto__")); simpl; [constructor |].
    apply NoDup_singleton.
  - apply NoDup_cons in N as [Hk N].
    destruct (bool_decide (k' = k)) eqn:E; simpl.
    + apply bool_decide_eq_true in E. subst k'. apply NoDup_cons. auto.
    + apply bool_decide_eq_false in E. apply NoDup_cons. split; [| apply IH, N].
      intros I. apply list_elem_of_fmap in I as ([k0 v0] & -> & I). simpl in *.
      apply list_elem_of_In, OrdObj_assign_In in I as [[= -> ->]|I]; [contradiction |].
      apply Hk. apply list_elem_of_fmap. exists (k0, v0). split; [reflexivity |].
      apply list_elem_of_In, I.
Qed.

Lemma keys_value {V} (o : list (string * V)) (k : string) (v v' : V) :
  NoDup (map fst o) -> In (k, v) o -> In (k, v') o -> v = v'.
Proof.
  induction o as [|[k0 v0] o IH]; simpl; [tauto |]. intros N.
  apply NoDup_cons in N as [Hk N].
  assert (Out : forall w, In (k0, w) o -> False).
  { intros w I. apply Hk. apply list_elem_of_fmap. exists (k0, w).
    split; [reflexivity | apply list_elem_of_In, I]. }
  intros [E|I] [E'|I'].
  - congruence.
  - injection E as -> ->. destruct (Out _ I').
  - injection E' as -> ->. destruct (Out _ I).
  - apply IH; assumption.
Qed.

Lemma collectHeaders_keys (full : gset string) raw st st' :
  collectHeaders full st raw = Ok st' -> NoDup (map fst st.2) -> NoDup (map fst st'.2).
Proof.
  revert raw st st'.
  apply (collectHeaders_ind full (fun raw st st' => NoDup (map fst st.2) -> NoDup (map fst st'.2)));
    [auto | auto |].
  intros name value rest [set hr] [set1 hr1] [set' hr'] E1 _ IH N. simpl in *.
  apply IH. apply collectHeader_Ok in E1 as [_ [(_ & _ & ->)|(_ & _ & _ & ->)]]; [exact N |].
  apply OrdObj_assign_keys, N.
Qed.

Variable URL_parse : string -> option ParsedUrl.
Variable localeCompare : string -> string -> Z.
Variable Date_parse : string -> option Z.

Local Abbreviation validate' := (validate URL_parse localeCompare Date_parse).

(** What a successful validation has established about the headers. *)
Lemma validate_Ok_headers (req : HttpHandlerReq) (v : Validated) :
  validate' req = Ok v ->
  exists creds cred sh sig rest,
    parseAuthorization req = Ok creds
    /\ parseCredentialFields creds = Ok (cred, sh, sig)
    /\ Nat.even (length (rawHeaders req)) = true
    /\ collectHeaders (list_to_set (Js.split ";" sh)) (list_to_set (Js.split ";" sh), [])
         (rawHeaders req) = Ok (rest, v_headersRaw v)
    /\ size rest = 0%nat
    /\ Js.join ";" (map fst (Arr.sort (fun a b => localeCompare a.1 b.1)
                               (OrdObj.entries (v_headersRaw v)))) = sh.
Proof.
  intros E. unfold validate in E. res_unfold.
  destruct (parseAuthorization req) as [creds|] eqn:Ha; [| discriminate E].
  destruct (parseCredentialFields creds) as [[[cred sh] sig]|] eqn:Hf; [| discriminate E].
  destruct (bool_decide (length _ = size _)); [| discriminate E].
  destruct (URL_parse (fullUrl req)) as [url|]; [| discriminate E].
  destruct (Nat.even (length (rawHeaders req))) eqn:Hev; [| discriminate E].
  destruct (collectHeaders _ _ (rawHeaders req)) as [[rest hr]|] eqn:Hcol; [| discriminate E].
  destruct (bool_decide (size rest = 0%nat)) eqn:Hsz; [| discriminate E].
  destruct (bool_decide (_ = sh)) eqn:Hsh; [| discriminate E].
  apply bool_decide_eq_true in Hsz, Hsh.
  destruct (headers req !! "x-fomopay-nonce"); [| discriminate E].
  destruct (nonceRegex _); [| discriminate E].
  destruct (headers req !! "x-fomopay-content-sha256"); [| discriminate E].
  destruct (bool_decide (_ = Js.toLowerCase _)); [| discriminate E].
  destruct (headers req !! "x-fomopay-date"); [| discriminate E].
  destruct (checkDate Date_parse _); [| discriminate E].
  destruct (canonicalQueryString _ _); [| discriminate E].
  injection E as <-. simpl. exists creds, cred, sh, sig, rest. repeat split; (assumption || reflexivity).
Qed.

Lemma lookup_raw_lt (raw : list string) (i : nat) (value : string) :
  raw !! S (2 * i) = Some value -> (S (2 * i) < length raw)%nat.
Proof. apply lookup_lt_Some. Qed.

(** The entries collected by a successful validation: their names are
    the names declared, they come from the raw headers, and no name occurs
    twice. *)
Lemma validate_Ok_entries (req : HttpHandlerReq) (v : Validated) :
  validate' req = Ok v ->
  exists creds cred sh sig,
    parseAuthorization req = Ok creds
    /\ parseCredentialFields creds = Ok (cred, sh, sig)
    /\ Js.split ";" sh = map fst (Arr.sort (fun a b => localeCompare a.1 b.1)
                                    (OrdObj.entries (v_headersRaw v)))
    /\ (forall k val,
          In (k, val) (v_headersRaw v)
          <-> In k (Js.split ";" sh) /\ fromRaw (rawHeaders req) k val)
    /\ (forall k val, In (k, val) (v_headersRaw v) -> CONST_HTTP_HEADER_KEY_REGEX k = true)
    /\ NoDup (map fst (v_headersRaw v)).
Proof.
  intros V.
  set (names := map fst (Arr.sort (fun a b => localeCompare a.1 b.1)
                           (OrdObj.entries (v_headersRaw v)))).
  destruct (validate_Ok_headers req v V)
    as (creds & cred & sh & sig & rest & Ha & Hf & Hev & Hcol & Hsz & Hsh).
  apply size_empty_inv in Hsz. apply leibniz_equiv in Hsz. subst rest.
  assert (Hnames : forall k, In k names <-> exists val, In (k, val) (v_headersRaw v)).
  { intros k. subst names. rewrite in_map_iff. split.
    - intros ([k' val] & <- & I). apply (proj1 (Arr_sort_In _ _ _)) in I.
      apply (proj1 (OrdObj_entries_In _ _)) in I. exists val. exact I.
    - intros (val & I). exists (k, val). split; [reflexivity |].
      apply (proj2 (Arr_sort_In _ _ _)), (proj2 (OrdObj_entries_In _ _)), I. }
  assert (Hprov : forall k val, In (k, val) (v_headersRaw v) ->
            fromRaw (rawHeaders req) k val
            /\ k ∈ (list_to_set (Js.split ";" sh) : gset string)
            /\ CONST_HTTP_HEADER_KEY_REGEX k = true).
  { intros k val I.
    destruct (collectHeaders_entries _ _ _ _ Hcol k val I) as [[]|P]. exact P. }
  assert (Hsplit : Js.split ";" sh = names).
  { rewrite <- Hsh. fold names. apply split_join.
    + intros Hnil.
      assert (Hempty : sh = "") by (rewrite <- Hsh; fold names; rewrite Hnil; reflexivity).
      rewrite Hempty in Hcol.
      assert (R : CONST_HTTP_HEADER_KEY_REGEX "" = true); [| discriminate R].
      apply (collectHeaders_removed _ _ _ _ Hcol ""); cbn [fst].
      * apply elem_of_list_to_set, list_elem_of_In. left. reflexivity.
      * apply not_elem_of_empty.
    + apply Forall_forall. intros k Hk. apply list_elem_of_In, Hnames in Hk as (val & I).
      destruct (Hprov k val I) as (_ & _ & R). apply headerKey_free, R. }
  exists creds, cred, sh, sig.
  split; [exact Ha |]. split; [exact Hf |]. split; [exact Hsplit |].
  split; [| split].
  - rewrite Hsplit. intros k val. split.
    + intros I. split; [apply Hnames; eauto | apply (Hprov k val I)].
    + intros [Hk (i & name & value & L1 & L2 & Hlow & ->)].
      apply Hnames in Hk as (val' & I).
      destruct (Hprov k val' I) as ((i' & name' & value' & L1' & L2' & Hlow' & ->) & Hfull & _).
      destruct (Nat.lt_trichotomy i i') as [Lt|[->|Gt]].
      * exfalso.
        apply (collectHeaders_twice _ i i' _ _ _ name name' Hcol Lt L1 L1'
                 (lookup_raw_lt _ _ _ L2')); [congruence | rewrite Hlow; exact Hfull].
      * rewrite L2 in L2'. injection L2' as ->. exact I.
      * exfalso.
        apply (collectHeaders_twice _ i' i _ _ _ name' name Hcol Gt L1' L1
                 (lookup_raw_lt _ _ _ L2)); [congruence | rewrite Hlow'; exact Hfull].
  - intros k val I. apply (Hprov k val I).
  - apply (collectHeaders_keys _ _ _ _ Hcol). constructor.
Qed.

(** X13. Signed headers: when validation succeeds, the names declared in
    [SignedHeaders] are exactly the names of the headers collected for the
    payload, in sorted order; and an entry [(k, val)] is collected exactly
    when [k] is declared and some raw header has the name [k] in lower
    case and the value [val] once trimmed. *)
Theorem signed_headers_exact (req : HttpHandlerReq) (v : Validated) :
  validate' req = Ok v ->
  let names := map fst (Arr.sort (fun a b => localeCompare a.1 b.1)
                          (OrdObj.entries (v_headersRaw v))) in
  declaredSignedHeaders req = Ok names
  /\ forall k val,
       In (k, val) (v_headersRaw v) <-> In k names /\ fromRaw (rawHeaders req) k val.
Proof.
  intros V names.
  destruct (validate_Ok_entries req v V) as (creds & cred & sh & sig & Ha & Hf & Hs & He & _).
  split.
  - unfold declaredSignedHeaders. rewrite Ha. simpl. rewrite Hf. simpl. rewrite Hs.
    reflexivity.
  - intros k val. subst names. rewrite <- Hs. apply He.
Qed.

(** X14. Signed headers: a request in which two raw headers have the
    same name in lower case, and that name is declared in [SignedHeaders],
    fails validation, with an exception that respects the table of
    codes. *)
Theorem duplicate_signed_header_rejected (req : HttpHandlerReq) (names : list string)
    (i j : nat) (name1 name2 : string) :
  i <> j ->
  rawHeaders req !! (2 * i)%nat = Some name1 ->
  rawHeaders req !! (2 * j)%nat = Some name2 ->
  Js.toLowerCase name1 = Js.toLowerCase name2 ->
  declaredSignedHeaders req = Ok names ->
  In (Js.toLowerCase name1) names ->
  exists err, validate' req = Err err /\ coded err.
Proof.
  intros Hij L1 L2 Hsame Hd Hin.
  destruct (validate' req) as [v|err] eqn:V.
  2:{ exists err. split; [reflexivity |].
      apply (validate_coded URL_parse localeCompare Date_parse req err V). }
  exfalso.
  destruct (validate_Ok_headers req v V)
    as (creds & cred & sh & sig & rest & Ha & Hf & Hev & Hcol & _).
  unfold declaredSignedHeaders in Hd. rewrite Ha in Hd. simpl in Hd. rewrite Hf in Hd.
  simpl in Hd. injection Hd as <-.
  assert (Hfull : Js.toLowerCase name1 ∈ (list_to_set (Js.split ";" sh) : gset string)).
  { apply elem_of_list_to_set, list_elem_of_In, Hin. }
  destruct (Nat.lt_trichotomy i j) as [Lt|[->|Gt]]; [| contradiction |].
  - apply (collectHeaders_twice _ i j _ _ _ name1 name2 Hcol Lt L1 L2
             (even_index_has_value _ _ _ Hev L2) Hsame Hfull).
  - apply (collectHeaders_twice _ j i _ _ _ name2 name1 Hcol Gt L2 L1
             (even_index_has_value _ _ _ Hev L1)); [congruence | rewrite <- Hsame; exact Hfull].
Qed.

End SignedHeaders.

(** ** The canonical encoding of the query *)

Section FixedEncoding.
Import HttpAuthentication.

Lemma all_app (p : Z -> bool) (a b : string) :
  Js.all p (a +:+ b) = Js.all p a && Js.all p b.
Proof.
  induction a as [|x a IH]; [reflexivity |].
  rewrite app_cons_string. simpl. rewrite IH, andb_assoc. reflexivity.
Qed.

Lemma replaceReserved_app (a b : string) :
  replaceReserved (a +:+ b) = replaceReserved a +:+ replaceReserved b.
Proof.
  induction a as [|x a IH]; [reflexivity |].
  rewrite app_cons_string. simpl. rewrite IH, app_assoc_string. reflexivity.
Qed.

Lemma replaceReserved_encodeChar (a : ascii) :
  unreservedChar (Js.code a) = true -> replaceReserved (Js.encodeChar a) = String a "".
Proof.
  destruct a as [[] [] [] [] [] [] [] []]; vm_compute; (reflexivity || discriminate).
Qed.

(** A test that holds of the first [n] numbers holds of each of them. *)
Lemma below_all (n : nat) (P : Z -> bool) :
  forallb P (map Z.of_nat (seq 0 n)) = true -> forall c, 0 <= c < Z.of_nat n -> P c = true.
Proof.
  intros H c Hc. rewrite forallb_forall in H. apply H.
  apply in_map_iff. exists (Z.to_nat c). split; [lia |]. apply in_seq. lia.
Qed.

(** An escape is made of encoded characters, none of which is replaced. *)
Lemma percent_encoded (o : Z) :
  0 <= o < 256 ->
  replaceReserved (Js.percent o) = Js.percent o /\ Js.all encodedChar (Js.percent o) = true.
Proof.
  intros Ho.
  pose proof (below_all 256
                (fun o => bool_decide (replaceReserved (Js.percent o) = Js.percent o)
                          && Js.all encodedChar (Js.percent o))) as B.
  specialize (B ltac:(vm_compute; reflexivity) o Ho).
  apply andb_true_iff in B as [B1 B2]. apply bool_decide_eq_true in B1. auto.
Qed.

Lemma utf8_octets (cp : Z) : 0 <= cp < 1114112 -> Forall (fun o => 0 <= o < 256) (Js.utf8 cp).
Proof.
  intros Hcp. unfold Js.utf8.
  destruct (cp <? 128) eqn:C1; [apply Z.ltb_lt in C1 | apply Z.ltb_ge in C1];
    [| destruct (cp <? 2048) eqn:C2; [apply Z.ltb_lt in C2 | apply Z.ltb_ge in C2];
       [| destruct (cp <? 65536) eqn:C3; [apply Z.ltb_lt in C3 | apply Z.ltb_ge in C3]]];
    repeat constructor; Z.div_mod_to_equations; lia.
Qed.

Lemma escapes_encoded (os : list Z) :
  Forall (fun o => 0 <= o < 256) os ->
  Js.all encodedChar
    (replaceReserved (fold_right (fun o acc => Js.percent o +:+ acc) "" os)) = true.
Proof.
  induction 1 as [|o os Ho _ IH]; [reflexivity |].
  cbn [fold_right]. destruct (percent_encoded o Ho) as [R A].
  rewrite replaceReserved_app, all_app, R, A, IH. reflexivity.
Qed.

Lemma encodePoint_encoded (cp : Z) :
  0 <= cp < 1114112 -> Js.all encodedChar (replaceReserved (Js.encodePoint cp)) = true.
Proof.
  intros Hcp. unfold Js.encodePoint.
  destruct (Js.uriUnreserved cp) eqn:U; [| apply escapes_encoded, utf8_octets, Hcp].
  pose proof (uriUnreserved_range cp U) as Hr.
  pose proof (below_all 128
                (fun c => negb (Js.uriUnreserved c)
                          || Js.all encodedChar (replaceReserved (String (Js.chr c) "")))) as B.
  specialize (B ltac:(vm_compute; reflexivity) cp Hr). cbv beta in B.
  rewrite U in B. exact B.
Qed.

Lemma encodeUnits_encoded (s : list Z) :
  forall k, Js.encodeUnits s = Some k -> Js.all encodedChar (replaceReserved k) = true.
Proof.
  induction s as [s IH] using (induction_ltof1 _ (@length Z)).
  intros k E. apply encodeUnits_head in E.
  destruct s as [|c r]; [subst k; reflexivity |].
  destruct (Js.isHighSurrogate c) eqn:Hi.
  - destruct r as [|d r']; [contradiction |].
    destruct E as (Lo & kr & K & ->).
    pose proof (surrogates c d Hi Lo).
    rewrite replaceReserved_app, all_app, encodePoint_encoded by lia.
    apply (IH r'); [unfold ltof; simpl; lia | exact K].
  - destruct E as (_ & B & kr & K & ->).
    rewrite replaceReserved_app, all_app, encodePoint_encoded by lia.
    apply (IH r); [unfold ltof; simpl; lia | exact K].
Qed.

Lemma fixedEncodeURIComponent_encoded (str : list Z) (r : string) :
  fixedEncodeURIComponent str = Some r -> encoded r.
Proof.
  unfold fixedEncodeURIComponent, encoded. intros E.
  destruct (Js.encodeUnits str) as [k|] eqn:K; [| discriminate E].
  injection E as <-. apply (encodeUnits_encoded str k K).
Qed.

Lemma encodeUnits_wellFormed (s : list Z) :
  is_Some (Js.encodeUnits s) <-> wellFormed s = true.
Proof.
  induction s as [s IH] using (induction_ltof1 _ (@length Z)).
  destruct s as [|c r]; [split; [reflexivity | eexists; reflexivity] |].
  cbn [Js.encodeUnits wellFormed].
  destruct (Js.isLowSurrogate c) eqn:Lo.
  - assert (Hi : Js.isHighSurrogate c = false).
    { revert Lo. unfold Js.isLowSurrogate, Js.isHighSurrogate, Js.between.
      rewrite andb_true_iff, andb_false_iff, !Z.leb_le, !Z.leb_gt. lia. }
    rewrite Hi, andb_false_r. split; [intros [k E]; discriminate E | discriminate].
  - destruct (Js.isHighSurrogate c).
    + destruct r as [|d r']; [split; [intros [k E]; discriminate E | discriminate] |].
      destruct (Js.isLowSurrogate d); [| split; [intros [k E]; discriminate E | discriminate]].
      rewrite fmap_is_Some. simpl. apply IH. unfold ltof. simpl. lia.
    + destruct (Js.between 0 65535 c);
        [| split; [intros [k E]; discriminate E | discriminate]].
      rewrite fmap_is_Some. simpl. apply IH. unfold ltof. simpl. lia.
Qed.

(** X15. [fixedEncodeURIComponent], on an arbitrary string of code units:
    it returns a result exactly when the string is well formed (it throws
    on a surrogate that has no partner); the result is made of the
    characters [A-Z a-z 0-9 - _ . ~] and [%] only; and a string made of
    the first group is returned as it is. *)
Theorem fixedEncodeURIComponent_charset :
  (forall str : list Z, is_Some (fixedEncodeURIComponent str) <-> wellFormed str = true)
  /\ (forall (str : list Z) (r : string),
        fixedEncodeURIComponent str = Some r -> Js.all encodedChar r = true)
  /\ (forall s : string,
        Js.all unreservedChar s = true -> fixedEncodeURIComponent (Js.units s) = Some s).
Proof.
  split; [| split].
  - intros str. unfold fixedEncodeURIComponent. rewrite fmap_is_Some.
    apply encodeUnits_wellFormed.
  - intros str r E. destruct (Js.encodeUnits str) as [k|] eqn:K.
    + unfold fixedEncodeURIComponent in E. rewrite K in E. injection E as <-.
      apply (encodeUnits_encoded str k K).
    + unfold fixedEncodeURIComponent in E. rewrite K in E. discriminate E.
  - intros s Hs. unfold fixedEncodeURIComponent. rewrite encodeUnits_units. simpl. f_equal.
    induction s as [|a s IH]; [reflexivity |].
    simpl in Hs. apply andb_true_iff in Hs as [Ha Hs].
    simpl. rewrite replaceReserved_app, (replaceReserved_encodeChar a Ha), (IH Hs).
    reflexivity.
Qed.

End FixedEncoding.

(** ** The canonical query string *)

Section CanonicalQuery.
Import HttpAuthentication.
Variable localeCompare : string -> string -> Z.

(** On encoded strings the collation is a strict total order. *)
Hypothesis localeCompare_eq :
  forall a b, encoded a -> encoded b -> (localeCompare a b = 0 <-> a = b).
Hypothesis localeCompare_sym :
  forall a b, encoded a -> encoded b -> (localeCompare a b < 0 <-> 0 < localeCompare b a).
Hypothesis localeCompare_trans :
  forall a b c, encoded a -> encoded b -> encoded c ->
    localeCompare a b < 0 -> localeCompare b c < 0 -> localeCompare a c < 0.

Local Abbreviation pairCompare :=
  (fun a b : string * string =>
     let keyCompare := localeCompare a.1 b.1 in
     if negb (keyCompare =? 0) then keyCompare else localeCompare a.2 b.2).

Local Abbreviation before := (precedes localeCompare).

Lemma localeCompare_refl (a : string) : encoded a -> localeCompare a a = 0.
Proof. intros Ha. apply localeCompare_eq; auto. Qed.

Lemma localeCompare_le_trans (a b c : string) :
  encoded a -> encoded b -> encoded c ->
  localeCompare a b <= 0 -> localeCompare b c <= 0 -> localeCompare a c <= 0.
Proof.
  intros Ha Hb Hc Hab Hbc.
  destruct (Z.eq_dec (localeCompare a b) 0) as [E|N].
  - apply localeCompare_eq in E; auto. subst b. exact Hbc.
  - destruct (Z.eq_dec (localeCompare b c) 0) as [E'|N'].
    + apply localeCompare_eq in E'; auto. subst c. exact Hab.
    + assert (localeCompare a c < 0); [| lia].
      apply (localeCompare_trans a b c); auto; lia.
Qed.

Lemma pairCompare_total (x y : string * string) :
  encodedPair x -> encodedPair y -> 0 < pairCompare x y -> pairCompare y x <= 0.
Proof.
  intros [Hx1 Hx2] [Hy1 Hy2]. cbv zeta.
  destruct (localeCompare x.1 y.1 =? 0) eqn:E; simpl.
  - apply Z.eqb_eq in E. apply localeCompare_eq in E; auto. rewrite E.
    rewrite (localeCompare_refl _ Hy1). simpl. intros P.
    apply localeCompare_sym in P; auto. lia.
  - apply Z.eqb_neq in E. intros P. apply localeCompare_sym in P; auto.
    destruct (localeCompare y.1 x.1 =? 0) eqn:E'; simpl; [| lia].
    apply Z.eqb_eq in E'. lia.
Qed.

Lemma pairCompare_antisym (x y : string * string) :
  encodedPair x -> encodedPair y -> pairCompare x y <= 0 -> pairCompare y x <= 0 -> x = y.
Proof.
  intros [Hx1 Hx2] [Hy1 Hy2]. cbv zeta.
  destruct (localeCompare x.1 y.1 =? 0) eqn:E; simpl.
  - apply Z.eqb_eq in E. apply localeCompare_eq in E; auto.
    rewrite <- E at 1. rewrite (localeCompare_refl _ Hx1). simpl. intros P Q.
    destruct (Z.eq_dec (localeCompare x.2 y.2) 0) as [E2|N2].
    + apply localeCompare_eq in E2; auto. destruct x, y; simpl in *; congruence.
    + assert (L : localeCompare x.2 y.2 < 0) by lia.
      apply localeCompare_sym in L; auto. lia.
  - apply Z.eqb_neq in E. intros P.
    assert (L : localeCompare x.1 y.1 < 0) by lia.
    apply localeCompare_sym in L; auto.
    destruct (localeCompare y.1 x.1 =? 0) eqn:E'; simpl; [| lia].
    apply Z.eqb_eq in E'. lia.
Qed.

Lemma pairCompare_trans (x y z : string * string) :
  encodedPair x -> encodedPair y -> encodedPair z ->
  pairCompare x y <= 0 -> pairCompare y z <= 0 -> pairCompare x z <= 0.
Proof.
  intros [Hx1 Hx2] [Hy1 Hy2] [Hz1 Hz2]. cbv zeta.
  destruct (localeCompare x.1 y.1 =? 0) eqn:E; simpl.
  - apply Z.eqb_eq in E. apply localeCompare_eq in E; auto. rewrite <- E.
    destruct (localeCompare x.1 z.1 =? 0) eqn:E'; simpl; [| tauto].
    intros P Q. apply (localeCompare_le_trans x.2 y.2 z.2); auto.
  - apply Z.eqb_neq in E. intros P.
    destruct (localeCompare y.1 z.1 =? 0) eqn:E'; simpl.
    + apply Z.eqb_eq in E'. apply localeCompare_eq in E'; auto. rewrite <- E'.
      rewrite (proj2 (Z.eqb_neq _ _) E). simpl. intros _. exact P.
    + apply Z.eqb_neq in E'. intros Q.
      assert (L : localeCompare x.1 z.1 < 0).
      { apply (localeCompare_trans x.1 y.1 z.1); auto; lia. }
      assert (N : (localeCompare x.1 z.1 =? 0) = false) by (apply Z.eqb_neq; lia).
      rewrite N. simpl. lia.
Qed.

#[local] Instance before_antisym : AntiSymm eq before.
Proof.
  intros x y (Hx & Hy & P) (_ & _ & Q). apply pairCompare_antisym; assumption.
Qed.

Lemma Arr_insert_perm {A} (cmp : A -> A -> Z) (x : A) (l : list A) :
  Arr.insert cmp x l ≡ₚ x :: l.
Proof.
  induction l as [|y l IH]; simpl; [reflexivity |].
  destruct (cmp x y <=? 0); [reflexivity |].
  rewrite IH. apply perm_swap.
Qed.

Lemma Arr_sort_perm {A} (cmp : A -> A -> Z) (l : list A) : Arr.sort cmp l ≡ₚ l.
Proof.
  unfold Arr.sort. induction l as [|x l IH]; simpl; [reflexivity |].
  rewrite Arr_insert_perm, IH. reflexivity.
Qed.

Lemma Arr_insert_sorted (x : string * string) (l : list (string * string)) :
  encodedPair x -> Forall encodedPair l ->
  StronglySorted before l -> StronglySorted before (Arr.insert pairCompare x l).
Proof.
  intros Hx. induction l as [|y l IH]; intros Hl S; simpl.
  - repeat constructor.
  - apply Forall_cons in Hl as [Hy Hl]. apply StronglySorted_inv in S as [S F].
    destruct (pairCompare x y <=? 0) eqn:T.
    + apply Z.leb_le in T. constructor; [constructor; assumption |].
      constructor; [split; [exact Hx | split; [exact Hy | exact T]] |].
      rewrite Forall_forall in F, Hl |- *. intros z Hz.
      destruct (F z Hz) as (_ & Pz & Q). split; [exact Hx | split; [exact Pz |]].
      apply (pairCompare_trans x y z); auto.
    + apply Z.leb_gt in T. constructor; [apply IH; assumption |].
      rewrite Arr_insert_perm. constructor; [| exact F].
      split; [exact Hy | split; [exact Hx |]]. apply pairCompare_total; auto; lia.
Qed.

Lemma Arr_sort_sorted (l : list (string * string)) :
  Forall encodedPair l -> StronglySorted before (Arr.sort pairCompare l)
                          /\ Forall encodedPair (Arr.sort pairCompare l).
Proof.
  unfold Arr.sort. induction l as [|x l IH]; intros Hl; simpl.
  - split; constructor.
  - apply Forall_cons in Hl as [Hx Hl]. destruct (IH Hl) as [S F]. split.
    + apply Arr_insert_sorted; assumption.
    + rewrite Arr_insert_perm. constructor; assumption.
Qed.

Lemma mapM_Permutation {A B} (f : A -> option B) (l1 l2 : list A) :
  l1 ≡ₚ l2 ->
  match mapM f l1, mapM f l2 with
  | Some k1, Some k2 => k1 ≡ₚ k2
  | None, None => True
  | _, _ => False
  end.
Proof.
  induction 1 as [|x l l' _ IH|x y l|l l' l'' _ IH1 _ IH2]; simpl.
  - reflexivity.
  - destruct (f x); simpl; [| exact I].
    destruct (mapM f l), (mapM f l'); simpl; try tauto. constructor. exact IH.
  - destruct (f x), (f y); simpl; try exact I; destruct (mapM f l); simpl; try exact I.
    apply perm_swap.
  - destruct (mapM f l), (mapM f l'), (mapM f l''); try tauto. etransitivity; eassumption.
Qed.

Lemma encodeEntries_encoded (q : list (list Z * list Z)) :
  forall l, mapM encodeEntry q = Some l -> Forall encodedPair l.
Proof.
  induction q as [|kv q IH]; intros l E; simpl in E.
  - injection E as <-. constructor.
  - destruct (encodeEntry kv) as [x|] eqn:X; [| discriminate E].
    destruct (mapM encodeEntry q) as [k|]; [| discriminate E].
    simpl in E. injection E as <-. constructor; [| apply IH; reflexivity].
    unfold encodeEntry in X.
    destruct (fixedEncodeURIComponent kv.1) as [key|] eqn:K; [| discriminate X].
    destruct (fixedEncodeURIComponent kv.2) as [value|] eqn:W; [| discriminate X].
    simpl in X. injection X as <-.
    split; [apply (fixedEncodeURIComponent_encoded _ _ K)
           | apply (fixedEncodeURIComponent_encoded _ _ W)].
Qed.

(** X16. The canonical query string does not depend on the order of the
    parameters, which are arbitrary strings of code units: two lists of
    the same parameters both make [encodeURIComponent] throw, or give the
    same string; provided the collation is a strict total order on encoded
    strings. *)
Theorem canonicalQueryString_order (q1 q2 : list (list Z * list Z)) :
  q1 ≡ₚ q2 ->
  canonicalQueryString localeCompare q1 = canonicalQueryString localeCompare q2.
Proof.
  intros Hp. unfold canonicalQueryString.
  pose proof (mapM_Permutation encodeEntry q1 q2 Hp) as P.
  destruct (mapM encodeEntry q1) as [l1|] eqn:E1, (mapM encodeEntry q2) as [l2|] eqn:E2;
    try contradiction; [| reflexivity].
  simpl. do 3 f_equal.
  apply (StronglySorted_unique before).
  - apply Arr_sort_sorted, (encodeEntries_encoded q1), E1.
  - apply Arr_sort_sorted, (encodeEntries_encoded q2), E2.
  - rewrite !Arr_sort_perm. exact P.
Qed.

End CanonicalQuery.

(** ** The canonical headers *)

Section CanonicalHeaders.
Import HttpAuthentication.
Variable URL_parse : string -> option ParsedUrl.
Variable localeCompare : string -> string -> Z.
Variable Date_parse : string -> option Z.

Local Abbreviation validate' := (validate URL_parse localeCompare Date_parse).
Local Abbreviation keyCompare := (fun a b : string * string => localeCompare a.1 b.1).

(** On header names the collation is a strict total order. *)
Hypothesis localeCompare_eq :
  forall a b, CONST_HTTP_HEADER_KEY_REGEX a = true -> CONST_HTTP_HEADER_KEY_REGEX b = true ->
    (localeCompare a b = 0 <-> a = b).
Hypothesis localeCompare_sym :
  forall a b, CONST_HTTP_HEADER_KEY_REGEX a = true -> CONST_HTTP_HEADER_KEY_REGEX b = true ->
    (localeCompare a b < 0 <-> 0 < localeCompare b a).
Hypothesis localeCompare_trans :
  forall a b c, CONST_HTTP_HEADER_KEY_REGEX a = true -> CONST_HTTP_HEADER_KEY_REGEX b = true ->
    CONST_HTTP_HEADER_KEY_REGEX c = true ->
    localeCompare a b < 0 -> localeCompare b c < 0 -> localeCompare a c < 0.

Lemma headerName_antisym (a b : string) :
  CONST_HTTP_HEADER_KEY_REGEX a = true -> CONST_HTTP_HEADER_KEY_REGEX b = true ->
  localeCompare a b <= 0 -> localeCompare b a <= 0 -> a = b.
Proof.
  intros Ka Kb L1 L2.
  destruct (Z.eq_dec (localeCompare a b) 0) as [E|N]; [apply (localeCompare_eq a b Ka Kb), E |].
  assert (Lt : localeCompare a b < 0) by lia.
  apply (localeCompare_sym a b Ka Kb) in Lt. lia.
Qed.

Lemma headerName_total (a b : string) :
  CONST_HTTP_HEADER_KEY_REGEX a = true -> CONST_HTTP_HEADER_KEY_REGEX b = true ->
  localeCompare a b <= 0 \/ localeCompare b a <= 0.
Proof.
  intros Ka Kb.
  destruct (Z.le_gt_cases (localeCompare a b) 0) as [L|G]; [left; exact L |].
  right. apply Z.lt_le_incl, (localeCompare_sym b a Kb Ka). lia.
Qed.

Lemma headerName_le_trans (a b c : string) :
  CONST_HTTP_HEADER_KEY_REGEX a = true -> CONST_HTTP_HEADER_KEY_REGEX b = true ->
  CONST_HTTP_HEADER_KEY_REGEX c = true ->
  localeCompare a b <= 0 -> localeCompare b c <= 0 -> localeCompare a c <= 0.
Proof.
  intros Ka Kb Kc L1 L2.
  destruct (Z.eq_dec (localeCompare a b) 0) as [E1|N1].
  { apply (localeCompare_eq a b Ka Kb) in E1. subst b. exact L2. }
  destruct (Z.eq_dec (localeCompare b c) 0) as [E2|N2].
  { apply (localeCompare_eq b c Kb Kc) in E2. subst c. exact L1. }
  apply Z.lt_le_incl, (localeCompare_trans a b c Ka Kb Kc); lia.
Qed.

Lemma OrdObj_entries_perm {V} (o : list (string * V)) : OrdObj.entries o ≡ₚ o.
Proof.
  unfold OrdObj.entries. rewrite Arr_sort_perm.
  induction o as [|x o IH]; [reflexivity |]. simpl.
  destruct (OrdObj.isArrayIndex x.1); simpl.
  - rewrite IH. reflexivity.
  - rewrite <- Permutation_middle, IH. reflexivity.
Qed.

(** Sorting by key lists objects with the same entries in the same way. *)
Lemma sort_entries_unique (o o' : list (string * string)) :
  NoDup (map fst o) -> NoDup (map fst o') ->
  (forall x, In x o <-> In x o') ->
  (forall x, In x o -> CONST_HTTP_HEADER_KEY_REGEX x.1 = true) ->
  Arr.sort keyCompare (OrdObj.entries o) = Arr.sort keyCompare (OrdObj.entries o').
Proof.
  intros N N' Same Keys.
  set (R := fun x y : string * string => In x o /\ In y o /\ keyCompare x y <= 0).
  assert (Anti : AntiSymm eq R).
  { intros x y (Hx & Hy & P) (_ & _ & Q).
    assert (E : x.1 = y.1) by (apply headerName_antisym; auto).
    destruct x as [k v], y as [k' v']. simpl in E. subst k'. f_equal.
    apply (keys_value o k v v' N Hx Hy). }
  assert (Sorted : forall l, (forall x, In x l -> In x o) ->
                     StronglySorted R (Arr.sort keyCompare l)).
  { unfold Arr.sort. induction l as [|x l IH]; intros Hl; simpl; [constructor |].
    assert (Hx : In x o) by (apply Hl; left; reflexivity).
    assert (Hl' : forall y, In y l -> In y o) by (intros y Hy; apply Hl; right; exact Hy).
    specialize (IH Hl').
    assert (Hall : forall y, In y (fold_right (Arr.insert keyCompare) [] l) -> In y o).
    { intros y Hy. apply Hl'. apply (proj1 (Arr_sort_In keyCompare y l)). exact Hy. }
    revert IH Hall. generalize (fold_right (Arr.insert keyCompare) [] l). clear l Hl Hl'.
    induction l as [|y l IHl]; intros S Hall; simpl.
    - repeat constructor.
    - apply StronglySorted_inv in S as [S F].
      assert (Hy : In y o) by (apply Hall; left; reflexivity).
      destruct (keyCompare x y <=? 0) eqn:T.
      + apply Z.leb_le in T. constructor; [constructor; assumption |].
        constructor; [split; [exact Hx | split; [exact Hy | exact T]] |].
        rewrite Forall_forall in F |- *. intros z Hz.
        destruct (F z Hz) as (_ & Pz & Q). split; [exact Hx | split; [exact Pz |]].
        apply (headerName_le_trans x.1 y.1 z.1); auto.
      + apply Z.leb_gt in T. constructor.
        * apply IHl; [exact S |]. intros z Hz. apply Hall. right. exact Hz.
        * rewrite Arr_insert_perm. constructor; [| exact F].
          split; [exact Hy | split; [exact Hx |]].
          destruct (headerName_total x.1 y.1) as [L|L]; auto. simpl in T. lia. }
  apply (StronglySorted_unique R).
  - apply Sorted. intros x Hx. apply (proj1 (OrdObj_entries_In x o)), Hx.
  - apply Sorted. intros x Hx. apply Same, (proj1 (OrdObj_entries_In x o')), Hx.
  - rewrite !Arr_sort_perm, !OrdObj_entries_perm.
    apply NoDup_Permutation.
    + apply (NoDup_fmap_1 fst), N.
    + apply (NoDup_fmap_1 fst), N'.
    + intros x. rewrite !list_elem_of_In. apply Same.
Qed.

(** The string that is signed, in terms of the request and of the entries
    collected. *)
Lemma validate_Ok_sign (req : HttpHandlerReq) (v : Validated) :
  validate' req = Ok v ->
  exists url d query,
    URL_parse (fullUrl req) = Some url
    /\ headers req !! "x-fomopay-date" = Some d
    /\ headers req !! "x-fomopay-nonce" = Some (v_nonce v)
    /\ canonicalQueryString localeCompare (searchParams url) = Some query
    /\ v_stringToSign v =
       let headersSorted := Arr.sort keyCompare (OrdObj.entries (v_headersRaw v)) in
       CONST_AUTHORIZATION_TYPE +:+ LF +:+ d +:+ LF +:+ v_nonce v +:+ LF +:+
       Js.toLowerCase
         (Sha256.digest_hex
            (Js.Buffer_from
               (canonicalRequest req url query headersSorted
                  (Js.join ";" (map fst headersSorted))
                  (Js.toLowerCase (Sha256.digest_hex (default "" (body req))))))).
Proof.
  intros E. unfold validate in E.
  unfold mbind, mret, Res_bind, Res_ret, res_bind, guard, assertString in E.
  destruct (parseAuthorization req) as [creds|]; [| discriminate E].
  destruct (parseCredentialFields creds) as [[[cred sh] sig]|]; [| discriminate E].
  destruct (bool_decide (length _ = size _)); [| discriminate E].
  destruct (URL_parse (fullUrl req)) as [url|]; [| discriminate E].
  destruct (Nat.even (length (rawHeaders req))); [| discriminate E].
  destruct (collectHeaders _ _ (rawHeaders req)) as [[rest hr]|]; [| discriminate E].
  destruct (bool_decide (size rest = 0%nat)); [| discriminate E].
  destruct (bool_decide (_ = sh)); [| discriminate E].
  destruct (headers req !! "x-fomopay-nonce") as [nonce|]; [| discriminate E].
  destruct (nonceRegex _); [| discriminate E].
  destruct (headers req !! "x-fomopay-content-sha256"); [| discriminate E].
  destruct (bool_decide (_ = Js.toLowerCase _)); [| discriminate E].
  destruct (headers req !! "x-fomopay-date") as [d|]; [| discriminate E].
  destruct (checkDate Date_parse _); [| discriminate E].
  destruct (canonicalQueryString _ _) as [query|] eqn:Q; [| discriminate E].
  injection E as <-. simpl. exists url, d, query. auto.
Qed.

(** X26. The string that is signed does not depend on the order of the raw
    headers, nor on the case of their names or the blanks around their
    values: two requests that both pass validation, with the same parsed
    headers, URL, verb and body, whose raw headers give the same names in
    lower case with the same trimmed values, have the same string to sign,
    the same credential and signature, and the same entries collected;
    provided the collation is a strict total order on header names. *)
Theorem canonical_headers_order (req req' : HttpHandlerReq) (v v' : Validated) :
  validate' req = Ok v ->
  validate' req' = Ok v' ->
  headers req' = headers req ->
  fullUrl req' = fullUrl req ->
  method req' = method req ->
  body req' = body req ->
  (forall k val, fromRaw (rawHeaders req') k val <-> fromRaw (rawHeaders req) k val) ->
  v_stringToSign v' = v_stringToSign v
  /\ v_credential v' = v_credential v
  /\ v_signature v' = v_signature v
  /\ (forall x, In x (v_headersRaw v') <-> In x (v_headersRaw v)).
Proof.
  intros V V' Hh Hu Hm Hb Hraw.
  destruct (validate_Ok_entries URL_parse localeCompare Date_parse req v V)
    as (creds & cred & sh & sig & Ha & Hf & _ & He & Hk & Hn).
  destruct (validate_Ok_entries URL_parse localeCompare Date_parse req' v' V')
    as (creds' & cred' & sh' & sig' & Ha' & Hf' & _ & He' & _ & Hn').
  assert (Ec : creds' = creds).
  { unfold parseAuthorization in Ha'. rewrite Hh in Ha'.
    fold (parseAuthorization req) in Ha'. congruence. }
  subst creds'. rewrite Hf in Hf'. injection Hf' as <- <- <-.
  assert (Same : forall x, In x (v_headersRaw v') <-> In x (v_headersRaw v)).
  { intros [k val]. rewrite He, He', Hraw. reflexivity. }
  assert (Sorted : Arr.sort keyCompare (OrdObj.entries (v_headersRaw v'))
                   = Arr.sort keyCompare (OrdObj.entries (v_headersRaw v))).
  { symmetry. apply sort_entries_unique; [exact Hn | exact Hn' | |].
    - intros x. symmetry. apply Same.
    - intros [k val] I. apply (Hk k val I). }
  destruct (validate_Ok URL_parse localeCompare Date_parse req v V)
    as (c1 & sh1 & _ & _ & _ & A1 & F1 & _).
  destruct (validate_Ok URL_parse localeCompare Date_parse req' v' V')
    as (c2 & sh2 & _ & _ & _ & A2 & F2 & _).
  rewrite Ha in A1. injection A1 as <-. rewrite Ha' in A2. injection A2 as <-.
  rewrite Hf in F1, F2. injection F1 as F1c F1s. injection F2 as F2c F2s.
  destruct (validate_Ok_sign req v V) as (url & d & query & U & D & Nn & Qs & S).
  destruct (validate_Ok_sign req' v' V') as (url' & d' & query' & U' & D' & Nn' & Qs' & S').
  rewrite Hu, U in U'. injection U' as <-.
  rewrite Qs in Qs'. injection Qs' as <-.
  rewrite Hh, D in D'. injection D' as <-.
  rewrite Hh, Nn in Nn'. injection Nn' as Nn'.
  split; [| split; [congruence | split; [congruence | exact Same]]].
  rewrite S, S'. cbv zeta. rewrite Sorted, <- Nn', Hb.
  unfold canonicalRequest. rewrite Hm. reflexivity.
Qed.

End CanonicalHeaders.

(** ** The verifier as a whole *)

Section VerifierMore.
Import HttpAuthentication.
Context {C : Type} `{IConfigCache Null C}.
Variable Json : Type.
Variable URL_parse : string -> option ParsedUrl.
Variable localeCompare : string -> string -> Z.
Variable Date_parse : string -> option Z.
Variable merchantConfig_get : string -> option (option Merchant).
Variable rsa_verify : string -> string -> string -> option bool.
Variable JSON_parse : string -> option Json.

Local Abbreviation validate' := (validate URL_parse localeCompare Date_parse).
Local Abbreviation authenticate' :=
  (authenticate Json URL_parse localeCompare Date_parse merchantConfig_get rsa_verify JSON_parse).
Local Abbreviation middleware' :=
  (HttpAuthenticationMiddleware Json URL_parse localeCompare Date_parse merchantConfig_get
     rsa_verify JSON_parse).
Local Abbreviation checkedBeforeReplay' :=
  (checkedBeforeReplay URL_parse localeCompare Date_parse merchantConfig_get rsa_verify).

(** The run of [authenticate] once the checks that precede the replay check
    have passed. *)
Lemma authenticate_checked (e : Env) (req : HttpHandlerReq) (w : World C Json) (v : Validated) :
  checkedBeforeReplay' e req = Some v ->
  exists key,
    merchantConfig_get (v_credential v) = Some (Some {| publicKey := Some key |})
    /\ authenticate' e req w =
       (let w1 := emit (VerifySignature key (v_stringToSign v) (v_signature v))
                    (emit (MerchantConfigGet (v_credential v)) w) in
        let idempotent := idempotentVerb (method req) in
        let w2 := emit (NonceControllerAdd (v_credential v) (v_nonce v) idempotent) w1 in
        match NonceController.add e (v_credential v) (v_nonce v) idempotent (configCache w) with
        | (Ok true, c) =>
            let w3 := {| configCache := c; dataStorage := dataStorage w; trace := trace w2 |} in
            let attach json w4 :=
              match dataStorage w !! "httpAuthentication" with
              | Some (_, true) => (Err OtherError, w4)
              | _ =>
                  (Ok tt,
                   emit Next
                     {| configCache := c;
                        dataStorage :=
                          <["httpAuthentication" :=
                              ({| pl_merchant := v_credential v; pl_json := json;
                                  pl_headers := v_headersRaw v |}, true)]> (dataStorage w);
                        trace := trace w4 |})
              end in
            if 0 <? Js.slength (v_reqBody v) then
              match JSON_parse (v_reqBody v) with
              | Some j => attach (Some j) (emit JsonParse w3)
              | None => (Err (AuthError 0x0018 JsonUnparsable), emit JsonParse w3)
              end
            else attach None w3
        | (_, c) =>
            (Err (AuthError 0x0019 NonceRejected),
             {| configCache := c; dataStorage := dataStorage w; trace := trace w2 |})
        end).
Proof.
  unfold checkedBeforeReplay. intros Hc.
  destruct (validate' req) as [v0|err] eqn:V; [| discriminate Hc].
  destruct (merchantConfig_get (v_credential v0)) as [[[[key|]]|]|] eqn:Hm; try discriminate Hc.
  destruct (rsa_verify key _ _) as [[|]|] eqn:Hr; try discriminate Hc.
  destruct (Z.abs (now e - v_dateInst v0) <=? 300000) eqn:Hf; [| discriminate Hc].
  injection Hc as ->. exists key. split; [exact Hm |].
  rewrite Z.leb_antisym in Hf.
  unfold authenticate, mbind, M_bind, lift, throw, call, catchAll, assert, nonceControllerAdd,
    dataSet, guard, assertString, mret, M_ret.
  rewrite V. simpl. rewrite Hm. simpl. rewrite Hr. simpl. rewrite Hf. simpl.
  destruct (NonceController.add e (v_credential v) (v_nonce v) (idempotentVerb (method req))
              (configCache w)) as [[[|]|err] c']; simpl; try reflexivity.
  destruct (0 <? Js.slength (v_reqBody v)); simpl.
  - destruct (JSON_parse (v_reqBody v)) as [j|]; simpl; [| reflexivity].
    destruct (dataStorage w !! "httpAuthentication") as [[pl [|]]|]; reflexivity.
  - destruct (dataStorage w !! "httpAuthentication") as [[pl [|]]|]; reflexivity.
Qed.

(** The run of [authenticate] when one of these checks fails. *)
Lemma authenticate_unchecked (e : Env) (req : HttpHandlerReq) (w : World C Json) :
  checkedBeforeReplay' e req = None ->
  exists err w' evs,
    authenticate' e req w = (Err err, w')
    /\ configCache w' = configCache w
    /\ dataStorage w' = dataStorage w
    /\ trace w' = (trace w ++ evs)%list
    /\ List.filter isResponse evs = [].
Proof.
  unfold checkedBeforeReplay. intros Hc.
  destruct (validate' req) as [v|err] eqn:V.
  2:{ exists err, w, []. rewrite (authenticate_validate_Err _ _ _ _ _ _ _ e req w err V).
      rewrite app_nil_r. auto. }
  rewrite Z.leb_antisym in Hc.
  unfold authenticate, mbind, M_bind, lift, throw, call, catchAll, assert, nonceControllerAdd,
    dataSet, guard, assertString, mret, M_ret.
  rewrite V. simpl.
  destruct (merchantConfig_get (v_credential v)) as [[[[key|]]|]|]; simpl;
    try (eexists _, _, _; split; [reflexivity |]; simpl; rewrite <- ?app_assoc; auto).
  destruct (rsa_verify key _ _) as [[|]|]; simpl;
    try (eexists _, _, _; split; [reflexivity |]; simpl; rewrite <- ?app_assoc; auto).
  destruct (negb (300000 <? Z.abs (now e - v_dateInst v))); [discriminate Hc |]. simpl.
  eexists _, _, _; split; [reflexivity |]; simpl; rewrite <- ?app_assoc; auto.
Qed.

(** X17. The middleware ends every request in exactly one way, [next()]
    itself returning normally: [next()] when the run succeeds, the 401
    response when it ends in an [AuthError], [next(e)] when it ends in any
    other exception; the calls made before are kept.  The data attached to the request changes only on success,
    and then by the one entry [httpAuthentication], immutable, that holds
    the tenant, the parsed body (nothing for an empty body) and the signed
    headers. *)
Theorem middleware_outcome (e : Env) (req : HttpHandlerReq) (w : World C Json) :
  let w' := middleware' e req w in
  take (length (trace w)) (trace w') = trace w
  /\ List.filter isResponse (drop (length (trace w)) (trace w'))
     = [match (authenticate' e req w).1 with
        | Ok _ => Next
        | Err (AuthError _ _) => Status401
        | Err OtherError => NextError
        end]
  /\ match (authenticate' e req w).1 with
     | Ok _ =>
         exists v,
           checkedBeforeReplay' e req = Some v
           /\ dataStorage w' =
              <["httpAuthentication" :=
                  ({| pl_merchant := v_credential v;
                      pl_json := if 0 <? Js.slength (v_reqBody v)
                                 then JSON_parse (v_reqBody v) else None;
                      pl_headers := v_headersRaw v |}, true)]> (dataStorage w)
     | Err _ => dataStorage w' = dataStorage w
     end.
Proof.
  intros w'. subst w'. unfold HttpAuthenticationMiddleware.
  destruct (checkedBeforeReplay' e req) as [v|] eqn:Hc.
  - destruct (authenticate_checked e req w v Hc) as (key & _ & ->).
    cbv zeta.
    destruct (NonceController.add e (v_credential v) (v_nonce v) (idempotentVerb (method req))
                (configCache w)) as [[[|]|err] c']; simpl;
      try (rewrite <- ?app_assoc, take_app_length, drop_app_length; simpl; auto).
    destruct (0 <? Js.slength (v_reqBody v)) eqn:B; simpl.
    + destruct (JSON_parse (v_reqBody v)) as [j|] eqn:J; simpl.
      * destruct (dataStorage w !! "httpAuthentication") as [[pl [|]]|]; simpl;
          rewrite <- ?app_assoc, take_app_length, drop_app_length; simpl; auto;
          (split; [reflexivity |]); (split; [reflexivity |]);
          exists v; rewrite B, J; auto.
      * rewrite <- ?app_assoc, take_app_length, drop_app_length; simpl; auto.
    + destruct (dataStorage w !! "httpAuthentication") as [[pl [|]]|]; simpl;
        rewrite <- ?app_assoc, take_app_length, drop_app_length; simpl; auto;
        (split; [reflexivity |]); (split; [reflexivity |]);
        exists v; rewrite B; auto.
  - destruct (authenticate_unchecked e req w Hc) as (err & w1 & evs & -> & _ & Hd & Ht & Hf).
    simpl. destruct err; simpl; rewrite Ht, <- ?app_assoc, take_app_length, drop_app_length,
      List.filter_app, Hf; simpl; auto.
Qed.

(** An accepted request has passed the checks that precede the replay
    check, and the replay guard has answered [true]. *)
Lemma authenticate_accepts (e : Env) (req : HttpHandlerReq) (w : World C Json) :
  (authenticate' e req w).1 = Ok tt ->
  exists v,
    checkedBeforeReplay' e req = Some v
    /\ (NonceController.add e (v_credential v) (v_nonce v) (idempotentVerb (method req))
          (configCache w)).1 = Ok true.
Proof.
  destruct (checkedBeforeReplay' e req) as [v|] eqn:Hc.
  - destruct (authenticate_checked e req w v Hc) as (key & _ & ->). cbv zeta.
    destruct (NonceController.add e (v_credential v) (v_nonce v) (idempotentVerb (method req))
                (configCache w)) as [[[|]|err] c'] eqn:A; simpl; try discriminate.
    intros _. exists v. rewrite A. split; reflexivity.
  - destruct (authenticate_unchecked e req w Hc) as (err & w1 & evs & -> & _). discriminate.
Qed.

(** The cache after a run is the cache that the replay guard leaves. *)
Lemma authenticate_configCache (e : Env) (req : HttpHandlerReq) (w : World C Json)
    (v : Validated) :
  checkedBeforeReplay' e req = Some v ->
  configCache (authenticate' e req w).2
  = (NonceController.add e (v_credential v) (v_nonce v) (idempotentVerb (method req))
       (configCache w)).2.
Proof.
  intros Hc. destruct (authenticate_checked e req w v Hc) as (key & _ & ->). cbv zeta.
  destruct (NonceController.add e (v_credential v) (v_nonce v) (idempotentVerb (method req))
              (configCache w)) as [[[|]|err] c']; simpl; try reflexivity.
  destruct (0 <? Js.slength (v_reqBody v)); simpl.
  - destruct (JSON_parse (v_reqBody v)) as [j|]; simpl; [| reflexivity].
    destruct (dataStorage w !! "httpAuthentication") as [[pl [|]]|]; reflexivity.
  - destruct (dataStorage w !! "httpAuthentication") as [[pl [|]]|]; reflexivity.
Qed.

(** A request that the replay guard refuses is rejected. *)
Lemma authenticate_replayed (e : Env) (req : HttpHandlerReq) (w : World C Json)
    (v : Validated) :
  checkedBeforeReplay' e req = Some v ->
  (NonceController.add e (v_credential v) (v_nonce v) (idempotentVerb (method req))
     (configCache w)).1 = Ok false ->
  (authenticate' e req w).1 = Err (AuthError 0x0019 NonceRejected).
Proof.
  intros Hc A. destruct (authenticate_checked e req w v Hc) as (key & _ & ->). cbv zeta.
  destruct (NonceController.add e (v_credential v) (v_nonce v) (idempotentVerb (method req))
              (configCache w)) as [r c']. simpl in A. subst r. reflexivity.
Qed.

(** X18. A request is accepted exactly when validation, the tenant's
    key, the signature and the freshness of the timestamp have passed, the
    replay guard has answered [true], the body is empty or parses as JSON,
    and the request carries no immutable [httpAuthentication] entry yet. *)
Theorem acceptance (e : Env) (req : HttpHandlerReq) (w : World C Json) :
  (authenticate' e req w).1 = Ok tt <->
  exists v,
    checkedBeforeReplay' e req = Some v
    /\ (NonceController.add e (v_credential v) (v_nonce v) (idempotentVerb (method req))
          (configCache w)).1 = Ok true
    /\ (0 < Js.slength (v_reqBody v) -> is_Some (JSON_parse (v_reqBody v)))
    /\ (forall pl, dataStorage w !! "httpAuthentication" <> Some (pl, true)).
Proof.
  destruct (checkedBeforeReplay' e req) as [v|] eqn:Hc.
  - destruct (authenticate_checked e req w v Hc) as (key & _ & ->).
    cbv zeta.
    destruct (NonceController.add e (v_credential v) (v_nonce v) (idempotentVerb (method req))
                (configCache w)) as [[[|]|err] c'] eqn:A; simpl.
    2,3: split; [discriminate | intros (v' & [= <-] & A' & _); rewrite A in A'; discriminate A'].
    assert (Hslot : forall (j : option Json) (w4 : World C Json),
               (match dataStorage w !! "httpAuthentication" with
                | Some (_, true) => (Err OtherError, w4)
                | _ => (Ok tt,
                        emit Next
                          {| configCache := c';
                             dataStorage :=
                               <["httpAuthentication" :=
                                   ({| pl_merchant := v_credential v; pl_json := j;
                                       pl_headers := v_headersRaw v |}, true)]> (dataStorage w);
                             trace := trace w4 |})
                end).1 = Ok tt <->
               (forall pl, dataStorage w !! "httpAuthentication" <> Some (pl, true))).
    { intros j w4. destruct (dataStorage w !! "httpAuthentication") as [[pl [|]]|]; simpl.
      - split; [discriminate | intros N; exfalso; apply (N pl); reflexivity].
      - split; [intros _ pl'; discriminate | reflexivity].
      - split; [intros _ pl'; discriminate | reflexivity]. }
    destruct (0 <? Js.slength (v_reqBody v)) eqn:B.
    + apply Z.ltb_lt in B.
      destruct (JSON_parse (v_reqBody v)) as [j|] eqn:J.
      * rewrite Hslot. split.
        -- intros N. exists v. rewrite A. repeat split; eauto.
        -- intros (v' & _ & _ & _ & N). exact N.
      * simpl. split; [discriminate |].
        intros (v' & [= <-] & _ & P & _). destruct (P B) as [j J']. rewrite J in J'. discriminate J'.
    + apply Z.ltb_ge in B. rewrite Hslot. split.
      * intros N. exists v. rewrite A. repeat split; [lia | exact N].
      * intros (v' & _ & _ & _ & N). exact N.
  - destruct (authenticate_unchecked e req w Hc) as (err & w1 & evs & -> & _).
    simpl. split; [discriminate | intros (v & E & _); discriminate E].
Qed.


End VerifierMore.

(** ** Replay protection, end to end *)

Section ReplayEndToEnd.
Import HttpAuthentication.
Variable Json : Type.
Variable URL_parse : string -> option ParsedUrl.
Variable localeCompare : string -> string -> Z.
Variable Date_parse : string -> option Z.
Variable merchantConfig_get : string -> option (option Merchant).
Variable rsa_verify : string -> string -> string -> option bool.
Variable JSON_parse : string -> option Json.

Local Abbreviation LocalWorld := (World (Local.ConfigCache Null) Json).
Local Abbreviation authenticate' :=
  (authenticate Json URL_parse localeCompare Date_parse merchantConfig_get rsa_verify JSON_parse).
Local Abbreviation middleware' :=
  (HttpAuthenticationMiddleware Json URL_parse localeCompare Date_parse merchantConfig_get
     rsa_verify JSON_parse).
Local Abbreviation checkedBeforeReplay' :=
  (checkedBeforeReplay URL_parse localeCompare Date_parse merchantConfig_get rsa_verify).

(** The checks that precede the replay check depend on the clock through
    the freshness of the timestamp only. *)
Lemma checkedBeforeReplay_clock (e e' : Env) (req : HttpHandlerReq) (v : Validated) :
  checkedBeforeReplay' e req = Some v ->
  Z.abs (now e - v_dateInst v) <= 300000
  /\ checkedBeforeReplay' e' req
     = (if Z.abs (now e' - v_dateInst v) <=? 300000 then Some v else None).
Proof.
  unfold checkedBeforeReplay.
  destruct (validate URL_parse localeCompare Date_parse req) as [v0|err]; [| discriminate].
  destruct (merchantConfig_get (v_credential v0)) as [[[[key|]]|]|]; try discriminate.
  destruct (rsa_verify key _ _) as [[|]|]; try discriminate.
  destruct (Z.abs (now e - v_dateInst v0) <=? 300000) eqn:F; [| discriminate].
  intros [= ->]. apply Z.leb_le in F. split; [exact F | reflexivity].
Qed.

Lemma authenticate_stale (e e' : Env) (req : HttpHandlerReq) (w : LocalWorld) (v : Validated) :
  checkedBeforeReplay' e req = Some v ->
  300000 < Z.abs (now e' - v_dateInst v) ->
  (authenticate' e' req w).1 = Err (AuthError 0x0019 TimestampOutOfRange).
Proof.
  unfold checkedBeforeReplay. intros Hc Hstale.
  destruct (validate URL_parse localeCompare Date_parse req) as [v0|err] eqn:V; [| discriminate Hc].
  destruct (merchantConfig_get (v_credential v0)) as [[[[key|]]|]|] eqn:Hm; try discriminate Hc.
  destruct (rsa_verify key _ _) as [[|]|] eqn:Hr; try discriminate Hc.
  destruct (Z.abs (now e - v_dateInst v0) <=? 300000); [| discriminate Hc].
  injection Hc as ->.
  apply Z.ltb_lt in Hstale.
  unfold authenticate, mbind, M_bind, lift, throw, call, catchAll, assert, nonceControllerAdd,
    dataSet, guard, assertString, mret, M_ret.
  rewrite V. simpl. rewrite Hm. simpl. rewrite Hr. simpl. rewrite Hstale. reflexivity.
Qed.

(** X19. Replay protection, end to end, on the local backend: a request
    with a non-idempotent verb that has been accepted is rejected with
    code [0x0019] when it is presented again, the collaborators answering
    as they did, as long as the waiter has not run at or after the
    expiration of its nonce; with a TTL above 600 seconds, twice the window
    of the timestamp, this holds however late the request comes back.  The
    pipeline is not continued. *)
Theorem replay_rejected (e e' : Env) (t : Z) (req : HttpHandlerReq) (w w2 : LocalWorld) :
  (authenticate' e req w).1 = Ok tt ->
  idempotentVerb (method req) = false ->
  configCache w2 = Local.wake t (configCache (authenticate' e req w).2) ->
  t < Local.optTtlMs (configCache w) + now e
  \/ (t <= now e' /\ 600000 < Local.optTtlMs (configCache w)) ->
  exists f,
    (authenticate' e' req w2).1 = Err (AuthError 0x0019 f)
    /\ (f = TimestampOutOfRange \/ f = NonceRejected)
    /\ Next ∉ drop (length (trace w2)) (trace (middleware' e' req w2)).
Proof.
  intros A Hverb Hcache Hkept.
  apply authenticate_accepts in A as (v & Hc & Add).
  destruct (checkedBeforeReplay_clock e e' req v Hc) as [Hfresh Hc'].
  assert (R : exists f, (authenticate' e' req w2).1 = Err (AuthError 0x0019 f)
                        /\ (f = TimestampOutOfRange \/ f = NonceRejected)).
  { destruct (Z.abs (now e' - v_dateInst v) <=? 300000) eqn:F.
    - apply Z.leb_le in F. exists NonceRejected. split; [| right; reflexivity].
      apply (authenticate_replayed _ _ _ _ _ _ _ e' req w2 v Hc').
      rewrite Hcache, (authenticate_configCache _ _ _ _ _ _ _ e req w v Hc), Hverb in *.
      rewrite add_false_local,
        (add_true_wake e t (v_credential v) (v_nonce v) false (configCache w) Add).
      assert (K : (Local.optTtlMs (configCache w) + now e <=? t) = false)
        by (apply Z.leb_gt; lia).
      rewrite K, andb_false_r. reflexivity.
    - apply Z.leb_gt in F. exists TimestampOutOfRange. split; [| left; reflexivity].
      apply (authenticate_stale e e' req w2 v Hc F). }
  destruct R as (f & R & Hf). exists f. split; [exact R |]. split; [exact Hf |].
  apply (middleware_rejects Json URL_parse localeCompare Date_parse merchantConfig_get
           rsa_verify JSON_parse e' req w2 _ R).
Qed.

End ReplayEndToEnd.

(** ** The data attached to a request *)

Section RequestData.
Context {A : Type}.
Import HttpRequestData.

Lemma HttpRequestData_set_frozen (key : string) (v x : A) (o : option Options)
    (d : gmap string (A * bool)) :
  d !! key = Some (v, true) -> set key x o d = Err OtherError.
Proof.
  intros L. unfold set, Obj.objectHasKey. rewrite L.
  rewrite bool_decide_eq_true_2 by eauto. reflexivity.
Qed.

Lemma HttpRequestData_set_other (key k : string) (x : A) (o : option Options)
    (d : gmap string (A * bool)) :
  k <> key -> afterSet (set k x o d) d !! key = d !! key.
Proof.
  intros Hne. unfold set. destruct (_ && _); [reflexivity |]. simpl.
  unfold Obj.assign. destruct (bool_decide (k = "__proto__")); [reflexivity |].
  apply lookup_insert_ne. exact Hne.
Qed.

Lemma HttpRequestData_sets_frozen (key : string) (v : A)
    (calls : list (string * A * option Options)) :
  forall d : gmap string (A * bool),
    d !! key = Some (v, true) -> sets calls d !! key = Some (v, true).
Proof.
  unfold sets. induction calls as [|[[k x] o] calls IH]; intros d L; [exact L |].
  simpl. apply IH. destruct (decide (k = key)) as [->|Hne].
  - rewrite (HttpRequestData_set_frozen key v x o d L). exact L.
  - rewrite (HttpRequestData_set_other key k x o d Hne). exact L.
Qed.

(** X20. Data attached to a request, write once: after [set(key, v)] with
    the default options has succeeded, for a key other than [__proto__],
    every later [set] of the key throws and [get(key)] returns [v],
    whatever calls of [set] are made in between; the other keys were left
    as they were. *)
Theorem request_data_write_once (key : string) (v : A) (d d' : gmap string (A * bool))
    (calls : list (string * A * option Options)) :
  key <> "__proto__" ->
  set key v None d = Ok d' ->
  get key (sets calls d') = Ok v
  /\ (forall (x : A) (o : option Options), set key x o (sets calls d') = Err OtherError)
  /\ (forall k, k <> key -> d' !! k = d !! k).
Proof.
  intros Hk S.
  assert (L : d' !! key = Some (v, true)).
  { unfold set in S. destruct (_ && _); [discriminate S |]. injection S as <-.
    unfold Obj.assign. rewrite bool_decide_eq_false_2 by exact Hk.
    apply lookup_insert_eq. }
  pose proof (HttpRequestData_sets_frozen key v calls d' L) as L'.
  split; [| split].
  - unfold get, Obj.objectHasKey. rewrite L'.
    rewrite bool_decide_eq_true_2 by eauto. reflexivity.
  - intros x o. apply (HttpRequestData_set_frozen key v x o _ L').
  - intros k Hne. unfold set in S. destruct (_ && _); [discriminate S |]. injection S as <-.
    unfold Obj.assign. rewrite bool_decide_eq_false_2 by exact Hk.
    apply lookup_insert_ne. intros E. apply Hne. symmetry. exact E.
Qed.

(** X21. Data attached to a request: [get] throws exactly for the keys
    that hold no entry; an entry stored as mutable can be replaced, [get]
    then returns the new value, and the new entry is immutable unless the
    options say otherwise. *)
Theorem request_data_get (key : string) (d : gmap string (A * bool)) :
  (get key d = Err OtherError <-> d !! key = None)
  /\ (forall (v x : A) (o : option Options),
        d !! key = Some (v, false) ->
        key <> "__proto__" ->
        exists d', set key x o d = Ok d' /\ get key d' = Ok x
                   /\ d' !! key = Some (x, default true (immutable <$> o))).
Proof.
  split.
  - unfold get, Obj.objectHasKey. destruct (d !! key) as [[v flag]|].
    + rewrite bool_decide_eq_true_2 by eauto. simpl. split; discriminate.
    + rewrite bool_decide_eq_false_2 by (intros [? ?]; discriminate). simpl. tauto.
  - intros v x o L Hk.
    exists (<[key := (x, default true (immutable <$> o))]> d). split; [| split].
    + unfold set, Obj.assign. rewrite L, andb_false_r.
      rewrite bool_decide_eq_false_2 by exact Hk. destruct o as [[flag]|]; reflexivity.
    + unfold get, Obj.objectHasKey. rewrite lookup_insert_eq. reflexivity.
    + apply lookup_insert_eq.
Qed.

End RequestData.

Section MiddlewareData.
Import HttpAuthentication.
Context {C : Type} `{IConfigCache Null C}.
Variable Json : Type.

(** The middleware attaches its payload through [HttpRequestData.set] with
    the default options. *)
Lemma dataSet_set (key : string) (value : HttpAuthenticationPayload Json) (w : World C Json) :
  dataSet Json key value w =
  match HttpRequestData.set key value None (dataStorage w) with
  | Ok d => (Ok tt, {| configCache := configCache w; dataStorage := d; trace := trace w |})
  | Err err => (Err err, w)
  end.
Proof.
  unfold dataSet, HttpRequestData.set, Obj.objectHasKey.
  destruct (dataStorage w !! key) as [[pl [|]]|]; reflexivity.
Qed.

End MiddlewareData.

(** ** The merchant configuration *)

Section MerchantConfigMore.
Import MerchantConfig.
Context {Row Config : Type}.
Variable readRow : Row -> option Config.

Local Abbreviation get' := (get readRow).

Lemma MerchantConfig_get_hit (db : string -> option (list Row)) (e : Env) (merchant : string)
    (s : State) (value : option Config) :
  Local.get merchant (dataConfigCache s) = Some value ->
  get' db e merchant s = (Ok value, s).
Proof. intros G. unfold get, cache_get, Local.impl. rewrite G. reflexivity. Qed.

Lemma MerchantConfig_store (e : Env) (merchant : string) (value : option Config) (s : State) :
  merchant <> "__proto__" ->
  store e merchant value s =
  (Ok value,
   {| dataConfigCache :=
        {| Local.optTtlMs := Local.optTtlMs (dataConfigCache s);
           Local.dataData :=
             <[merchant := {| Local.exp := Local.optTtlMs (dataConfigCache s) + now e;
                              Local.value := value |}]> (Local.dataData (dataConfigCache s));
           Local.wakeAt :=
             now e + Local.interval (now e)
                       (<[merchant := {| Local.exp := Local.optTtlMs (dataConfigCache s) + now e;
                                         Local.value := value |}]>
                          (Local.dataData (dataConfigCache s))) |};
      queried := queried s |}).
Proof.
  intros Hk. unfold store, cache_set, Local.impl, Local.set, Obj.assign.
  rewrite bool_decide_eq_false_2 by exact Hk. reflexivity.
Qed.

Lemma MerchantConfig_get_miss (db : string -> option (list Row)) (e : Env) (merchant : string)
    (s : State) :
  merchant <> "__proto__" ->
  Local.get merchant (dataConfigCache s) = None ->
  queried (get' db e merchant s).2 = (queried s ++ [merchant])%list
  /\ match (get' db e merchant s).1 with
     | Ok value =>
         Local.dataData (dataConfigCache (get' db e merchant s).2) !! merchant
         = Some {| Local.exp := Local.optTtlMs (dataConfigCache s) + now e;
                   Local.value := value |}
     | Err _ => dataConfigCache (get' db e merchant s).2 = dataConfigCache s
     end.
Proof.
  intros Hk G. unfold get, cache_get, Local.impl. rewrite G.
  destruct (db merchant) as [[|row [|row' rows]]|];
    try destruct (readRow row) as [cfg|];
    rewrite ?MerchantConfig_store by exact Hk; simpl;
    (split; [reflexivity |]); first [apply lookup_insert_eq | reflexivity].
Qed.

(** X22. [MerchantConfig.get], for a merchant other than [__proto__] that
    the cache does not hold: the database is queried once.  An answer, a
    configuration or [null] for an unknown merchant, is cached: until the
    waiter has run at or after its expiration, one TTL later, [get]
    returns the same answer without a query and leaves the state as it is;
    after that the database is queried again.  A failure is not cached: the
    cache is left as it was and the next [get] queries again. *)
Theorem merchant_config_cached (db db' : string -> option (list Row)) (e e' : Env) (t : Z)
    (merchant : string) (s : State) :
  merchant <> "__proto__" ->
  Local.get merchant (dataConfigCache s) = None ->
  let r := (get' db e merchant s).1 in
  let s' := (get' db e merchant s).2 in
  queried s' = (queried s ++ [merchant])%list
  /\ match r with
     | Ok value =>
         (t < Local.wakeAt (dataConfigCache s')
          \/ t < Local.optTtlMs (dataConfigCache s) + now e ->
          get' db' e' merchant (wake t s') = (Ok value, wake t s'))
         /\ (Local.wakeAt (dataConfigCache s') <= t ->
             Local.optTtlMs (dataConfigCache s) + now e <= t ->
             queried (get' db' e' merchant (wake t s')).2
             = (queried s ++ [merchant; merchant])%list)
     | Err _ =>
         dataConfigCache s' = dataConfigCache s
         /\ queried (get' db' e' merchant s').2 = (queried s ++ [merchant; merchant])%list
     end.
Proof.
  intros Hk G r s'. subst r s'.
  destruct (MerchantConfig_get_miss db e merchant s Hk G) as [Q R].
  split; [exact Q |].
  destruct (get' db e merchant s) as [[value|err] s'] eqn:E; simpl in *.
  - assert (W : Local.dataData (dataConfigCache (wake t s')) !! merchant =
                if (Local.wakeAt (dataConfigCache s') <=? t)
                   && (Local.optTtlMs (dataConfigCache s) + now e <=? t)
                then None
                else Some {| Local.exp := Local.optTtlMs (dataConfigCache s) + now e;
                             Local.value := value |}).
    { unfold wake. simpl. rewrite Local_wake_lookup, R. simpl.
      destruct (Local.wakeAt (dataConfigCache s') <=? t); [| reflexivity]. simpl.
      rewrite Z.leb_antisym. destruct (t <? _); reflexivity. }
    split.
    + intros Hfresh. apply MerchantConfig_get_hit.
      rewrite Local_get_lookup, W.
      destruct (Local.wakeAt (dataConfigCache s') <=? t) eqn:T1; [| reflexivity].
      destruct (Local.optTtlMs (dataConfigCache s) + now e <=? t) eqn:T2; [| reflexivity].
      apply Z.leb_le in T1, T2. lia.
    + intros T1 T2.
      assert (G' : Local.get merchant (dataConfigCache (wake t s')) = None).
      { rewrite Local_get_lookup, W.
        rewrite (proj2 (Z.leb_le _ _) T1), (proj2 (Z.leb_le _ _) T2). reflexivity. }
      destruct (MerchantConfig_get_miss db' e' merchant (wake t s') Hk G') as [Q' _].
      rewrite Q'. simpl. rewrite Q, <- app_assoc. reflexivity.
  - split; [exact R |].
    assert (G' : Local.get merchant (dataConfigCache s') = None) by (rewrite R; exact G).
    destruct (MerchantConfig_get_miss db' e' merchant s' Hk G') as [Q' _].
    rewrite Q', Q, <- app_assoc. reflexivity.
Qed.

End MerchantConfigMore.

(** ** Retrying the outbound request *)

Section RetryMore.
Import Xchange.
Context {D : Type}.
Variable request : nat -> Exception + D.

Lemma loop_spec (turns : nat) :
  forall i : nat,
    let r := (loop request turns i).1 in
    let k := (loop request turns i).2 in
    (i <= k <= i + turns)%nat
    /\ (forall j, (i <= j)%nat -> (S j < k)%nat ->
          exists e, request j = inl e /\ retried e = true)
    /\ match r with
       | inr data => (i < k)%nat /\ request (pred k) = inr data
       | inl (Rethrown e) => (i < k)%nat /\ request (pred k) = inl e /\ retried e = false
       | inl TooManyFails =>
           k = (i + turns)%nat
           /\ forall j, (i <= j < k)%nat -> exists e, request j = inl e /\ retried e = true
       | inl AssertionFailed => False
       end.
Proof.
  induction turns as [|turns IH]; intros i; simpl.
  - split; [lia |]. split; [intros j ? ?; lia |]. split; [lia | intros j ?; lia].
  - destruct (request i) as [e|data] eqn:R.
    + destruct (retried e) eqn:Re.
      * specialize (IH (S i)). simpl in IH. destruct IH as (B & Hbefore & Hlast).
        split; [lia |]. split.
        -- intros j Hj Hk. destruct (decide (j = i)) as [->|Hne]; [eauto |].
           apply Hbefore; lia.
        -- destruct (loop request turns (S i)).1 as [[e'| |]|data].
           ++ destruct Hlast as (? & ? & ?). split; [lia | auto].
           ++ exact Hlast.
           ++ destruct Hlast as [-> Hall]. split; [lia |].
              intros j Hj. destruct (decide (j = i)) as [->|Hne]; [eauto |].
              apply Hall. lia.
           ++ destruct Hlast as (? & ?). split; [lia | auto].
      * simpl. split; [lia |]. split; [intros j ? ?; lia |]. auto with lia.
    + simpl. split; [lia |]. split; [intros j ? ?; lia |]. auto with lia.
Qed.

(** X23. [requestWithRetry]: with [tries <= 0] the assertion fails and
    no request is made.  Otherwise at least one and at most [ceil(tries)]
    requests are made; all but the last failed with one of the errors that
    are retried; the result is the data of the last one, or its exception
    when that is not retried, or the "too many fails" error when all of the
    [ceil(tries)] requests failed with errors that are retried. *)
Theorem requestWithRetry_spec (tries : Q) :
  let r := (requestWithRetry request tries).1 in
  let k := (requestWithRetry request tries).2 in
  if Qle_bool tries 0 then r = inl AssertionFailed /\ k = O
  else
    (1 <= k)%nat /\ (Z.of_nat k <= Qceiling tries)
    /\ (forall j, (S j < k)%nat -> exists e, request j = inl e /\ retried e = true)
    /\ match r with
       | inr data => request (pred k) = inr data
       | inl (Rethrown e) => request (pred k) = inl e /\ retried e = false
       | inl TooManyFails =>
           Z.of_nat k = Qceiling tries
           /\ forall j, (j < k)%nat -> exists e, request j = inl e /\ retried e = true
       | inl AssertionFailed => False
       end.
Proof.
  unfold requestWithRetry. destruct (Qle_bool tries 0) eqn:T; [split; reflexivity |].
  assert (Hpos : 0 < Qceiling tries).
  { destruct (Z_lt_le_dec 0 (Qceiling tries)) as [P|N]; [exact P | exfalso].
    assert (L : (tries <= 0)%Q).
    { apply Qle_trans with (inject_Z (Qceiling tries)); [apply Qle_ceiling |].
      change 0%Q with (inject_Z 0). rewrite <- Zle_Qle. exact N. }
    apply Qle_bool_iff in L. rewrite L in T. discriminate T. }
  destruct (loop_spec (Z.to_nat (Qceiling tries)) O) as (B & Hbefore & Hlast).
  simpl in B, Hbefore, Hlast.
  set (r := (loop request (Z.to_nat (Qceiling tries)) 0).1) in *.
  set (k := (loop request (Z.to_nat (Qceiling tries)) 0).2) in *.
  assert (K : (1 <= k)%nat).
  { destruct r as [[e| |]|data]; [lia | contradiction | | lia].
    destruct Hlast as [-> _]. lia. }
  split; [exact K |]. split; [lia |]. split.
  - intros j Hj. apply Hbefore; lia.
  - destruct r as [[e| |]|data]; try tauto.
    destruct Hlast as [-> Hall]. split; [lia |]. intros j Hj. apply Hall. lia.
Qed.

End RetryMore.

(** ** The cancelable timer *)

Section TimerMore.
Import CancelableTimer.

Lemma timer_idle (s : State) :
  invariant s -> dataActive s = false -> timeouts s = [].
Proof.
  intros (_ & _ & Ht & _ & Ha) Hi. rewrite Hi in Ha. destruct Ha as (Hn & _).
  destruct (timeouts s) as [|h l] eqn:E; [reflexivity | exfalso].
  assert (X : dataTimer s = Some h) by (apply Ht; rewrite ?E; left).
  rewrite Hn in X. discriminate X.
Qed.

Lemma timer_clear (h : nat) (s : State) :
  invariant s -> dataTimer s = Some h -> timeouts (clearTimeout h s) = [].
Proof.
  intros (_ & _ & Ht & _) Hd. simpl.
  destruct (List.filter _ (timeouts s)) as [|h' l] eqn:E; [reflexivity | exfalso].
  assert (I : In h' (List.filter (fun h' => negb (h' =? h)%nat) (timeouts s)))
    by (rewrite E; left; reflexivity).
  apply filter_In in I as [I N]. apply list_elem_of_In in I.
  specialize (Ht h' I). rewrite Hd in Ht. injection Ht as ->.
  rewrite Nat.eqb_refl in N. discriminate N.
Qed.

Lemma timer_cleared (s : State) :
  invariant s ->
  timeouts (match dataTimer s with
            | Some h => clearTimeout h s
            | None => s
            end) = [].
Proof.
  intros Inv. destruct (dataTimer s) as [h|] eqn:D; [apply (timer_clear h s Inv D) |].
  destruct Inv as (_ & _ & Ht & _).
  destruct (timeouts s) as [|h l] eqn:E; [reflexivity | exfalso].
  assert (X : dataTimer s = Some h) by (apply Ht; rewrite ?E; left).
  rewrite D in X. discriminate X.
Qed.

(** [done] on a timer in progress settles the pending promise; on an idle
    timer it changes nothing. *)
Lemma timer_done (err : bool) (s : State) :
  invariant s ->
  invariant (done err s)
  /\ dataActive (done err s) = false
  /\ timeouts (done err s) = []
  /\ immediates (done err s) = immediates s
  /\ promises (done err s) = promises s
  /\ (if dataActive s then
        exists p, dataResolve s = Some p
                  /\ settled (done err s)
                     = (settled s ++ [if err then Rejected p else Resolved p])%list
      else done err s = s).
Proof.
  intros Inv. pose proof Inv as (Hn & Hp & Ht & Hl & Ha).
  destruct (dataActive s) eqn:A.
  - destruct Ha as (p & Hr & Hj & Hlt & Hfresh).
    pose proof (timer_cleared s Inv) as T.
    assert (S : settled (done err s)
                = (settled s ++ [if err then Rejected p else Resolved p])%list).
    { unfold done. rewrite A. simpl.
      destruct (dataTimer s), err; simpl; rewrite ?Hr, ?Hj; reflexivity. }
    assert (T' : timeouts (done err s) = []).
    { unfold done. rewrite A. simpl.
      destruct (dataTimer s), err; simpl in T |- *; rewrite ?Hr, ?Hj; exact T. }
    assert (P : promises (done err s) = promises s).
    { unfold done. rewrite A. simpl.
      destruct (dataTimer s), err; simpl; rewrite ?Hr, ?Hj; reflexivity. }
    assert (Im : immediates (done err s) = immediates s).
    { unfold done. rewrite A. simpl.
      destruct (dataTimer s), err; simpl; rewrite ?Hr, ?Hj; reflexivity. }
    split; [| split; [reflexivity |]; split; [exact T' |]; split; [exact Im |];
              split; [exact P |]; exists p; auto].
    unfold invariant. rewrite S, P, T'. change (dataActive (done err s)) with false.
    split; [| split; [| split; [| split]]].
    + rewrite map_app. apply NoDup_app. split; [exact Hn |]. split.
      * intros x Hx Hx'. destruct err; simpl in Hx'; apply list_elem_of_singleton in Hx';
          subst x; contradiction.
      * destruct err; simpl; apply NoDup_singleton.
    + apply Forall_app. split; [exact Hp |]. constructor; [| constructor].
      destruct err; exact Hlt.
    + intros h Hh. apply elem_of_nil in Hh. contradiction.
    + simpl. lia.
    + auto.
  - destruct Ha as (Hd & Hr & Hj).
    assert (E : done err s = s).
    { unfold done. rewrite A. simpl. destruct s; simpl in *. subst. reflexivity. }
    rewrite E.
    split; [exact Inv |]. split; [exact A |].
    split; [apply (timer_idle s Inv A) |]. auto.
Qed.

Lemma timer_delay_inv (ms : Z) (s s' : State) (p : nat) :
  invariant s -> delay ms s = Some (p, s') -> invariant s'.
Proof.
  intros Inv D. pose proof Inv as (Hn & Hp & Ht & Hl & Ha). unfold delay in D.
  destruct (dataActive s) eqn:A; [discriminate D |].
  destruct Ha as (Hd & Hr & Hj).
  pose proof (timer_idle s Inv A) as T.
  assert (Fresh : promises s ∉ map promise (settled s)).
  { intros I. apply list_elem_of_fmap in I as (r & E & I).
    rewrite Forall_forall in Hp. specialize (Hp r I). lia. }
  assert (Hp' : Forall (fun r => (promise r < S (promises s))%nat) (settled s)).
  { eapply Forall_impl; [exact Hp |]. simpl. intros r ?. lia. }
  destruct (ms <? 0); injection D as <- <-; unfold invariant; simpl.
  - split; [exact Hn |]. split; [exact Hp' |]. rewrite T. split; [| split; [simpl; lia |]].
    + intros h Hh. apply elem_of_nil in Hh. contradiction.
    + exists (promises s). auto with lia.
  - split; [exact Hn |]. split; [exact Hp' |]. rewrite T. split; [| split; [simpl; lia |]].
    + intros h Hh. apply list_elem_of_singleton in Hh. subst h. reflexivity.
    + exists (promises s). auto with lia.
Qed.

Lemma timer_aside (s : State) (ts : list nat) (im : nat) :
  invariant s ->
  (forall h, h ∈ ts -> h ∈ timeouts s) ->
  (length ts <= length (timeouts s))%nat ->
  invariant {| dataActive := dataActive s; dataTimer := dataTimer s;
               dataResolve := dataResolve s; dataReject := dataReject s; timeouts := ts;
               immediates := im; promises := promises s; handles := handles s;
               settled := settled s |}.
Proof.
  intros (Hn & Hp & Ht & Hl & Ha) Sub Len. unfold invariant. simpl.
  split; [exact Hn |]. split; [exact Hp |]. split; [| split; [lia | exact Ha]].
  intros h Hh. apply Ht, Sub, Hh.
Qed.

Lemma timer_step_inv (s : State) (op : Op) : invariant s -> invariant (step s op).
Proof.
  intros Inv. destruct op as [ms| |h|]; simpl.
  - destruct (delay ms s) as [[p s']|] eqn:D; [| exact Inv].
    apply (timer_delay_inv ms s s' p Inv D).
  - apply (timer_done true s Inv).
  - unfold fireTimeout. destruct (bool_decide _); [| exact Inv].
    apply timer_done. apply (timer_aside s _ (immediates s) Inv).
    + intros h' Hh. apply list_elem_of_In, filter_In in Hh as [Hh _].
      apply list_elem_of_In, Hh.
    + apply filter_length_le.
  - unfold runImmediate. destruct (immediates s) as [|n]; [exact Inv |].
    apply timer_done. apply (timer_aside s (timeouts s) n Inv); auto.
Qed.

Lemma timer_run_inv (ops : list Op) : invariant (run ops).
Proof.
  unfold run.
  assert (G : forall s, invariant s -> invariant (fold_left step ops s)).
  { induction ops as [|op ops IH]; intros s Inv; [exact Inv |].
    simpl. apply IH, timer_step_inv, Inv. }
  apply G. unfold invariant, create. simpl.
  split; [constructor |]. split; [constructor |]. split; [| auto].
  intros h Hh. apply elem_of_nil in Hh. contradiction.
Qed.

(** X24. [CancelableTimer], after any calls of [delay] and [cancel] and any
    timeouts and immediate callbacks, in any order: no promise is settled
    twice; one timeout is armed at most, and none while no delay is in
    progress; and [delay] throws while a delay is in progress. *)
Theorem timer_settles_once (ops : list Op) :
  NoDup (map promise (settled (run ops)))
  /\ (length (timeouts (run ops)) <= 1)%nat
  /\ (dataActive (run ops) = false -> timeouts (run ops) = [])
  /\ (forall ms, dataActive (run ops) = true -> delay ms (run ops) = None).
Proof.
  pose proof (timer_run_inv ops) as Inv. pose proof Inv as (Hn & _ & _ & Hl & _).
  split; [exact Hn |]. split; [exact Hl |]. split.
  - apply (timer_idle _ Inv).
  - intros ms A. unfold delay. rewrite A. reflexivity.
Qed.

(** X25. [CancelableTimer], from any state it can reach in which no delay
    is in progress: [delay(ms)] with [ms >= 0] returns a promise that is
    not settled yet and arms one timeout; when the timeout fires the
    promise is resolved; [cancel] instead rejects it, after which the
    timeout can no longer fire; and [cancel] with no delay in progress
    changes nothing. *)
Theorem timer_delay_cancel (ops : list Op) (ms : Z) :
  dataActive (run ops) = false ->
  0 <= ms ->
  exists p h s',
    delay ms (run ops) = Some (p, s')
    /\ (p ∉ map promise (settled (run ops)))
    /\ timeouts s' = [h]
    /\ settled (fireTimeout h s') = (settled (run ops) ++ [Resolved p])%list
    /\ settled (cancel s') = (settled (run ops) ++ [Rejected p])%list
    /\ (forall h', fireTimeout h' (cancel s') = cancel s')
    /\ cancel (run ops) = run ops.
Proof.
  intros A Hms. pose proof (timer_run_inv ops) as Inv.
  set (s := run ops) in *.
  pose proof (timer_idle s Inv A) as T.
  destruct (delay ms s) as [[p s']|] eqn:D; [| unfold delay in D; rewrite A in D;
                                              destruct (ms <? 0); discriminate D].
  pose proof (timer_delay_inv ms s s' p Inv D) as Inv'.
  assert (E : p = promises s
              /\ s' = {| dataActive := true; dataTimer := Some (handles s);
                         dataResolve := Some (promises s); dataReject := Some (promises s);
                         timeouts := [handles s]; immediates := immediates s;
                         promises := S (promises s); handles := S (handles s);
                         settled := settled s |}).
  { unfold delay in D. rewrite A in D.
    rewrite (proj2 (Z.ltb_ge ms 0) Hms) in D. injection D as <- <-. rewrite T. auto. }
  destruct E as [-> Es'].
  exists (promises s), (handles s), s'.
  split; [reflexivity |]. split.
  { destruct Inv as (_ & Hp & _). intros I. apply list_elem_of_fmap in I as (r & E & I).
    rewrite Forall_forall in Hp. specialize (Hp r I). lia. }
  split; [rewrite Es'; reflexivity |].
  split; [rewrite Es'; unfold fireTimeout; simpl;
          rewrite bool_decide_eq_true_2 by (apply list_elem_of_singleton; reflexivity);
          reflexivity |].
  split; [rewrite Es'; reflexivity |].
  split.
  - intros h'. unfold fireTimeout.
    destruct (timer_done true s' Inv') as (_ & _ & Tc & _). unfold cancel. rewrite Tc.
    rewrite bool_decide_eq_false_2 by apply not_elem_of_nil. reflexivity.
  - destruct (timer_done true s Inv) as (_ & _ & _ & _ & _ & Hd). rewrite A in Hd. exact Hd.
Qed.

End TimerMore.

(** ** The further properties on concrete inputs *)

Section FurtherExamples.
Import HttpAuthentication.

Lemma local_set_get_witness :
  exists c',
    Local.set Scenario.atTime1 "k" (Some null) None Scenario.cache0 = Ok c'
    /\ Local.get "k" c' = Some null
    /\ (forall k, k <> "k" -> Local.get k c' = Local.get k Scenario.cache0)
    /\ Local.set Scenario.atTime1 "k" (@None Null) None Scenario.cache0 = Err OtherError.
Proof.
  apply (local_set_get Scenario.atTime1 "k" null None Scenario.cache0). discriminate.
Defined.

Lemma local_del_get_witness :
  Local.get "a" (Local.del "b" Scenario.cacheAB) = Local.get "a" Scenario.cacheAB.
Proof.
  apply (proj1 (proj2 (local_del_get "b" Scenario.cacheAB)) "a"). discriminate.
Defined.

Lemma local_waiter_schedule_witness :
  Scenario.time1 + 2000 + 1000
  < Local.wakeAt (Local.wake (Scenario.time1 + 2000) Scenario.cacheAB).
Proof.
  apply (proj1 (@local_waiter_schedule Null) (Scenario.time1 + 2000) Scenario.cacheAB).
  apply Z.leb_le. vm_compute. reflexivity.
Defined.

Lemma remote_key_injective_witness :
  let c1 := Remote.create (600 # 1) ∅ "example" "nonce" in
  let c2 := Remote.create (600 # 1) ∅ "example" "other" in
  let st' := Remote.optRedisClient
               (afterSet (Remote.set Scenario.serializeNull Scenario.atTime1 "k" (Some null)
                            None c1) c1) in
  let st'' := Remote.optRedisClient (Remote.del Scenario.atTime1 "k" c1) in
  Remote.get Scenario.deserializeNull Scenario.soon "k" (Remote.with_client c2 st')
  = Remote.get Scenario.deserializeNull Scenario.soon "k" c2
  /\ Remote.get Scenario.deserializeNull Scenario.soon "k" (Remote.with_client c2 st'')
     = Remote.get Scenario.deserializeNull Scenario.soon "k" c2.
Proof.
  apply (proj2 (remote_key_injective Scenario.serializeNull Scenario.deserializeNull)
           Scenario.atTime1 Scenario.soon (600 # 1) (600 # 1) ∅
           "example" "nonce" "k" "example" "other" "k" null None).
  discriminate.
Defined.

Lemma remote_set_get_witness :
  exists c',
    Remote.set Scenario.serializeNull Cases.midSecond "k" (Some null)
      (Some {| ttl := Cases.instant; absolute := true |}) Scenario.remote0
    = Ok c'
    /\ Remote.get Scenario.deserializeNull Scenario.soon "k" c'
       = (if now Scenario.soon <=? now Cases.midSecond + 1000 * 4 then Some null else None)
    /\ (forall k, k <> "k" ->
          Remote.get Scenario.deserializeNull Scenario.soon k c'
          = Remote.get Scenario.deserializeNull Scenario.soon k Scenario.remote0).
Proof.
  apply (remote_set_get Scenario.serializeNull Scenario.deserializeNull
           Cases.midSecond Scenario.soon "k" null
           (Some {| ttl := Cases.instant; absolute := true |}) Scenario.remote0 4);
    first [reflexivity | lia | vm_compute; reflexivity].
Defined.

Lemma remote_del_get_witness :
  Remote.get Scenario.deserializeNull Scenario.soon "k"
    (Remote.del Scenario.atTime1 "k" Scenario.remote1) = None
  /\ (forall k, k <> "k" ->
        Remote.get Scenario.deserializeNull Scenario.soon k
          (Remote.del Scenario.atTime1 "k" Scenario.remote1)
        = Remote.get Scenario.deserializeNull Scenario.soon k Scenario.remote1).
Proof.
  apply (remote_del_get Scenario.deserializeNull Scenario.atTime1 Scenario.soon "k"
           Scenario.remote1).
  reflexivity.
Defined.

Lemma remote_absolute_expiry_witness :
  exists en,
    Remote.set Scenario.serializeNull Cases.midSecond "k" (Some null)
      (Some {| ttl := Cases.instant; absolute := true |}) Scenario.remote0
    = Ok (Remote.with_client Scenario.remote0
            (<[Remote.generateKey Scenario.remote0 "k" := en]>
               (Remote.optRedisClient Scenario.remote0)))
    /\ Redis.payload en = Scenario.serializeNull null
    /\ Redis.expireAt en = now Cases.midSecond + 1000 * 4
    /\ (- (500 + (1 # 500)) < inject_Z (Redis.expireAt en) - 1000 * Cases.instant)%Q
    /\ (inject_Z (Redis.expireAt en) - 1000 * Cases.instant <= 500 + (1 # 500))%Q.
Proof.
  apply (remote_absolute_expiry Scenario.serializeNull Cases.midSecond "k" null
           Cases.instant Scenario.remote0).
  - reflexivity.
  - vm_compute. split; [discriminate | reflexivity].
  - vm_compute. reflexivity.
  - vm_compute. reflexivity.
Defined.

(** The entry of that witness expires more than 500 ms after the instant:
    the clock divided by 1000 is rounded to a double before it is
    subtracted, and the difference is three and a half seconds exactly. *)
Example remote_absolute_expiry_in_doubles :
  Math_round (Double.fl (Cases.instant - Double.fl (inject_Z (now Cases.midSecond) / 1000))) = 4
  /\ Math_round (Cases.instant - inject_Z (now Cases.midSecond) / 1000) = 3
  /\ (500 < inject_Z (now Cases.midSecond + 1000 * 4) - 1000 * Cases.instant)%Q.
Proof. vm_compute. repeat split; reflexivity. Qed.

Lemma remote_outage_witness :
  @NonceController.add _ (Remote.impl Scenario.serializeNull Scenario.deserializeNull)
    Cases.outage "merchant-1" Scenario.nonce1 false Scenario.remote1
  = (Ok true, Scenario.remote1).
Proof.
  apply (proj2 (remote_outage Scenario.serializeNull Scenario.deserializeNull
                  Cases.outage Scenario.remote1 eq_refl)).
Defined.

Lemma nonce_replay_local_witness :
  let c' := (NonceController.add Scenario.soon "merchant-1" Scenario.nonce1 false
               Scenario.cache0).2 in
  let purged := (Local.wakeAt c' <=? now Scenario.late)
                && (Local.optTtlMs Scenario.cache0 + now Scenario.soon <=? now Scenario.late) in
  (NonceController.add Scenario.late "merchant-1" Scenario.nonce1 false
     (Local.wake (now Scenario.late) c')).1 = Ok purged
  /\ (purged = false ->
      (NonceController.add Scenario.late "merchant-1" Scenario.nonce1 false
         (Local.wake (now Scenario.late) c')).2 = Local.wake (now Scenario.late) c').
Proof.
  apply (nonce_replay_local Scenario.soon Scenario.late (now Scenario.late)
           "merchant-1" Scenario.nonce1 false Scenario.cache0).
  vm_compute. reflexivity.
Defined.

Lemma nonce_replay_remote_witness :
  let add' := @NonceController.add _
                (Remote.impl Scenario.serializeNull Scenario.deserializeNull) in
  (add' Scenario.late "merchant-1" Scenario.nonce1 false
     (add' Scenario.soon "merchant-1" Scenario.nonce1 false Scenario.remote0).2).1
  = Ok (negb (now Scenario.late <=? now Scenario.soon + 1000 * 600))
  /\ (now Scenario.late <= now Scenario.soon + 1000 * 600 ->
      (add' Scenario.late "merchant-1" Scenario.nonce1 false
         (add' Scenario.soon "merchant-1" Scenario.nonce1 false Scenario.remote0).2).2
      = (add' Scenario.soon "merchant-1" Scenario.nonce1 false Scenario.remote0).2).
Proof.
  apply (nonce_replay_remote Scenario.serializeNull Scenario.deserializeNull
           Scenario.soon Scenario.late "merchant-1" Scenario.nonce1 false Scenario.remote0 600);
    first [reflexivity | lia | (vm_compute; reflexivity)].
Defined.

Lemma credential_fields_witness :
  let fields := Js.split "," Cases.credentials in
  (forall fld, In fld fields ->
     exists key value,
       fld = key +:+ "=" +:+ value /\ value <> ""
       /\ (key = "__proto__"
           \/ In (key, value)
                [("Credential", "merchant-1"); ("SignedHeaders", "host");
                 ("Signature", "5369676e6564")]))
  /\ (In ("Credential=" +:+ "merchant-1") fields /\ In ("SignedHeaders=" +:+ "host") fields
      /\ In ("Signature=" +:+ "5369676e6564") fields)
  /\ (forall value, In ("Credential=" +:+ value) fields -> value = "merchant-1")
  /\ (forall value, In ("SignedHeaders=" +:+ value) fields -> value = "host")
  /\ (forall value, In ("Signature=" +:+ value) fields -> value = "5369676e6564").
Proof.
  apply (credential_fields Cases.credentials "merchant-1" "host" "5369676e6564").
  vm_compute. reflexivity.
Defined.

Lemma signed_headers_exact_witness :
  exists v,
    validate Scenario.URL_parse Scenario.localeCompare Scenario.Date_parse Cases.charge = Ok v
    /\ declaredSignedHeaders Cases.charge
       = Ok (map fst (Arr.sort (fun a b => Scenario.localeCompare a.1 b.1)
                        (OrdObj.entries (v_headersRaw v)))).
Proof.
  destruct (validate Scenario.URL_parse Scenario.localeCompare Scenario.Date_parse Cases.charge)
    as [v|err] eqn:V.
  - exists v. split; [reflexivity |].
    apply (proj1 (signed_headers_exact Scenario.URL_parse Scenario.localeCompare
                    Scenario.Date_parse Cases.charge v V)).
  - exfalso. vm_compute in V. discriminate V.
Defined.

Lemma duplicate_signed_header_rejected_witness :
  exists err,
    validate Scenario.URL_parse Scenario.localeCompare Scenario.Date_parse Cases.duplicateHost
    = Err err /\ coded err.
Proof.
  apply (duplicate_signed_header_rejected Scenario.URL_parse Scenario.localeCompare
           Scenario.Date_parse Cases.duplicateHost
           ["content-type"; "host"; "x-fomopay-content-sha256"; "x-fomopay-date";
            "x-fomopay-nonce"]
           0 6 "Host" "host").
  - discriminate.
  - reflexivity.
  - reflexivity.
  - reflexivity.
  - vm_compute. reflexivity.
  - simpl. tauto.
Defined.

Lemma fixedEncodeURIComponent_charset_witness :
  is_Some (fixedEncodeURIComponent [55357; 56832; 33; 8364]) /\ Js.all encodedChar "%F0%9F%98%80%21%E2%82%AC" = true.
Proof.
  split.
  - apply (proj1 fixedEncodeURIComponent_charset [55357; 56832; 33; 8364]). reflexivity.
  - apply (proj1 (proj2 fixedEncodeURIComponent_charset) [55357; 56832; 33; 8364]).
    reflexivity.
Defined.

Lemma code_inj (a b : ascii) : Js.code a = Js.code b -> a = b.
Proof.
  unfold Js.code. intros E. apply N2Z.inj in E.
  rewrite <- (ascii_N_embedding a), <- (ascii_N_embedding b), E. reflexivity.
Qed.

Lemma Scenario_localeCompare_eq (a b : string) : Scenario.localeCompare a b = 0 <-> a = b.
Proof.
  revert b. induction a as [|x a IH]; intros [|y b]; simpl; try (split; [lia || discriminate | discriminate]).
  - split; reflexivity.
  - destruct (Js.code x =? Js.code y) eqn:E.
    + apply Z.eqb_eq, code_inj in E. subst y. rewrite IH. split; [intros ->; reflexivity |].
      intros [= ->]. reflexivity.
    + apply Z.eqb_neq in E. split; [lia |]. intros [= -> _]. contradiction.
Qed.

Lemma Scenario_localeCompare_sym (a b : string) :
  Scenario.localeCompare a b < 0 <-> 0 < Scenario.localeCompare b a.
Proof.
  revert b. induction a as [|x a IH]; intros [|y b]; simpl; try lia.
  rewrite (Z.eqb_sym (Js.code y)).
  destruct (Js.code x =? Js.code y); [apply IH | lia].
Qed.

Lemma Scenario_localeCompare_trans (a b c : string) :
  Scenario.localeCompare a b < 0 -> Scenario.localeCompare b c < 0 ->
  Scenario.localeCompare a c < 0.
Proof.
  revert b c. induction a as [|x a IH]; intros [|y b] [|z c]; simpl; try lia.
  destruct (Z.eqb_spec (Js.code x) (Js.code y)) as [E1|E1];
    destruct (Z.eqb_spec (Js.code y) (Js.code z)) as [E2|E2];
    destruct (Z.eqb_spec (Js.code x) (Js.code z)) as [E3|E3]; try lia.
  apply IH.
Qed.

Lemma canonicalQueryString_order_witness :
  canonicalQueryString Scenario.localeCompare [([98], [50]); ([97], [8364; 55357; 56832])]
  = canonicalQueryString Scenario.localeCompare [([97], [8364; 55357; 56832]); ([98], [50])].
Proof.
  apply (canonicalQueryString_order Scenario.localeCompare).
  - intros a b _ _. apply Scenario_localeCompare_eq.
  - intros a b _ _. apply Scenario_localeCompare_sym.
  - intros a b c _ _ _. apply Scenario_localeCompare_trans.
  - apply perm_swap.
Defined.

Lemma acceptance_witness :
  exists v,
    checkedBeforeReplay Scenario.URL_parse Scenario.localeCompare Scenario.Date_parse
      Scenario.merchantConfig_get Scenario.rsa_verify Scenario.soon Cases.charge = Some v
    /\ (NonceController.add Scenario.soon (v_credential v) (v_nonce v)
          (idempotentVerb (method Cases.charge)) (configCache Scenario.world0)).1 = Ok true
    /\ (0 < Js.slength (v_reqBody v) -> is_Some (Scenario.JSON_parse (v_reqBody v)))
    /\ (forall pl, dataStorage Scenario.world0 !! "httpAuthentication" <> Some (pl, true)).
Proof.
  apply (proj1 (acceptance string Scenario.URL_parse Scenario.localeCompare Scenario.Date_parse
                  Scenario.merchantConfig_get Scenario.rsa_verify Scenario.JSON_parse
                  Scenario.soon Cases.charge Scenario.world0)).
  vm_compute. reflexivity.
Defined.

Lemma replay_rejected_witness :
  exists f,
    (authenticate string Scenario.URL_parse Scenario.localeCompare Scenario.Date_parse
       Scenario.merchantConfig_get Scenario.rsa_verify Scenario.JSON_parse
       Scenario.soon Cases.charge Cases.replayed).1 = Err (AuthError 0x0019 f)
    /\ (f = TimestampOutOfRange \/ f = NonceRejected)
    /\ Next ∉ drop (length (trace Cases.replayed))
                (trace (HttpAuthenticationMiddleware string Scenario.URL_parse
                          Scenario.localeCompare Scenario.Date_parse
                          Scenario.merchantConfig_get Scenario.rsa_verify Scenario.JSON_parse
                          Scenario.soon Cases.charge Cases.replayed)).
Proof.
  apply (replay_rejected string Scenario.URL_parse Scenario.localeCompare Scenario.Date_parse
           Scenario.merchantConfig_get Scenario.rsa_verify Scenario.JSON_parse
           Scenario.soon Scenario.soon (now Scenario.soon) Cases.charge Scenario.world0
           Cases.replayed).
  - vm_compute. reflexivity.
  - reflexivity.
  - reflexivity.
  - left. vm_compute. reflexivity.
Defined.

Lemma request_data_write_once_witness :
  let d' : gmap string (string * bool) := <["k" := ("v", true)]> ∅ in
  let calls := [("k", "x", None); ("j", "y", Some {| HttpRequestData.immutable := false |})] in
  HttpRequestData.get "k" (HttpRequestData.sets calls d') = Ok "v"
  /\ (forall (x : string) (o : option HttpRequestData.Options),
        HttpRequestData.set "k" x o (HttpRequestData.sets calls d') = Err OtherError)
  /\ (forall k, k <> "k" -> d' !! k = (∅ : gmap string (string * bool)) !! k).
Proof.
  apply (request_data_write_once "k" "v" ∅ (<["k" := ("v", true)]> ∅)
           [("k", "x", None); ("j", "y", Some {| HttpRequestData.immutable := false |})]).
  - discriminate.
  - reflexivity.
Defined.

Lemma request_data_get_witness :
  exists d',
    HttpRequestData.set "k" "x" None (<["k" := ("v", false)]> ∅) = Ok d'
    /\ HttpRequestData.get "k" d' = Ok "x"
    /\ d' !! "k" = Some ("x", default true (HttpRequestData.immutable <$> None)).
Proof.
  apply (proj2 (request_data_get "k" (<["k" := ("v", false)]> ∅)) "v" "x" None).
  - reflexivity.
  - discriminate.
Defined.

Lemma merchant_config_cached_witness :
  let get' := MerchantConfig.get (Row := string) (Config := string) Some in
  let s := MerchantConfig.create Scenario.time1 in
  let t := now Scenario.late in
  let r := (get' Cases.merchantRows Scenario.soon "merchant-1" s).1 in
  let s' := (get' Cases.merchantRows Scenario.soon "merchant-1" s).2 in
  MerchantConfig.queried s' = (MerchantConfig.queried s ++ ["merchant-1"])%list
  /\ match r with
     | Ok value =>
         (t < Local.wakeAt (MerchantConfig.dataConfigCache s')
          \/ t < Local.optTtlMs (MerchantConfig.dataConfigCache s) + now Scenario.soon ->
          get' (fun _ => None) Scenario.late "merchant-1" (MerchantConfig.wake t s')
          = (Ok value, MerchantConfig.wake t s'))
         /\ (Local.wakeAt (MerchantConfig.dataConfigCache s') <= t ->
             Local.optTtlMs (MerchantConfig.dataConfigCache s) + now Scenario.soon <= t ->
             MerchantConfig.queried
               (get' (fun _ => None) Scenario.late "merchant-1" (MerchantConfig.wake t s')).2
             = (MerchantConfig.queried s ++ ["merchant-1"; "merchant-1"])%list)
     | Err _ =>
         MerchantConfig.dataConfigCache s' = MerchantConfig.dataConfigCache s
         /\ MerchantConfig.queried (get' (fun _ => None) Scenario.late "merchant-1" s').2
            = (MerchantConfig.queried s ++ ["merchant-1"; "merchant-1"])%list
     end.
Proof.
  apply (merchant_config_cached Some Cases.merchantRows (fun _ => None)
           Scenario.soon Scenario.late (now Scenario.late) "merchant-1"
           (MerchantConfig.create Scenario.time1)).
  - discriminate.
  - reflexivity.
Defined.

Lemma requestWithRetry_spec_witness :
  let r := (Xchange.requestWithRetry Cases.attempts 3).1 in
  let k := (Xchange.requestWithRetry Cases.attempts 3).2 in
  if Qle_bool 3 0 then r = inl Xchange.AssertionFailed /\ k = O
  else
    (1 <= k)%nat /\ (Z.of_nat k <= Qceiling 3)
    /\ (forall j, (S j < k)%nat ->
          exists e, Cases.attempts j = inl e /\ Xchange.retried e = true)
    /\ match r with
       | inr data => Cases.attempts (pred k) = inr data
       | inl (Xchange.Rethrown e) =>
           Cases.attempts (pred k) = inl e /\ Xchange.retried e = false
       | inl Xchange.TooManyFails =>
           Z.of_nat k = Qceiling 3
           /\ forall j, (j < k)%nat ->
                exists e, Cases.attempts j = inl e /\ Xchange.retried e = true
       | inl Xchange.AssertionFailed => False
       end.
Proof. exact (requestWithRetry_spec Cases.attempts 3). Defined.

Lemma timer_settles_once_witness :
  CancelableTimer.delay 5 (CancelableTimer.run [CancelableTimer.Delay 1000]) = None.
Proof.
  apply (proj2 (proj2 (proj2 (timer_settles_once [CancelableTimer.Delay 1000]))) 5).
  reflexivity.
Defined.

Lemma timer_delay_cancel_witness :
  let s := CancelableTimer.run [CancelableTimer.Delay 1000; CancelableTimer.Cancel] in
  exists p h s',
    CancelableTimer.delay 500 s = Some (p, s')
    /\ (p ∉ map CancelableTimer.promise (CancelableTimer.settled s))
    /\ CancelableTimer.timeouts s' = [h]
    /\ CancelableTimer.settled (CancelableTimer.fireTimeout h s')
       = (CancelableTimer.settled s ++ [CancelableTimer.Resolved p])%list
    /\ CancelableTimer.settled (CancelableTimer.cancel s')
       = (CancelableTimer.settled s ++ [CancelableTimer.Rejected p])%list
    /\ (forall h', CancelableTimer.fireTimeout h' (CancelableTimer.cancel s')
                   = CancelableTimer.cancel s')
    /\ CancelableTimer.cancel s = s.
Proof.
  apply (timer_delay_cancel [CancelableTimer.Delay 1000; CancelableTimer.Cancel] 500).
  - reflexivity.
  - lia.
Defined.

(** A raw header of one request is found in the other, at some pair. *)
Ltac sameHeaderAt i :=
  exists i; eexists; eexists;
  split; [reflexivity | split; [reflexivity | split; reflexivity]].
Ltac sameHeader :=
  first [ sameHeaderAt 0%nat | sameHeaderAt 1%nat | sameHeaderAt 2%nat | sameHeaderAt 3%nat
        | sameHeaderAt 4%nat | sameHeaderAt 5%nat ].

Lemma canonical_headers_order_witness :
  exists v v',
    validate Scenario.URL_parse Scenario.localeCompare Scenario.Date_parse Cases.charge = Ok v
    /\ validate Scenario.URL_parse Scenario.localeCompare Scenario.Date_parse Cases.reordered
       = Ok v'
    /\ v_stringToSign v' = v_stringToSign v.
Proof.
  destruct (validate Scenario.URL_parse Scenario.localeCompare Scenario.Date_parse Cases.charge)
    as [v|err] eqn:V; [| exfalso; vm_compute in V; discriminate V].
  destruct (validate Scenario.URL_parse Scenario.localeCompare Scenario.Date_parse
              Cases.reordered)
    as [v'|err] eqn:V'; [| exfalso; vm_compute in V'; discriminate V'].
  exists v, v'. split; [reflexivity |]. split; [reflexivity |].
  apply (canonical_headers_order Scenario.URL_parse Scenario.localeCompare Scenario.Date_parse
           (fun a b _ _ => Scenario_localeCompare_eq a b)
           (fun a b _ _ => Scenario_localeCompare_sym a b)
           (fun a b c _ _ _ => Scenario_localeCompare_trans a b c)
           Cases.charge Cases.reordered v v' V V'); try reflexivity.
  intros k val. unfold fromRaw.
  set (raw := rawHeaders Cases.charge). set (raw' := rawHeaders Cases.reordered).
  vm_compute in raw, raw'. subst raw raw'.
  split; intros (i & name & value & L1 & L2 & <- & ->);
    do 6 (destruct i as [|i];
          [injection L1 as <-; injection L2 as <-; sameHeader |]);
    apply lookup_lt_Some in L1; simpl in L1; lia.
Defined.

End FurtherExamples.
